(** * Malt node graphs: from a node tree to source text

    A shallow embedding of [BlenderMalt/MaltNodes.py]: the two source
    transpilers, socket resolution through reroute nodes, the per-node
    emission of source code, the graph compiler and the re-entrancy flag
    of the update wrappers.

    Conventions of the embedding.
    - A Python [str] is a [string]; a character is a code point below 256.
    - A Python value that is a [str] or [None] is a [pystr]
      ([option string]); [fstr] is its rendering inside an f-string.
    - A Python exception is a constructor of [exn]; a call that may raise
      returns a [result].
    - Recursion that follows the links of the graph takes a [fuel]
      argument; [None] at the outer [option] means the fuel ran out. *)

From Stdlib Require Import String Ascii List ZArith Lia Bool Arith.
From Stdlib Require Import DecimalString Wellfounded.
Import ListNotations.

Open Scope list_scope.
Open Scope string_scope.

(* ================================================================== *)
(** * Python values and exceptions *)

Definition pystr := option string.

(** [f'{v}'] : [None] is rendered as the text [None]. *)
Definition fstr (v : pystr) : string :=
  match v with
  | Some s => s
  | None => "None"
  end.

(** Truth value of a [str]-or-[None] in a condition: [None] and the empty
    string are false. *)
Definition truthy (v : pystr) : bool :=
  match v with
  | Some s => negb (s =? "")
  | None => false
  end.

Inductive exn : Type :=
| AttributeError
| IndexError
| KeyError
| TypeError
| UnboundLocalError
| ValueError
| RuntimeError.

Inductive result (A : Type) : Type :=
| Ok (a : A)
| Raise (e : exn).

Arguments Ok {A} a.
Arguments Raise {A} e.

Definition rbind {A B} (r : result A) (k : A -> result B) : result B :=
  match r with
  | Ok a => k a
  | Raise e => Raise e
  end.

(** The double quote character of the generated text. *)
Definition dq : string := String "034" "".

(** [f'{n}'] for a Python [int]. *)
Definition str_of_int (z : Z) : string :=
  NilZero.string_of_int (Z.to_int z).

(* ================================================================== *)
(** * String operations of the Python library *)

Module Str.

(** [c.isalnum()] for a code point below 256: the ASCII letters and
    digits, and the letters and numeric characters of Latin-1. *)
Definition isalnum (c : ascii) : bool :=
  let n := nat_of_ascii c in
  let between lo hi := Nat.leb lo n && Nat.leb n hi in
  let is_ k := Nat.eqb n k in
  between 48 57 || between 65 90 || between 97 122
  || is_ 170 || is_ 178 || is_ 179 || is_ 181 || is_ 185 || is_ 186
  || between 188 190 || between 192 214 || between 216 246
  || between 248 255.

(** [''.join(c for c in s if p(c))]. *)
Fixpoint filter_chars (p : ascii -> bool) (s : string) : string :=
  match s with
  | EmptyString => EmptyString
  | String c rest =>
      if p c then String c (filter_chars p rest) else filter_chars p rest
  end.

(** [s.replace(old, new)] for a non-empty [old]: the occurrences of [old]
    are found from left to right and do not overlap.  [skip] counts the
    characters of the current occurrence that are still to be dropped. *)
Fixpoint replace_from (old new : string) (skip : nat) (s : string) : string :=
  match s with
  | EmptyString => EmptyString
  | String c rest =>
      match skip with
      | S k => replace_from old new k rest
      | O =>
          if prefix old s
          then new ++ replace_from old new (String.length old - 1) rest
          else String c (replace_from old new 0 rest)
      end
  end.

Definition replace (old new s : string) : string :=
  replace_from old new 0 s.

(** [s.startswith(p)]. *)
Definition startswith (s p : string) : bool := prefix p s.

(** [sub in s]. *)
Fixpoint contains (sub s : string) : bool :=
  prefix sub s
  || match s with
     | EmptyString => false
     | String _ rest => contains sub rest
     end.

(** Every character of [s] satisfies [p]. *)
Fixpoint all_chars (p : ascii -> bool) (s : string) : bool :=
  match s with
  | EmptyString => true
  | String c rest => p c && all_chars p rest
  end.

(** [sep.join(items)]: raises [TypeError] when an item is not a [str]. *)
Fixpoint join_items (items : list pystr) : result (list string) :=
  match items with
  | [] => Ok []
  | Some s :: rest => rbind (join_items rest) (fun l => Ok (s :: l))
  | None :: _ => Raise TypeError
  end.

Definition join (sep : string) (items : list pystr) : result string :=
  rbind (join_items items) (fun l => Ok (String.concat sep l)).

End Str.

(* ================================================================== *)
(** * More of the Python string library *)

Module Text.

(** The characters at which [str.splitlines] breaks a line (code points
    below 256); a carriage return followed by a line feed is one break. *)
Definition is_linebreak (c : ascii) : bool :=
  let n := nat_of_ascii c in
  (Nat.leb 10 n && Nat.leb n 13) || (Nat.leb 28 n && Nat.leb n 30)
  || Nat.eqb n 133.

(** [c.isspace()] for a code point below 256. *)
Definition isspace (c : ascii) : bool :=
  let n := nat_of_ascii c in
  (Nat.leb 9 n && Nat.leb n 13) || (Nat.leb 28 n && Nat.leb n 32)
  || Nat.eqb n 133 || Nat.eqb n 160.

(** [s.splitlines(keepends)]; [cur] is the line read so far. *)
Fixpoint splitlines_from (keepends : bool) (cur s : string) : list string :=
  match s with
  | EmptyString => if cur =? "" then [] else [cur]
  | String c rest =>
      if is_linebreak c then
        match rest with
        | String d rest' =>
            if Ascii.eqb c "013" && Ascii.eqb d "010" then
              (cur ++ if keepends then String c (String d "") else "")
                :: splitlines_from keepends "" rest'
            else
              (cur ++ if keepends then String c "" else "")
                :: splitlines_from keepends "" rest
        | EmptyString => [cur ++ if keepends then String c "" else ""]
        end
      else splitlines_from keepends (cur ++ String c "") rest
  end.

Definition splitlines (keepends : bool) (s : string) : list string :=
  splitlines_from keepends "" s.

(** [s.split(sep)] for a separator of one character. *)
Fixpoint split_from (sep : ascii) (cur s : string) : list string :=
  match s with
  | EmptyString => [cur]
  | String c rest =>
      if Ascii.eqb c sep then cur :: split_from sep "" rest
      else split_from sep (cur ++ String c "") rest
  end.

Definition split (sep : ascii) (s : string) : list string :=
  split_from sep "" s.

(** [l[-1]] and [l[0]]. *)
Definition last_item {A} (l : list A) : result A :=
  match rev l with
  | [] => Raise IndexError
  | x :: _ => Ok x
  end.

Definition first_item {A} (l : list A) : result A :=
  match l with
  | [] => Raise IndexError
  | x :: _ => Ok x
  end.

(** [textwrap.indent(text, prefix)]: the prefix goes before every line
    that does not consist solely of whitespace. *)
Definition indent (text prefix : string) : string :=
  String.concat ""
    (map (fun line =>
            if Str.all_chars isspace line then line else prefix ++ line)
         (splitlines true text)).

End Text.

(* ================================================================== *)
(** * Reflected functions *)

(** A parameter of a reflected function: [parameter['name']],
    [parameter['type']], [parameter['size']], [parameter['io']]. *)
Record ParameterDesc : Type := mkParameter {
  p_name : string;
  p_type : string;
  p_size : Z;
  p_io : string
}.

(** A function descriptor: [function['name']], [function['type']],
    [function['parameters']]. *)
Record FunctionDesc : Type := mkFunction {
  f_name : string;
  f_type : string;
  f_parameters : list ParameterDesc
}.

(** [parameter['io'] in ['out','inout']]. *)
Definition io_is_out (p : ParameterDesc) : bool :=
  (p_io p =? "out") || (p_io p =? "inout").

(** [parameter['io'] in ['','in','inout']]. *)
Definition io_is_in (p : ParameterDesc) : bool :=
  (p_io p =? "") || (p_io p =? "in") || (p_io p =? "inout").

(** [parameters[i] = v]; the index is in range wherever the source writes. *)
Fixpoint list_set {A} (l : list A) (i : nat) (v : A) : list A :=
  match l, i with
  | [], _ => []
  | _ :: rest, O => v :: rest
  | x :: rest, S k => x :: list_set rest k v
  end.

(* ================================================================== *)
(** * The GLSL transpiler *)

Module GLSLTranspiler.

Definition asignment (name asignment : pystr) : string :=
  fstr name ++ " = " ++ fstr asignment ++ ";" ++ String "010" "".

Definition declaration (type : string) (size : Z) (name : pystr)
    (initialization : pystr) : string :=
  let array := if (size =? 0)%Z then "" else "[" ++ str_of_int size ++ "]" in
  let asignment :=
    if truthy initialization then " = " ++ fstr initialization else "" in
  type ++ " " ++ fstr name ++ array ++ asignment ++ ";" ++ String "010" "".

Definition global_reference (node_name parameter_name : string) : string :=
  "U_0" ++ node_name ++ "_0_" ++ parameter_name.

Definition global_declaration (type : string) (size : Z) (name : pystr)
    (initialization : pystr) : string :=
  "uniform " ++ declaration type size name initialization.

Definition parameter_reference (node_name parameter_name : string) : string :=
  node_name ++ "_0_" ++ parameter_name.

Definition io_parameter_reference (parameter_name : string) : string :=
  parameter_name.

Definition is_instantiable_type (type : string) : bool :=
  negb (Str.startswith type "sampler").

(** The loop of [call] over [enumerate(function['parameters'])]: the state
    is the source written so far and the argument list, which the loop
    updates in place. *)
Fixpoint call_loop (name : string) (ps : list ParameterDesc) (i : nat)
    (src : string) (parameters : list pystr) : result (string * list pystr) :=
  match ps with
  | [] => Ok (src, parameters)
  | parameter :: rest =>
      if io_is_out parameter then
        match nth_error parameters i with
        | None => Raise IndexError
        | Some initialization =>
            let src_reference := parameter_reference name (p_name parameter) in
            let src' :=
              src ++ declaration (p_type parameter) (p_size parameter)
                       (Some src_reference) initialization in
            call_loop name rest (S i) src'
              (list_set parameters i (Some src_reference))
        end
      else call_loop name rest (S i) src parameters
  end.

Definition call (function : FunctionDesc) (name : string)
    (parameters : list pystr) : result string :=
  rbind (call_loop name (f_parameters function) 0 "" parameters)
    (fun '(src, parameters) =>
  rbind (Str.join "," parameters) (fun args =>
    let initialization := f_name function ++ "(" ++ args ++ ")" in
    if negb (f_type function =? "void") && is_instantiable_type (f_type function)
    then Ok (src ++ declaration (f_type function) 0
                      (Some (parameter_reference name "result"))
                      (Some initialization))
    else Ok (src ++ initialization ++ ";" ++ String "010" ""))).

Definition result (result : pystr) : string :=
  "return " ++ fstr result ++ ";" ++ String "010" "".

Definition scoped (code : string) : string :=
  let code := Text.indent code (String "009" "") in
  "{" ++ String "010" "" ++ code ++ "}" ++ String "010" "".

End GLSLTranspiler.

(* ================================================================== *)
(** * The Python transpiler *)

Module PythonTranspiler.

Definition asignment (name asignment : pystr) : string :=
  fstr name ++ " = " ++ fstr asignment ++ String "010" "".

Definition declaration (type : string) (size : Z) (name : pystr)
    (initialization : pystr) : string :=
  let initialization :=
    match initialization with
    | None => Some "None"
    | Some _ => initialization
    end in
  asignment name initialization.

Definition global_reference (node_name parameter_name : string) : string :=
  "PARAMETERS[" ++ dq ++ node_name ++ dq ++ "][" ++ dq ++ parameter_name
    ++ dq ++ "]".

Definition global_declaration (type : string) (size : Z) (name : pystr)
    (initialization : pystr) : string := "".

Definition parameter_reference (node_name parameter_name : string) : string :=
  node_name ++ "_parameters[" ++ dq ++ parameter_name ++ dq ++ "]".

Definition io_parameter_reference (parameter_name : string) : string :=
  "IO[" ++ dq ++ parameter_name ++ dq ++ "]".

(** Inherited from [SourceTranspiler]. *)
Definition is_instantiable_type (type : string) : bool := true.

Fixpoint call_loop (name : string) (ps : list ParameterDesc) (i : nat)
    (src : string) (parameters : list pystr) : result string :=
  match ps with
  | [] => Ok src
  | parameter :: rest =>
      match nth_error parameters i with
      | None => Raise IndexError
      | Some initialization =>
          let initialization :=
            match initialization with
            | None => "None"
            | Some e => e
            end in
          let parameter_reference :=
            parameter_reference name (p_name parameter) in
          call_loop name rest (S i)
            (src ++ parameter_reference ++ " = " ++ initialization
                 ++ String "010" "")
            parameters
      end
  end.

Definition call (function : FunctionDesc) (name : string)
    (parameters : list pystr) : result string :=
  let src := name ++ "_parameters = {}" ++ String "010" "" in
  rbind (call_loop name (f_parameters function) 0 src parameters) (fun src =>
  Ok (src ++ "run_node(" ++ dq ++ name ++ dq ++ ", " ++ dq ++ f_name function
          ++ dq ++ ", " ++ name ++ "_parameters)" ++ String "010" "")).

Definition result (result : pystr) : string :=
  "return " ++ fstr result ++ String "010" "".

Definition scoped (code : string) : string :=
  let code := Text.indent code (String "009" "") in
  "if True:" ++ String "010" "" ++ code.

End PythonTranspiler.

(** The capability interface of [SourceTranspiler], as the node classes
    use it. *)
Record Transpiler : Type := mkTranspiler {
  asignment : pystr -> pystr -> string;
  declaration : string -> Z -> pystr -> pystr -> string;
  global_reference : string -> string -> string;
  global_declaration : string -> Z -> pystr -> pystr -> string;
  parameter_reference : string -> string -> string;
  io_parameter_reference : string -> string;
  is_instantiable_type : string -> bool;
  call : FunctionDesc -> string -> list pystr -> result string;
  result_ : pystr -> string;
  scoped : string -> string
}.

Definition GLSL : Transpiler :=
  mkTranspiler GLSLTranspiler.asignment GLSLTranspiler.declaration
    GLSLTranspiler.global_reference GLSLTranspiler.global_declaration
    GLSLTranspiler.parameter_reference GLSLTranspiler.io_parameter_reference
    GLSLTranspiler.is_instantiable_type GLSLTranspiler.call
    GLSLTranspiler.result GLSLTranspiler.scoped.

Definition Python : Transpiler :=
  mkTranspiler PythonTranspiler.asignment PythonTranspiler.declaration
    PythonTranspiler.global_reference PythonTranspiler.global_declaration
    PythonTranspiler.parameter_reference
    PythonTranspiler.io_parameter_reference
    PythonTranspiler.is_instantiable_type PythonTranspiler.call
    PythonTranspiler.result PythonTranspiler.scoped.

(* ================================================================== *)
(** * Node trees *)

(** Nodes, sockets and links are Python objects: the tree holds them in a
    store and the rest of the program passes references around. *)
Definition node_ref := nat.
Definition socket_ref := nat.

Inductive NodeKind : Type :=
| MaltStructNode (struct_type : string)
| MaltFunctionNode (function_type : string)
| MaltIONode (io_type : string) (is_output : bool)
| MaltInlineNode (code : string)
| MaltArrayIndexNode
| NodeReroute.

Record Node : Type := mkNode {
  n_name : string;
  n_kind : NodeKind;
  n_inputs : list socket_ref;
  n_outputs : list socket_ref
}.

(** A socket.  The sockets of the Malt nodes are [MaltSocket]s and carry
    [data_type] and [array_size]; the sockets of a reroute node are plain
    node sockets, on which these two attributes do not exist. *)
Record Socket : Type := mkSocket {
  s_node : node_ref;
  s_name : string;
  s_is_output : bool;
  s_data_type : string;
  s_array_size : Z
}.

Record Link : Type := mkLink {
  from_socket : socket_ref;
  to_socket : socket_ref
}.

(** A node tree together with what it reads from its pipeline graph and
    its library: the language, the path of the library, the reflected
    functions by name (those of the graph first, then those of the
    library) and the graph IO signatures by name.  [node_at] and
    [socket_at] are the store: every reference leads to an object. *)
Record Tree : Type := mkTree {
  t_nodes : list node_ref;
  node_at : node_ref -> Node;
  socket_at : socket_ref -> Socket;
  t_links : list Link;
  t_language : string;
  t_library_path : option string;
  t_functions : string -> option FunctionDesc;
  t_graph_IO : string -> option FunctionDesc
}.

Definition is_reroute (n : Node) : bool :=
  match n_kind n with
  | NodeReroute => true
  | _ => false
  end.

(** [isinstance(node, MaltNode)]. *)
Definition is_malt_node (n : Node) : bool := negb (is_reroute n).

(** [isinstance(node, MaltIONode) and node.is_output]. *)
Definition is_output_node (n : Node) : bool :=
  match n_kind n with
  | MaltIONode _ true => true
  | _ => false
  end.

Definition get_transpiler (t : Tree) : option Transpiler :=
  if t_language t =? "GLSL" then Some GLSL
  else if t_language t =? "Python" then Some Python
  else None.

(** [socket.links]: the links of the tree that start or end at the socket,
    in the order of the tree. *)
Definition socket_links (t : Tree) (socket : socket_ref) : list Link :=
  filter (fun link => Nat.eqb (from_socket link) socket
                      || Nat.eqb (to_socket link) socket) (t_links t).

(** [collection[name]] on the sockets of a node: [KeyError] when no socket
    has the name. *)
Fixpoint socket_named (t : Tree) (sockets : list socket_ref) (name : string)
    : result socket_ref :=
  match sockets with
  | [] => Raise KeyError
  | s :: rest =>
      if s_name (socket_at t s) =? name then Ok s
      else socket_named t rest name
  end.

(* ================================================================== *)
(** * MaltNode.get_source_name *)

Definition get_source_name (name : string) : string :=
  let name := Str.replace "." "_" name in
  let name :=
    "_" ++ Str.filter_chars
             (fun char => Str.isalnum char || Ascii.eqb char "_") name in
  Str.replace "__" "_" name.

(** ** Identifiers of the generated text

    What the lexical rules of GLSL accept as an identifier: an ASCII
    letter or an underscore, followed by ASCII letters, digits and
    underscores. *)
Definition is_ascii (c : ascii) : bool := Nat.ltb (nat_of_ascii c) 128.

Definition is_ascii_letter (c : ascii) : bool :=
  let n := nat_of_ascii c in
  (Nat.leb 65 n && Nat.leb n 90) || (Nat.leb 97 n && Nat.leb n 122).

Definition is_ascii_digit (c : ascii) : bool :=
  let n := nat_of_ascii c in
  Nat.leb 48 n && Nat.leb n 57.

Definition identifier_char (c : ascii) : bool :=
  is_ascii_letter c || is_ascii_digit c || Ascii.eqb c "_".

Definition glsl_identifier (s : string) : bool :=
  match s with
  | EmptyString => false
  | String c rest =>
      (is_ascii_letter c || Ascii.eqb c "_")
      && Str.all_chars identifier_char rest
  end.

(** The claim that every display name gives an identifier of the target
    language. *)
Definition always_identifier : Prop :=
  forall name, glsl_identifier (get_source_name name) = true.

(** ** Two readings of one reference

    The separator [_0_] of a reference can be read at a second place in
    two ways: the second node name is the first one followed by [_0_] and
    a text [d], and the first socket name is [d], [_0_] and the second
    socket name; or the second node name is the first one followed by
    [_0], and the first socket name is [0_] and the second socket name. *)
Definition separator_ambiguous (m1 s1 m2 s2 : string) : Prop :=
  (exists d, m2 = m1 ++ "_0_" ++ d /\ s1 = d ++ "_0_" ++ s2)
  \/ (m2 = m1 ++ "_0" /\ s1 = "0_" ++ s2).

(** Two pairs of a sanitized node name and a socket name that one
    reference stands for. *)
Definition same_reading (m1 s1 m2 s2 : string) : Prop :=
  (m1 = m2 /\ s1 = s2)
  \/ separator_ambiguous m1 s1 m2 s2
  \/ separator_ambiguous m2 s2 m1 s1.

(** A socket name in which the separator cannot be read: it holds no
    [_0_] and does not start with [0_]. *)
Definition plain_socket_name (s : string) : bool :=
  negb (Str.contains "_0_" s) && negb (Str.startswith s "0_").

(* ================================================================== *)
(** * MaltSocket.get_linked *)

(** One round of [get_linked_internal]: the socket is unlinked, or its
    link ends at a real socket, or the link ends at a reroute node and the
    search goes on from the first socket on the other side of that node. *)
Inductive Hop : Type :=
| Unlinked
| Found (linked : socket_ref)
| Through (next : socket_ref).

Definition get_linked_hop (t : Tree) (socket : socket_ref) : Hop :=
  match socket_links t socket with
  | [] => Unlinked
  | link :: _ =>
      let linked :=
        if s_is_output (socket_at t socket) then to_socket link
        else from_socket link in
      let linked_node := node_at t (s_node (socket_at t linked)) in
      if is_reroute linked_node then
        let sockets :=
          if s_is_output (socket_at t linked) then n_inputs linked_node
          else n_outputs linked_node in
        match sockets with
        | [] => Unlinked
        | first :: _ => Through first
        end
      else Found linked
  end.

(** [get_linked_internal]: [Some None] is the Python [None], [Some (Some s)]
    a socket, and [None] means that [fuel] nested calls were not enough. *)
Fixpoint get_linked_internal (fuel : nat) (t : Tree) (socket : socket_ref)
    : option (option socket_ref) :=
  match fuel with
  | O => None
  | S fuel' =>
      match get_linked_hop t socket with
      | Unlinked => Some None
      | Found linked => Some (Some linked)
      | Through next => get_linked_internal fuel' t next
      end
  end.

Definition get_linked (fuel : nat) (t : Tree) (socket : socket_ref)
    : option (option socket_ref) :=
  get_linked_internal fuel t socket.

(** [next] is the socket of the nested call that [get_linked_internal]
    makes on [socket]. *)
Definition passes_through (t : Tree) (next socket : socket_ref) : Prop :=
  get_linked_hop t socket = Through next.

(** What [get_linked] may return: [None], or a socket of a node that is
    not a reroute node. *)
Definition real_or_unlinked (t : Tree) (r : option socket_ref) : Prop :=
  match r with
  | None => True
  | Some linked => is_reroute (node_at t (s_node (socket_at t linked))) = false
  end.

(* ================================================================== *)
(** * Emission: sockets and nodes *)

(** A computation that may raise and whose nested calls are bounded by the
    fuel: [None] when the fuel ran out. *)
Definition M (A : Type) : Type := option (result A).

Definition ret {A} (a : A) : M A := Some (Ok a).
Definition raise {A} (e : exn) : M A := Some (Raise e).
Definition lift {A} (r : result A) : M A := Some r.
Definition lift_fuel {A} (o : option A) : M A := option_map Ok o.

Definition bind {A B} (m : M A) (k : A -> M B) : M B :=
  match m with
  | None => None
  | Some (Raise e) => Some (Raise e)
  | Some (Ok a) => k a
  end.

Notation "x <- m ;; k" := (bind m (fun x => k))
  (at level 61, m at next level, right associativity).

(** The transpiler handed to a node is [None] when the language of the
    tree has none; the first attribute access on it raises. *)
Definition use (transpiler : option Transpiler) : M Transpiler :=
  match transpiler with
  | Some transpiler => ret transpiler
  | None => raise AttributeError
  end.

(** [code = ''; for x in xs: code += f(x)]. *)
Fixpoint for_code {A} (f : A -> M string) (xs : list A) : M string :=
  match xs with
  | [] => ret ""
  | x :: rest =>
      c <- f x ;;
      cs <- for_code f rest ;;
      ret (c ++ cs)
  end.

(** [MaltSocket.is_instantiable_type]. *)
Definition socket_is_instantiable_type (t : Tree) (socket : socket_ref) : bool :=
  negb (Str.startswith (s_data_type (socket_at t socket)) "sampler").

(** [node.get_source_name()] for the node of a socket or a node reference. *)
Definition source_name (t : Tree) (node : node_ref) : string :=
  get_source_name (n_name (node_at t node)).

(** [MaltSocket.get_source_global_reference]; a tree without transpiler
    has [None] there, and the attribute access raises. *)
Definition get_source_global_reference (t : Tree) (socket : socket_ref)
    : result string :=
  match get_transpiler t with
  | None => Raise AttributeError
  | Some transpiler =>
      let s := socket_at t socket in
      Ok (global_reference transpiler (source_name t (s_node s)) (s_name s))
  end.

(** [MaltSocket.get_source_reference], the [get_source_socket_reference]
    of the node classes, and [MaltFunctionNode.get_source_code], which the
    reference of a function node's opaque output needs.  In the first
    branch of [get_source_reference] the source evaluates the reference of
    the linked socket and drops it: the method ends without [return], so
    its value is [None]. *)
Fixpoint get_source_reference (fuel : nat) (t : Tree) (socket : socket_ref)
    {struct fuel} : M pystr :=
  match fuel with
  | O => None
  | S fuel' =>
      let s := socket_at t socket in
      if negb (socket_is_instantiable_type t socket) && negb (s_is_output s)
      then
        linked <- lift_fuel (get_linked fuel' t socket) ;;
        match linked with
        | Some linked =>
            _ <- get_source_reference fuel' t linked ;;
            ret None
        | None => get_source_socket_reference fuel' t (s_node s) socket
        end
      else get_source_socket_reference fuel' t (s_node s) socket
  end

with get_source_socket_reference (fuel : nat) (t : Tree) (node : node_ref)
    (socket : socket_ref) {struct fuel} : M pystr :=
  match fuel with
  | O => None
  | S fuel' =>
      let s := socket_at t socket in
      match n_kind (node_at t node) with
      | MaltStructNode struct_type =>
          if s_name s =? struct_type then ret (Some (source_name t node))
          else ret (Some (source_name t node ++ "." ++ s_name s))
      | MaltFunctionNode _ =>
          match get_transpiler t with
          | None => raise AttributeError
          | Some transpiler =>
              if is_instantiable_type transpiler (s_data_type s) then
                ret (Some (parameter_reference transpiler (source_name t node)
                             (s_name s)))
              else
                source <- function_get_source_code fuel' t node (Some transpiler) ;;
                line <- lift (Text.last_item (Text.splitlines false source)) ;;
                rhs <- lift (Text.last_item (Text.split "=" line)) ;;
                expr <- lift (Text.first_item (Text.split ";" rhs)) ;;
                ret (Some expr)
          end
      | MaltIONode _ _ =>
          match get_transpiler t with
          | None => raise AttributeError
          | Some transpiler =>
              ret (Some (io_parameter_reference transpiler (s_name s)))
          end
      | MaltInlineNode _ | MaltArrayIndexNode =>
          ret (Some (source_name t node ++ "_0_" ++ s_name s))
      | NodeReroute => raise AttributeError
      end
  end

with function_get_source_code (fuel : nat) (t : Tree) (node : node_ref)
    (transpiler : option Transpiler) {struct fuel} : M string :=
  match fuel with
  | O => None
  | S fuel' =>
      let n := node_at t node in
      match n_kind n with
      | MaltFunctionNode function_type =>
          match t_functions t function_type with
          | None => raise KeyError
          | Some function =>
              parameters <-
                (fix loop (ps : list ParameterDesc) : M (list pystr) :=
                   match ps with
                   | [] => ret []
                   | parameter :: rest =>
                       initialization <-
                         (if io_is_in parameter then
                            socket <- lift (socket_named t (n_inputs n)
                                              (p_name parameter)) ;;
                            linked <- lift_fuel (get_linked fuel' t socket) ;;
                            match linked with
                            | Some linked => get_source_reference fuel' t linked
                            | None =>
                                r <- lift (get_source_global_reference t socket) ;;
                                ret (Some r)
                            end
                          else ret None) ;;
                       parameters <- loop rest ;;
                       ret (initialization :: parameters)
                   end) (f_parameters function) ;;
              transpiler <- use transpiler ;;
              lift (call transpiler function (source_name t node) parameters)
          end
      | _ => raise AttributeError
      end
  end.

(** The value of [socket.get_source_global_reference()], replaced by the
    reference of the linked socket when [socket.get_linked()] is there:
    the initialization pattern shared by the node classes. *)
Definition linked_or_global (fuel : nat) (t : Tree) (socket : socket_ref)
    : M pystr :=
  initialization <- lift (get_source_global_reference t socket) ;;
  linked <- lift_fuel (get_linked fuel t socket) ;;
  match linked with
  | Some linked => get_source_reference fuel t linked
  | None => ret (Some initialization)
  end.

(** ** MaltStructNode *)

Definition struct_input_is_linked (fuel : nat) (t : Tree) (node : node_ref)
    (struct_type : string) : M bool :=
  socket <- lift (socket_named t (n_inputs (node_at t node)) struct_type) ;;
  linked <- lift_fuel (get_linked fuel t socket) ;;
  ret (match linked with Some _ => true | None => false end).

Definition struct_get_source_code (fuel : nat) (t : Tree) (node : node_ref)
    (struct_type : string) (transpiler : option Transpiler) : M string :=
  let n := node_at t node in
  let node_name := source_name t node in
  struct_linked <- struct_input_is_linked fuel t node struct_type ;;
  initialization <-
    (if struct_linked then
       socket <- lift (socket_named t (n_inputs n) struct_type) ;;
       linked <- lift_fuel (get_linked fuel t socket) ;;
       match linked with
       | Some linked => get_source_reference fuel t linked
       | None => raise AttributeError
       end
     else ret None) ;;
  tr <- use transpiler ;;
  let code := declaration tr struct_type 0 (Some node_name) initialization in
  members <-
    for_code (fun input =>
      if negb (s_data_type (socket_at t input) =? struct_type) then
        linked <- lift_fuel (get_linked fuel t input) ;;
        match linked, struct_linked with
        | None, true => ret ""
        | _, _ =>
            initialization <- lift (get_source_global_reference t input) ;;
            initialization <-
              match linked with
              | Some linked => get_source_reference fuel t linked
              | None => ret (Some initialization)
              end ;;
            reference <- get_source_reference fuel t input ;;
            ret (asignment tr reference initialization)
        end
      else ret "") (n_inputs n) ;;
  ret (code ++ members).

(** ** MaltIONode *)

(** The loop of [MaltIONode.get_source_code] over [self.inputs].  [last]
    is the value of the loop variable [socket], which Python keeps after
    the loop; it is unset as long as the loop has not run. *)
Fixpoint io_loop (fuel : nat) (t : Tree) (transpiler : option Transpiler)
    (sockets : list socket_ref) (code : string) (last : option socket_ref)
    : M (string * option socket_ref) :=
  match sockets with
  | [] => ret (code, last)
  | socket :: rest =>
      if s_name (socket_at t socket) =? "result" then
        io_loop fuel t transpiler rest code (Some socket)
      else
        initialization <- linked_or_global fuel t socket ;;
        tr <- use transpiler ;;
        reference <- get_source_reference fuel t socket ;;
        io_loop fuel t transpiler rest
          (code ++ asignment tr reference initialization) (Some socket)
  end.

Definition io_get_source_code (fuel : nat) (t : Tree) (node : node_ref)
    (io_type : string) (is_output : bool) (transpiler : option Transpiler)
    : M string :=
  let n := node_at t node in
  if is_output then
    match t_graph_IO t io_type with
    | None => raise KeyError
    | Some function =>
        st <- io_loop fuel t transpiler (n_inputs n) "" None ;;
        let '(code, socket) := st in
        if negb (f_type function =? "void") then
          match socket with
          | None => raise UnboundLocalError
          | Some socket =>
              result <- lift (get_source_global_reference t socket) ;;
              result_socket <- lift (socket_named t (n_inputs n) "result") ;;
              linked <- lift_fuel (get_linked fuel t result_socket) ;;
              result <-
                match linked with
                | Some linked => get_source_reference fuel t linked
                | None => ret (Some result)
                end ;;
              tr <- use transpiler ;;
              ret (code ++ result_ tr result)
          end
        else ret code
    end
  else ret "".

(** ** MaltInlineNode *)

Definition inline_get_source_code (fuel : nat) (t : Tree) (node : node_ref)
    (code_text : string) (transpiler : option Transpiler) : M string :=
  let n := node_at t node in
  result_socket <- lift (socket_named t (n_outputs n) "result") ;;
  tr <- use transpiler ;;
  reference <- get_source_reference fuel t result_socket ;;
  let code :=
    declaration tr (s_data_type (socket_at t result_socket))
      (s_array_size (socket_at t result_socket)) reference None in
  scoped_code <-
    for_code (fun input =>
      let s := socket_at t input in
      if negb (s_data_type s =? "") then
        initialization <- linked_or_global fuel t input ;;
        ret (declaration tr (s_data_type s) (s_array_size s)
               (Some (s_name s)) initialization)
      else ret "") (n_inputs n) ;;
  scoped_code <-
    (if negb (code_text =? "") then
       result_socket <- lift (socket_named t (n_outputs n) "result") ;;
       reference <- get_source_reference fuel t result_socket ;;
       ret (scoped_code ++ asignment tr reference (Some code_text))
     else ret scoped_code) ;;
  ret (code ++ scoped tr scoped_code).

(** ** MaltArrayIndexNode *)

Definition array_index_get_source_code (fuel : nat) (t : Tree)
    (node : node_ref) (transpiler : option Transpiler) : M string :=
  let n := node_at t node in
  array <- lift (socket_named t (n_inputs n) "array") ;;
  index <- lift (socket_named t (n_inputs n) "index") ;;
  element <- lift (socket_named t (n_outputs n) "element") ;;
  element_reference <- linked_or_global fuel t index ;;
  array_linked <- lift_fuel (get_linked fuel t array) ;;
  match array_linked with
  | None => raise AttributeError
  | Some linked =>
      array_reference <- get_source_reference fuel t linked ;;
      let initialization :=
        fstr array_reference ++ "[" ++ fstr element_reference ++ "]" in
      tr <- use transpiler ;;
      reference <- get_source_reference fuel t element ;;
      ret (declaration tr (s_data_type (socket_at t element))
             (s_array_size (socket_at t element)) reference
             (Some initialization))
  end.

(** ** Dispatch on the class of the node *)

(** [node.get_source_code(transpiler)] for a [MaltNode]. *)
Definition get_source_code (fuel : nat) (t : Tree)
    (transpiler : option Transpiler) (node : node_ref) : M string :=
  match n_kind (node_at t node) with
  | MaltStructNode struct_type =>
      struct_get_source_code fuel t node struct_type transpiler
  | MaltFunctionNode _ => function_get_source_code fuel t node transpiler
  | MaltIONode io_type is_output =>
      io_get_source_code fuel t node io_type is_output transpiler
  | MaltInlineNode code => inline_get_source_code fuel t node code transpiler
  | MaltArrayIndexNode => array_index_get_source_code fuel t node transpiler
  | NodeReroute => raise AttributeError
  end.

(** [MaltNode.sockets_to_global_parameters]. *)
Definition sockets_to_global_parameters (fuel : nat) (t : Tree)
    (sockets : list socket_ref) (transpiler : option Transpiler) : M string :=
  for_code (fun socket =>
    let s := socket_at t socket in
    if negb (s_data_type s =? "") then
      linked <- lift_fuel (get_linked fuel t socket) ;;
      match linked with
      | None =>
          tr <- use transpiler ;;
          reference <- lift (get_source_global_reference t socket) ;;
          ret (global_declaration tr (s_data_type s) (s_array_size s)
                 (Some reference) None)
      | Some _ => ret ""
      end
    else ret "") sockets.

(** [node.get_source_global_parameters(transpiler)] for a [MaltNode]. *)
Definition get_source_global_parameters (fuel : nat) (t : Tree)
    (transpiler : option Transpiler) (node : node_ref) : M string :=
  let n := node_at t node in
  match n_kind n with
  | MaltStructNode struct_type =>
      struct_linked <- struct_input_is_linked fuel t node struct_type ;;
      if struct_linked then ret ""
      else
        sockets_to_global_parameters fuel t
          (filter (fun s => negb (s_data_type (socket_at t s) =? struct_type))
             (n_inputs n)) transpiler
  | NodeReroute => raise AttributeError
  | _ => sockets_to_global_parameters fuel t (n_inputs n) transpiler
  end.

(** ** MaltArrayIndexNode.malt_update and MaltNode.setup_sockets *)

(** A socket schema, [name -> (type, size)]: a dict in insertion order. *)
Definition Schema : Type := list (string * (string * Z)).

(** [d[k] = v]. *)
Fixpoint dict_set {V} (d : list (string * V)) (k : string) (v : V)
    : list (string * V) :=
  match d with
  | [] => [(k, v)]
  | (k', v') :: rest =>
      if k' =? k then (k, v) :: rest else (k', v') :: dict_set rest k v
  end.

(** [d.get(k)]. *)
Fixpoint dict_get {V} (d : list (string * V)) (k : string) : option V :=
  match d with
  | [] => None
  | (k', v) :: rest => if k' =? k then Some v else dict_get rest k
  end.

(** The two schemas that [MaltArrayIndexNode.malt_update] hands to
    [setup_sockets]. *)
Definition array_index_malt_update (fuel : nat) (t : Tree) (node : node_ref)
    : M (Schema * Schema) :=
  let inputs : Schema := [("array", ("", 1%Z)); ("index", ("int", 0%Z))] in
  let outputs : Schema := [("element", ("", 0%Z))] in
  array <- lift (socket_named t (n_inputs (node_at t node)) "array") ;;
  linked <- lift_fuel (get_linked fuel t array) ;;
  match linked with
  | Some linked =>
      let l := socket_at t linked in
      if (0 <? s_array_size l)%Z then
        ret (dict_set inputs "array" (s_data_type l, s_array_size l),
             dict_set outputs "element" (s_data_type l, 0%Z))
      else ret (inputs, outputs)
  | None => ret (inputs, outputs)
  end.

(** ** MaltNode.setup_sockets: the local [setup(current, new)]

    [current] is a Blender collection of sockets.  A socket is given
    here by its name, its [data_type] and its [array_size], in the order
    of the collection; two sockets may have the same name.  What the
    collection does is Blender's:
    - a socket keeps at most 63 bytes of the name it is created with, in
      whole characters of UTF-8 (a code point below 128 is one byte, the
      others below 256 are two);
    - [array_size] is an [IntProperty]: a value outside the 32-bit
      integers is refused with a [ValueError];
    - [current[name]] is the first socket of that name, and a
      [KeyError] when there is none; [name in current] asks the same;
    - removing a socket that the collection no longer has is an error
      ([RuntimeError]);
    - a new [MaltSocket] has the empty [data_type] and [array_size] 0.
    Writing one of the two properties calls [on_socket_update] of the
    node, which is empty for all node classes but the inline node; there
    it calls the two [update]s, which return at their guards, since
    [setup_sockets] runs under the updates-disabled flags. *)
Definition Sockets : Type := list (string * (string * Z)).

(** The type of a schema entry is a type name or a [Parameter] object,
    of which [setup] takes [type_string()]. *)
Inductive SchemaType : Type :=
| TypeName (name : string)
| TypeParameter (type_string : string).

(** The dict [new]: [name -> (type, size)], in insertion order. *)
Definition SetupSchema : Type := list (string * (SchemaType * Z)).

(** A schema of plain type names as a dict for [setup]. *)
Definition plain_schema (schema : Schema) : SetupSchema :=
  map (fun e => (fst e, (TypeName (fst (snd e)), snd (snd e)))) schema.

Definition utf8_size (c : ascii) : nat :=
  if Nat.ltb (nat_of_ascii c) 128 then 1 else 2.

(** The longest prefix of whole characters that fits into [room] bytes. *)
Fixpoint truncate_name (room : nat) (name : string) : string :=
  match name with
  | EmptyString => EmptyString
  | String c rest =>
      if Nat.leb (utf8_size c) room
      then String c (truncate_name (room - utf8_size c) rest)
      else EmptyString
  end.

(** The name that a socket created with [name] has. *)
Definition socket_name (name : string) : string := truncate_name 63 name.

(** The values that an [IntProperty] takes. *)
Definition int_in_range (z : Z) : bool :=
  ((-2147483648 <=? z) && (z <=? 2147483647))%Z.

(** [name in current] for a collection, [name in new] for a dict. *)
Definition has_key {V} (d : list (string * V)) (name : string) : bool :=
  existsb (fun e => fst e =? name) d.

(** [current.remove(current[name])]: the first socket of the name goes. *)
Fixpoint remove_first (name : string) (current : Sockets) : Sockets :=
  match current with
  | [] => []
  | e :: rest =>
      if fst e =? name then rest else e :: remove_first name rest
  end.

(** [current[name].data_type, current[name].array_size = ...]: [f]
    changes the first socket of the name. *)
Fixpoint update_first (name : string) (f : string * Z -> string * Z)
    (current : Sockets) : Sockets :=
  match current with
  | [] => []
  | e :: rest =>
      if fst e =? name then (fst e, f (snd e)) :: rest
      else e :: update_first name f rest
  end.

(** The loop [for e in remove: current.remove(e)].  The list [remove]
    holds [current[e]] for every key [e] of [current] that [new] lacks,
    the first socket of that name; it is given here by these names.  A
    name that comes a second time stands for a socket that is removed
    already ([removed] are the names seen so far). *)
Fixpoint remove_loop (remove removed : list string) (current : Sockets)
    : result unit * Sockets :=
  match remove with
  | [] => (Ok tt, current)
  | e :: rest =>
      if existsb (String.eqb e) removed then (Raise RuntimeError, current)
      else remove_loop rest (e :: removed) (remove_first e current)
  end.

(** The loop [for name, (type, size) in new.items()]. *)
Fixpoint setup_loop (new : SetupSchema) (current : Sockets)
    : result unit * Sockets :=
  match new with
  | [] => (Ok tt, current)
  | (name, (type, size)) :: rest =>
      let current :=
        if has_key current name then current
        else (current ++ [(socket_name name, ("", 0%Z))])%list in
      if has_key current name then
        match type with
        | TypeParameter type_string =>
            setup_loop rest
              (update_first name (fun _ => (type_string, 0%Z)) current)
        | TypeName type =>
            let current :=
              update_first name (fun s => (type, snd s)) current in
            if int_in_range size then
              setup_loop rest
                (update_first name (fun s => (fst s, size)) current)
            else (Raise ValueError, current)
        end
      else (Raise KeyError, current)
  end.

(** [setup(current, new)]: the outcome, and the collection as the call
    leaves it. *)
Definition setup (current : Sockets) (new : SetupSchema)
    : result unit * Sockets :=
  let remove :=
    filter (fun e => negb (has_key new e)) (map fst current) in
  match remove_loop remove [] current with
  | (Ok _, current) => setup_loop new current
  | (Raise e, current) => (Raise e, current)
  end.

(** The data type and the array size that [setup] writes for each entry
    of the dict. *)
Definition resolved (new : SetupSchema) : Schema :=
  map (fun e =>
         (fst e,
          match fst (snd e) with
          | TypeName type => (type, snd (snd e))
          | TypeParameter type_string => (type_string, 0%Z)
          end)) new.

(** The collection that a schema describes: the sockets of [current]
    that the schema names, in their old order and with the types and
    sizes of the schema, and after them the sockets that the schema adds,
    in the order of the schema. *)
Definition schema_applied (current : Sockets) (new : Schema) : Sockets :=
  let kept :=
    filter (fun e => match dict_get new (fst e) with
                     | Some _ => true
                     | None => false
                     end) current in
  fold_left (fun current e => dict_set current (fst e) (snd e)) new kept.

(** The schemas that [setup] takes without raising: every name fits
    into a socket name, and every size is a 32-bit integer. *)
Definition setup_accepts (new : SetupSchema) : bool :=
  forallb (fun e =>
             (socket_name (fst e) =? fst e)
             && match fst (snd e) with
                | TypeName _ => int_in_range (snd (snd e))
                | TypeParameter _ => true
                end) new.

(* ================================================================== *)
(** * MaltTree.get_generated_source *)

(** [node in list]. *)
Definition mem (node : node_ref) (l : list node_ref) : bool :=
  existsb (Nat.eqb node) l.

(** The loop [for input in node.inputs] of [add_node_inputs]; [nested] is
    the nested call of [add_node_inputs], and the closure variable
    [linked_nodes] is threaded along with [list].  [input.is_linked]
    holds when [input.links] is not empty, and [links[0]] is then its
    first link. *)
Fixpoint inputs_loop
    (nested : node_ref -> list node_ref -> list node_ref
              -> option (list node_ref * list node_ref))
    (t : Tree) (inputs : list socket_ref) (list_ linked_nodes : list node_ref)
    : option (list node_ref * list node_ref) :=
  match inputs with
  | [] => Some (list_, linked_nodes)
  | input :: rest =>
      match socket_links t input with
      | [] => inputs_loop nested t rest list_ linked_nodes
      | link :: _ =>
          let new_node := s_node (socket_at t (from_socket link)) in
          match
            (if mem new_node list_ then Some (list_, linked_nodes)
             else
               match nested new_node list_ linked_nodes with
               | Some (list_, linked_nodes) =>
                   Some ((list_ ++ [new_node])%list, linked_nodes)
               | None => None
               end)
          with
          | Some (list_, linked_nodes) =>
              inputs_loop nested t rest list_
                (if mem new_node linked_nodes then linked_nodes
                 else (linked_nodes ++ [new_node])%list)
          | None => None
          end
      end
  end.

(** [add_node_inputs(node, list)]. *)
Fixpoint add_node_inputs (fuel : nat) (t : Tree) (node : node_ref)
    (list_ linked_nodes : list node_ref) {struct fuel}
    : option (list node_ref * list node_ref) :=
  match fuel with
  | O => None
  | S fuel' =>
      inputs_loop (add_node_inputs fuel' t) t (n_inputs (node_at t node))
        list_ linked_nodes
  end.

(** [output.io_type]. *)
Definition io_type_of (n : Node) : string :=
  match n_kind n with
  | MaltIONode io_type _ => io_type
  | _ => ""
  end.

(** The code of the nodes of one output, each followed by a line feed. *)
Definition nodes_code (fuel : nat) (t : Tree) (transpiler : option Transpiler)
    (nodes : list node_ref) : M string :=
  for_code (fun node =>
    if is_malt_node (node_at t node) then
      code <- get_source_code fuel t transpiler node ;;
      ret (code ++ String "010" "")
    else ret "") nodes.

(** The local [get_source(output)]; it returns the code and the new value
    of [linked_nodes]. *)
Definition get_source (fuel : nat) (t : Tree) (transpiler : option Transpiler)
    (output : node_ref) (linked_nodes : list node_ref)
    : M (string * list node_ref) :=
  st <- lift_fuel (add_node_inputs fuel t output [] linked_nodes) ;;
  let '(nodes, linked_nodes) := st in
  code <- nodes_code fuel t transpiler nodes ;;
  out <- get_source_code fuel t transpiler output ;;
  ret (code ++ out, linked_nodes).

(** [for output in output_nodes: shader[output.io_type] = get_source(output)]. *)
Fixpoint sources_loop (fuel : nat) (t : Tree) (transpiler : option Transpiler)
    (output_nodes : list node_ref) (shader : list (string * string))
    (linked_nodes : list node_ref)
    : M (list (string * string) * list node_ref) :=
  match output_nodes with
  | [] => ret (shader, linked_nodes)
  | output :: rest =>
      r <- get_source fuel t transpiler output linked_nodes ;;
      let '(code, linked_nodes) := r in
      sources_loop fuel t transpiler rest
        (dict_set shader (io_type_of (node_at t output)) code) linked_nodes
  end.

(** The global parameters of the nodes in [linked_nodes]. *)
Definition globals_code (fuel : nat) (t : Tree)
    (transpiler : option Transpiler) (linked_nodes : list node_ref) : M string :=
  for_code (fun node =>
    if is_malt_node (node_at t node) then
      get_source_global_parameters fuel t transpiler node
    else ret "") linked_nodes.

Definition include_line (t : Tree) : string :=
  match t_library_path t with
  | Some library_path =>
      "#include " ++ dq ++ library_path ++ dq ++ String "010" ""
  | None => ""
  end.

Definition output_nodes_of (t : Tree) : list node_ref :=
  filter (fun node => is_output_node (node_at t node)) (t_nodes t).

(** [MaltTree.get_generated_source], for a tree that has its pipeline
    graph; the result is the [shader] dict handed to
    [pipeline_graph.generate_source]. *)
Definition get_generated_source (fuel : nat) (t : Tree)
    : M (list (string * string)) :=
  let output_nodes := output_nodes_of t in
  let transpiler := get_transpiler t in
  st <- sources_loop fuel t transpiler output_nodes [] output_nodes ;;
  let '(shader, linked_nodes) := st in
  globals <- globals_code fuel t transpiler linked_nodes ;;
  ret (dict_set shader "GLOBAL" (include_line t ++ globals)).

(** [new_node] is the node that [add_node_inputs(node, _)] looks at for
    one of the inputs of [node]. *)
Definition feeds (t : Tree) (new_node node : node_ref) : Prop :=
  exists input link rest,
    In input (n_inputs (node_at t node))
    /\ socket_links t input = link :: rest
    /\ new_node = s_node (socket_at t (from_socket link)).

(** [n] is upstream of [node]: reachable through linked inputs. *)
Inductive upstream (t : Tree) : node_ref -> node_ref -> Prop :=
| upstream_feeds n node : feeds t n node -> upstream t n node
| upstream_step n m node :
    upstream t n m -> feeds t m node -> upstream t n node.

(** The nodes that the compiler looks at: the exit nodes and the nodes
    upstream of them. *)
Definition compiled (t : Tree) (node : node_ref) : Prop :=
  In node (output_nodes_of t)
  \/ exists o, In o (output_nodes_of t) /\ upstream t node o.

(** The node emits: its source code and its global parameters are
    texts. *)
Definition emits (fuel : nat) (t : Tree) (node : node_ref) : Prop :=
  exists code globals,
    get_source_code fuel t (get_transpiler t) node = Some (Ok code)
    /\ get_source_global_parameters fuel t (get_transpiler t) node
       = Some (Ok globals).

(** ** The texts of the compiler, part by part *)

(** The texts of a list, one after the other. *)
Definition cat (parts : list string) : string :=
  fold_right append "" parts.

(** The part of one node in the text of an exit node: the source code of
    the node and a line feed; a node that is not a Malt node has no
    part. *)
Definition local_part (fuel : nat) (t : Tree) (node : node_ref)
    (part : string) : Prop :=
  if is_malt_node (node_at t node)
  then exists code,
         get_source_code fuel t (get_transpiler t) node = Some (Ok code)
         /\ part = code ++ String "010" ""
  else part = "".

(** The part of one node in the global block: its global parameters. *)
Definition global_part (fuel : nat) (t : Tree) (node : node_ref)
    (part : string) : Prop :=
  if is_malt_node (node_at t node)
  then get_source_global_parameters fuel t (get_transpiler t) node
       = Some (Ok part)
  else part = "".

(** [text] consists of the parts of the nodes of [nodes], one part for
    every place of the list, in the order of the list. *)
Definition made_of (part : node_ref -> string -> Prop)
    (nodes : list node_ref) (text : string) : Prop :=
  exists parts, Forall2 part nodes parts /\ text = cat parts.

(* ================================================================== *)
(** * MaltTree.update: link normalization *)

(** [socket.data_type] and [socket.array_size]: an [AttributeError] on the
    plain sockets of a reroute node. *)
Definition data_type (t : Tree) (socket : socket_ref) : result string :=
  let s := socket_at t socket in
  if is_reroute (node_at t (s_node s)) then Raise AttributeError
  else Ok (s_data_type s).

Definition array_size (t : Tree) (socket : socket_ref) : result Z :=
  let s := socket_at t socket in
  if is_reroute (node_at t (s_node s)) then Raise AttributeError
  else Ok (s_array_size s).

(** The condition of the [if] in the loop over the links. *)
Definition link_mismatch (t : Tree) (link : Link) : result bool :=
  rbind (data_type t (from_socket link)) (fun from_type =>
  rbind (data_type t (to_socket link)) (fun to_type =>
    if negb (from_type =? to_type) then Ok true
    else
      rbind (array_size t (from_socket link)) (fun from_size =>
      rbind (array_size t (to_socket link)) (fun to_size =>
        Ok (negb (from_size =? to_size)%Z))))).

Definition link_eqb (a b : Link) : bool :=
  Nat.eqb (from_socket a) (from_socket b)
  && Nat.eqb (to_socket a) (to_socket b).

(** [self.links.remove(link)]. *)
Fixpoint remove_link (link : Link) (links : list Link) : list Link :=
  match links with
  | [] => []
  | l :: rest => if link_eqb link l then rest else l :: remove_link link rest
  end.

(** The loop [for link in self.links], with its [try] and [except: pass].
    The links of a tree are a Blender collection (a linked list), not a
    Python list: its iterator has already stepped to the following link
    when the body runs, so removing the current link does not disturb
    the walk, and every link of the tree is visited once.  [pending] are
    the links still to visit and [links] is the collection as the body
    has left it. *)
Fixpoint normalize_loop (t : Tree) (pending links : list Link) : list Link :=
  match pending with
  | [] => links
  | link :: rest =>
      match link_mismatch t link with
      | Ok true => normalize_loop t rest (remove_link link links)
      | Ok false => normalize_loop t rest links
      | Raise _ => normalize_loop t rest links
      end
  end.

Definition normalize_links (t : Tree) : list Link :=
  normalize_loop t (t_links t) (t_links t).

Definition with_links (t : Tree) (links : list Link) : Tree :=
  mkTree (t_nodes t) (node_at t) (socket_at t) links (t_language t)
    (t_library_path t) (t_functions t) (t_graph_IO t).

(** The tree after the normalization step. *)
Definition normalize (t : Tree) : Tree := with_links t (normalize_links t).

(** The links that the loop removes: the condition of the [if] evaluates
    to [True]. *)
Definition mismatched (t : Tree) (link : Link) : bool :=
  match link_mismatch t link with
  | Ok true => true
  | _ => false
  end.

(** Both ends of the link are [MaltSocket]s: sockets of nodes that are
    not reroute nodes. *)
Definition malt_link (t : Tree) (link : Link) : bool :=
  negb (is_reroute (node_at t (s_node (socket_at t (from_socket link)))))
  && negb (is_reroute (node_at t (s_node (socket_at t (to_socket link))))).

(** What the type-safety property asks of a link: its two ends are
    sockets that have a data type and an array size, the two data types
    are equal and the two array sizes are equal. *)
Definition link_well_typed (t : Tree) (link : Link) : Prop :=
  malt_link t link = true
  /\ s_data_type (socket_at t (from_socket link))
     = s_data_type (socket_at t (to_socket link))
  /\ s_array_size (socket_at t (from_socket link))
     = s_array_size (socket_at t (to_socket link)).

(** The links that the property rules out among those that join two
    Malt sockets: the data types differ, or the array sizes do. *)
Definition ends_differ (t : Tree) (link : Link) : bool :=
  malt_link t link
  && (negb (s_data_type (socket_at t (from_socket link))
            =? s_data_type (socket_at t (to_socket link)))
      || negb (s_array_size (socket_at t (from_socket link))
               =? s_array_size (socket_at t (to_socket link)))%Z).

(* ================================================================== *)
(** * The updates-disabled flag *)

Module Updates.

Section Wrappers.

(** Everything of the program state besides the two kinds of flag. *)
Variable Env : Type.

Record World : Type := mkWorld {
  tree_disable_updates : bool;
  node_disable_updates : node_ref -> bool;
  env : Env
}.

(** A statement: it ends normally or raises, and leaves a state. *)
Definition Eff (A : Type) : Type := World -> result A * World.

Definition pure {A} (a : A) : Eff A := fun w => (Ok a, w).

Definition seq {A} (e1 : Eff unit) (e2 : Eff A) : Eff A :=
  fun w =>
    match e1 w with
    | (Ok _, w') => e2 w'
    | (Raise e, w') => (Raise e, w')
    end.

(** [try: body / except: handler]: the bare [except] catches every
    exception. *)
Definition try_except (body handler : Eff unit) : Eff unit :=
  fun w =>
    match body w with
    | (Ok _, w') => (Ok tt, w')
    | (Raise _, w') => handler w'
    end.

(** [traceback.print_exc()] only prints. *)
Definition print_exc : Eff unit := pure tt.

Definition set_tree_flag (b : bool) : Eff unit :=
  fun w => (Ok tt, mkWorld b (node_disable_updates w) (env w)).

Definition set_node_flag (node : node_ref) (b : bool) : Eff unit :=
  fun w =>
    (Ok tt,
     mkWorld (tree_disable_updates w)
       (fun n => if Nat.eqb n node then b else node_disable_updates w n)
       (env w)).

Fixpoint for_each (nodes : list node_ref) (body : node_ref -> Eff unit)
    : Eff unit :=
  match nodes with
  | [] => pure tt
  | node :: rest => seq (body node) (for_each rest body)
  end.

(** The methods that the node classes override, the nodes of the tree,
    the test [get_pipeline_graph() is None] and the body of the [try] of
    [MaltTree.update] (normalization, generation and the write of the
    source file) are arbitrary. *)
Variable malt_init malt_setup malt_update : node_ref -> Eff unit.
Variable nodes : list node_ref.
Variable is_malt : node_ref -> bool.
Variable has_pipeline_graph : World -> bool.
Variable recompile : Eff unit.

(** [self.update_tag()] tags the dependency graph of Blender, which is
    not part of the state. *)
Definition update_tag : Eff unit := pure tt.

Definition _disable_updates_wrapper (node : node_ref) (function : Eff unit)
    : Eff unit :=
  seq (set_tree_flag true)
  (seq (set_node_flag node true)
  (seq (try_except function print_exc)
  (seq (set_tree_flag false)
       (set_node_flag node false)))).

Definition node_init (node : node_ref) : Eff unit :=
  _disable_updates_wrapper node (malt_init node).

Definition node_setup (node : node_ref) : Eff unit :=
  _disable_updates_wrapper node (malt_setup node).

Definition node_update (node : node_ref) : Eff unit :=
  fun w =>
    if node_disable_updates w node then (Ok tt, w)
    else _disable_updates_wrapper node (malt_update node) w.

Definition reload_nodes : Eff unit :=
  seq (set_tree_flag true)
  (seq (try_except
          (seq (for_each nodes (fun node =>
                  if is_malt node then node_setup node else pure tt))
               (for_each nodes (fun node =>
                  if is_malt node then node_update node else pure tt)))
          print_exc)
       (set_tree_flag false)).

Definition tree_update : Eff unit :=
  fun w =>
    if tree_disable_updates w then (Ok tt, w)
    else if negb (has_pipeline_graph w) then (Ok tt, w)
    else
      seq (set_tree_flag true)
      (seq (try_except recompile print_exc)
      (seq (set_tree_flag false)
           update_tag)) w.

End Wrappers.

Arguments tree_disable_updates {Env} w.
Arguments node_disable_updates {Env} w n.

(** The release property as it is claimed, for every state and whatever
    the inner operations do. *)
Definition flag_always_released : Prop :=
  forall (Env : Type) (malt_init malt_setup malt_update : node_ref -> Eff Env unit)
         (nodes : list node_ref) (is_malt : node_ref -> bool)
         (has_pipeline_graph : World Env -> bool) (recompile : Eff Env unit)
         (node : node_ref) (w : World Env),
    tree_disable_updates (snd (tree_update Env has_pipeline_graph recompile w))
      = false
    /\ tree_disable_updates
         (snd (reload_nodes Env malt_setup malt_update nodes is_malt w)) = false
    /\ tree_disable_updates (snd (node_init Env malt_init node w)) = false
    /\ tree_disable_updates (snd (node_setup Env malt_setup node w)) = false
    /\ tree_disable_updates (snd (node_update Env malt_update node w)) = false.

End Updates.

(* ================================================================== *)
(** * Example trees *)

Module Examples.

Definition no_function (name : string) : option FunctionDesc := None.

Definition empty_node : Node := mkNode "" NodeReroute [] [].
Definition empty_socket : Socket := mkSocket 0 "" false "" 0.

(** ** A sampler input fed by a graph input

    Node 0 is the entry node of the boundary [MAIN], with the output
    [tex]; node 1 is the exit node, with the input [tex]; both sockets are
    of type [sampler2D] and a link joins them. *)
Definition main_sampler : FunctionDesc :=
  mkFunction "MAIN" "void" [mkParameter "tex" "sampler2D" 0 "inout"].

Definition sampler_tree : Tree :=
  mkTree [0; 1]
    (fun n =>
       match n with
       | 0 => mkNode "MAIN Input" (MaltIONode "MAIN" false) [] [0]
       | 1 => mkNode "MAIN Output" (MaltIONode "MAIN" true) [1] []
       | _ => empty_node
       end)
    (fun s =>
       match s with
       | 0 => mkSocket 0 "tex" true "sampler2D" 0
       | 1 => mkSocket 1 "tex" false "sampler2D" 0
       | _ => empty_socket
       end)
    [mkLink 0 1]
    "GLSL" None no_function
    (fun name => if name =? "MAIN" then Some main_sampler else None).

(** ** Two reroute nodes wired in a circle

    Node 0 is an array index node whose input [index] (socket 0) is fed
    by the reroute node 1 (sockets 1 and 2); the input of node 1 is fed
    by the reroute node 2 (sockets 3 and 4), whose input is fed by node 1
    again. *)
Definition cyclic_tree : Tree :=
  mkTree [0; 1; 2]
    (fun n =>
       match n with
       | 0 => mkNode "Array Index" MaltArrayIndexNode [0] []
       | 1 => mkNode "Reroute" NodeReroute [1] [2]
       | 2 => mkNode "Reroute.001" NodeReroute [3] [4]
       | _ => empty_node
       end)
    (fun s =>
       match s with
       | 0 => mkSocket 0 "index" false "int" 0
       | 1 => mkSocket 1 "Input" false "" 0
       | 2 => mkSocket 1 "Output" true "" 0
       | 3 => mkSocket 2 "Input" false "" 0
       | 4 => mkSocket 2 "Output" true "" 0
       | _ => empty_socket
       end)
    [mkLink 2 0; mkLink 4 1; mkLink 2 3]
    "GLSL" None no_function no_function.

(** ** One reroute node between two nodes

    The output [result] (socket 0) of the function node 0 feeds the
    reroute node 1 (sockets 1 and 2), which feeds the input [index]
    (socket 3) of the array index node 2. *)
Definition reroute_tree : Tree :=
  mkTree [0; 1; 2]
    (fun n =>
       match n with
       | 0 => mkNode "count" (MaltFunctionNode "count") [] [0]
       | 1 => mkNode "Reroute" NodeReroute [1] [2]
       | 2 => mkNode "Array Index" MaltArrayIndexNode [3] []
       | _ => empty_node
       end)
    (fun s =>
       match s with
       | 0 => mkSocket 0 "result" true "int" 0
       | 1 => mkSocket 1 "Input" false "" 0
       | 2 => mkSocket 1 "Output" true "" 0
       | 3 => mkSocket 2 "index" false "int" 0
       | _ => empty_socket
       end)
    [mkLink 0 1; mkLink 2 3]
    "GLSL" None
    (fun name =>
       if name =? "count" then Some (mkFunction "count" "int" []) else None)
    no_function.

(** ** An exit node with a result and an out parameter

    The boundary [MAIN] returns a [vec4] and has the out parameter
    [color]; [malt_setup] creates the input [result] first and [color]
    after it.  Nothing is linked. *)
Definition main_result : FunctionDesc :=
  mkFunction "MAIN" "vec4" [mkParameter "color" "vec3" 0 "out"].

Definition exit_tree : Tree :=
  mkTree [0]
    (fun n =>
       match n with
       | 0 => mkNode "MAIN Output" (MaltIONode "MAIN" true) [0; 1] []
       | _ => empty_node
       end)
    (fun s =>
       match s with
       | 0 => mkSocket 0 "result" false "vec4" 0
       | 1 => mkSocket 0 "color" false "vec3" 0
       | _ => empty_socket
       end)
    []
    "GLSL" None no_function
    (fun name => if name =? "MAIN" then Some main_result else None).

(** ** The same exit node with a linked result

    The input [result] of the exit node is fed by the output [result]
    (socket 2) of the function node 1. *)
Definition exit_linked_tree : Tree :=
  mkTree [0; 1]
    (fun n =>
       match n with
       | 0 => mkNode "MAIN Output" (MaltIONode "MAIN" true) [0; 1] []
       | 1 => mkNode "shade" (MaltFunctionNode "shade") [] [2]
       | _ => empty_node
       end)
    (fun s =>
       match s with
       | 0 => mkSocket 0 "result" false "vec4" 0
       | 1 => mkSocket 0 "color" false "vec3" 0
       | 2 => mkSocket 1 "result" true "vec4" 0
       | _ => empty_socket
       end)
    [mkLink 2 0]
    "GLSL" None
    (fun name =>
       if name =? "shade" then Some (mkFunction "shade" "vec4" []) else None)
    (fun name => if name =? "MAIN" then Some main_result else None).

(** ** An array index node with nothing linked

    The sockets are those that [malt_init] and [malt_update] set up:
    the inputs [array] and [index] and the output [element]. *)
Definition array_index_tree : Tree :=
  mkTree [0]
    (fun n =>
       match n with
       | 0 => mkNode "Array Index" MaltArrayIndexNode [0; 1] [2]
       | _ => empty_node
       end)
    (fun s =>
       match s with
       | 0 => mkSocket 0 "array" false "" 1
       | 1 => mkSocket 0 "index" false "int" 0
       | 2 => mkSocket 0 "element" true "" 0
       | _ => empty_socket
       end)
    []
    "GLSL" None no_function no_function.

(** ** An array index node that reads an array

    Node 0 is the array index node of [array_index_tree]; its input
    [array] (socket 0) is fed by the output [result] (socket 3) of the
    function node 1, an array of four [vec3]. *)
Definition array_linked_tree : Tree :=
  mkTree [0; 1]
    (fun n =>
       match n with
       | 0 => mkNode "Array Index" MaltArrayIndexNode [0; 1] [2]
       | 1 => mkNode "colors" (MaltFunctionNode "colors") [] [3]
       | _ => empty_node
       end)
    (fun s =>
       match s with
       | 0 => mkSocket 0 "array" false "" 1
       | 1 => mkSocket 0 "index" false "int" 0
       | 2 => mkSocket 0 "element" true "" 0
       | 3 => mkSocket 1 "result" true "vec3" 4
       | _ => empty_socket
       end)
    [mkLink 3 0]
    "GLSL" None
    (fun name =>
       if name =? "colors" then Some (mkFunction "colors" "vec3" []) else None)
    no_function.

(** ** Two exit nodes that share a function node

    Nodes 0 and 1 are the exit nodes of the boundaries [A] and [B], each
    with one input ([x], socket 0, and [y], socket 1); both are fed by the
    output [result] (socket 3) of the function node 2, whose input [a]
    (socket 2) is not linked. *)
Definition shared_tree : Tree :=
  mkTree [0; 1; 2]
    (fun n =>
       match n with
       | 0 => mkNode "A Output" (MaltIONode "A" true) [0] []
       | 1 => mkNode "B Output" (MaltIONode "B" true) [1] []
       | 2 => mkNode "f" (MaltFunctionNode "f") [2] [3]
       | _ => empty_node
       end)
    (fun s =>
       match s with
       | 0 => mkSocket 0 "x" false "float" 0
       | 1 => mkSocket 1 "y" false "float" 0
       | 2 => mkSocket 2 "a" false "float" 0
       | 3 => mkSocket 2 "result" true "float" 0
       | _ => empty_socket
       end)
    [mkLink 3 0; mkLink 3 1]
    "GLSL" None
    (fun name =>
       if name =? "f"
       then Some (mkFunction "f" "float" [mkParameter "a" "float" 0 "in"])
       else None)
    (fun name =>
       if name =? "A"
       then Some (mkFunction "A" "void" [mkParameter "x" "float" 0 "out"])
       else if name =? "B"
       then Some (mkFunction "B" "void" [mkParameter "y" "float" 0 "out"])
       else None).

(** ** Links of several kinds

    Node 0 has the outputs [f] (socket 0, a float) and [i] (socket 1, an
    int); node 1 has the inputs [a] and [b] (sockets 2 and 3, floats),
    [c] (socket 6, an int array of size 2) and [d] (socket 7, an int);
    node 2 is a reroute node (sockets 4 and 5).  The links are float to
    float, int to float, int to int array, float to the reroute node, and
    the reroute node to the int [d]. *)
Definition mixed_tree : Tree :=
  mkTree [0; 1; 2]
    (fun n =>
       match n with
       | 0 => mkNode "values" (MaltFunctionNode "values") [] [0; 1]
       | 1 => mkNode "use" (MaltFunctionNode "use") [2; 3; 6; 7] []
       | 2 => mkNode "Reroute" NodeReroute [4] [5]
       | _ => empty_node
       end)
    (fun s =>
       match s with
       | 0 => mkSocket 0 "f" true "float" 0
       | 1 => mkSocket 0 "i" true "int" 0
       | 2 => mkSocket 1 "a" false "float" 0
       | 3 => mkSocket 1 "b" false "float" 0
       | 4 => mkSocket 2 "Input" false "" 0
       | 5 => mkSocket 2 "Output" true "" 0
       | 6 => mkSocket 1 "c" false "int" 2
       | 7 => mkSocket 1 "d" false "int" 0
       | _ => empty_socket
       end)
    [mkLink 0 2; mkLink 1 3; mkLink 1 6; mkLink 0 4; mkLink 5 7]
    "GLSL" None no_function no_function.

(** ** An inline code node

    Node 0 is an inline node with the inputs [a] (socket 0, a float) and
    [b] (socket 1, without type) and the output [result] (socket 2);
    nothing is linked. *)
Definition inline_tree : Tree :=
  mkTree [0]
    (fun n =>
       match n with
       | 0 => mkNode "Inline Code" (MaltInlineNode "a * 2.0") [0; 1] [2]
       | _ => empty_node
       end)
    (fun s =>
       match s with
       | 0 => mkSocket 0 "a" false "float" 0
       | 1 => mkSocket 0 "b" false "" 0
       | 2 => mkSocket 0 "result" true "" 0
       | _ => empty_socket
       end)
    []
    "GLSL" None no_function no_function.

(** ** A tree of the Python language

    Node 0 is the exit node of the boundary [Render Layer], with the
    input [Color] (socket 0), not linked. *)
Definition python_tree : Tree :=
  mkTree [0]
    (fun n =>
       match n with
       | 0 => mkNode "Render Layer Output" (MaltIONode "Render Layer" true)
                [0] []
       | _ => empty_node
       end)
    (fun s =>
       match s with
       | 0 => mkSocket 0 "Color" false "Texture" 0
       | _ => empty_socket
       end)
    []
    "Python" None no_function
    (fun name =>
       if name =? "Render Layer"
       then Some (mkFunction "Render Layer" "void"
                    [mkParameter "Color" "Texture" 0 "out"])
       else None).

(** A rank for the nodes of [shared_tree]: the function node lies below
    the two exit nodes. *)
Definition shared_rank (node : node_ref) : nat :=
  match node with
  | 2 => 0
  | _ => 1
  end.

End Examples.


(* ================================================================== *)
(** * The emission rule of the GLSL call, as the specification words it *)

Module CallRule.

(** The local that stands for an out or inout parameter. *)
Definition local_of (name : string) (p : ParameterDesc) : string :=
  GLSLTranspiler.parameter_reference name (p_name p).

(** One declaration per out or inout parameter, in the order of the
    signature, initialized from the expression of the caller. *)
Fixpoint declarations (name : string) (ps : list ParameterDesc)
    (arguments : list pystr) : string :=
  match ps, arguments with
  | p :: ps', a :: arguments' =>
      (if io_is_out p
       then GLSLTranspiler.declaration (p_type p) (p_size p)
              (Some (local_of name p)) a
       else "")
      ++ declarations name ps' arguments'
  | _, _ => ""
  end.

(** The arguments of the call: the local for an out or inout parameter,
    the expression of the caller for the others. *)
Fixpoint call_arguments (name : string) (ps : list ParameterDesc)
    (arguments : list pystr) : list string :=
  match ps, arguments with
  | p :: ps', a :: arguments' =>
      (if io_is_out p then local_of name p else fstr a)
      :: call_arguments name ps' arguments'
  | _, _ => []
  end.

(** The result is captured when the return type is neither [void] nor
    opaque. *)
Definition captures (function : FunctionDesc) : bool :=
  negb (f_type function =? "void")
  && GLSLTranspiler.is_instantiable_type (f_type function).

Definition emitted (function : FunctionDesc) (name : string)
    (arguments : list pystr) : string :=
  let expression :=
    f_name function ++ "("
      ++ String.concat "," (call_arguments name (f_parameters function) arguments)
      ++ ")" in
  declarations name (f_parameters function) arguments
  ++ (if captures function
      then GLSLTranspiler.declaration (f_type function) 0
             (Some (GLSLTranspiler.parameter_reference name "result"))
             (Some expression)
      else expression ++ ";" ++ String "010" "").

(** The caller passes one argument per parameter, and an expression (not
    [None]) for every parameter that is not out or inout. *)
Fixpoint well_formed (ps : list ParameterDesc) (arguments : list pystr)
    : bool :=
  match ps, arguments with
  | [], [] => true
  | p :: ps', a :: arguments' =>
      (io_is_out p || match a with Some _ => true | None => false end)
      && well_formed ps' arguments'
  | _, _ => false
  end.

End CallRule.

(** The state of the traversal between two rounds of its loops: [list]
    and [linked_nodes] hold no node twice, the nodes of [list] are in
    [linked_nodes], and every node that feeds a node of [list] is in
    [list] already. *)
Definition traversal_invariant (t : Tree) (list_ linked_nodes : list node_ref)
    : Prop :=
  NoDup list_ /\ NoDup linked_nodes /\ incl list_ linked_nodes
  /\ (forall x y, In x list_ -> feeds t y x -> In y list_).

(** What one call of the traversal for [node] adds to a list [l]: nodes
    upstream of [node] only. *)
Definition grows_upstream (t : Tree) (node : node_ref) (l l' : list node_ref)
    : Prop :=
  incl l l' /\ (forall x, In x l' -> In x l \/ upstream t x node).

(** What a call of [add_node_inputs] for [node] achieves: it returns,
    keeps the invariant, adds nodes upstream of [node] only, and leaves
    every node that feeds [node] in [list]. *)
Definition visit_ok (t : Tree) (node : node_ref)
    (list_ linked_nodes : list node_ref)
    (r : option (list node_ref * list node_ref)) : Prop :=
  exists list' linked',
    r = Some (list', linked')
    /\ traversal_invariant t list' linked'
    /\ grows_upstream t node list_ list'
    /\ grows_upstream t node linked_nodes linked'
    /\ (forall y, feeds t y node -> In y list').

(** The entry of one exit node in the shader: the parts of the nodes
    upstream of it, each of them once and no others, and then its own
    code. *)
Definition source_entry (fuel : nat) (t : Tree)
    (shader : list (string * string)) (o : node_ref) : Prop :=
  exists nodes code out,
    NoDup nodes
    /\ (forall x, In x nodes <-> upstream t x o)
    /\ made_of (local_part fuel t) nodes code
    /\ get_source_code fuel t (get_transpiler t) o = Some (Ok out)
    /\ dict_get shader (io_type_of (node_at t o)) = Some (code ++ out).

(* ================================================================== *)
(** * The schemas of malt_setup and malt_update *)

(** The loop of [MaltFunctionNode.malt_setup] over
    [function['parameters']]; the state is the pair of dicts [inputs] and
    [outputs]. *)
Fixpoint function_setup_loop (ps : list ParameterDesc)
    (inputs outputs : Schema) : Schema * Schema :=
  match ps with
  | [] => (inputs, outputs)
  | parameter :: rest =>
      let outputs :=
        if io_is_out parameter
        then dict_set outputs (p_name parameter)
               (p_type parameter, p_size parameter)
        else outputs in
      let inputs :=
        if io_is_in parameter
        then dict_set inputs (p_name parameter)
               (p_type parameter, p_size parameter)
        else inputs in
      function_setup_loop rest inputs outputs
  end.

(** The two dicts that [MaltFunctionNode.malt_setup] hands to
    [setup_sockets], for a function of plain type names. *)
Definition function_malt_setup (function : FunctionDesc) : Schema * Schema :=
  let outputs : Schema :=
    if negb (f_type function =? "void")
    then dict_set [] "result" (f_type function, 0%Z)
    else [] in
  function_setup_loop (f_parameters function) [] outputs.

(** The loop of [MaltIONode.malt_setup]. *)
Fixpoint io_setup_loop (is_output : bool) (ps : list ParameterDesc)
    (inputs outputs : Schema) : Schema * Schema :=
  match ps with
  | [] => (inputs, outputs)
  | parameter :: rest =>
      let inputs :=
        if io_is_out parameter && is_output
        then dict_set inputs (p_name parameter)
               (p_type parameter, p_size parameter)
        else inputs in
      let outputs :=
        if io_is_in parameter && negb is_output
        then dict_set outputs (p_name parameter)
               (p_type parameter, p_size parameter)
        else outputs in
      io_setup_loop is_output rest inputs outputs
  end.

(** The two dicts that [MaltIONode.malt_setup] hands to [setup_sockets]. *)
Definition io_malt_setup (function : FunctionDesc) (is_output : bool)
    : Schema * Schema :=
  let inputs : Schema :=
    if negb (f_type function =? "void") && is_output
    then dict_set [] "result" (f_type function, 0%Z)
    else [] in
  io_setup_loop is_output (f_parameters function) inputs [].

(** The characters of ['abcdefgh'], each as a socket name. *)
Definition inline_alphabet : list string :=
  ["a"; "b"; "c"; "d"; "e"; "f"; "g"; "h"].

(** The first loop of [MaltInlineNode.malt_update]: [last] is one more
    than the index of the last input that has a type or a link. *)
Fixpoint inline_last (fuel : nat) (t : Tree) (inputs : list socket_ref)
    (i last : nat) : M nat :=
  match inputs with
  | [] => ret last
  | input :: rest =>
      if negb (s_data_type (socket_at t input) =? "") then
        inline_last fuel t rest (S i) (S i)
      else
        linked <- lift_fuel (get_linked fuel t input) ;;
        match linked with
        | Some _ => inline_last fuel t rest (S i) (S i)
        | None => inline_last fuel t rest (S i) last
        end
  end.

(** The second loop, over [variables]: every variable gets an entry, the
    type of its link or its own type when the node has the socket, the
    empty type otherwise. *)
Fixpoint inline_inputs (fuel : nat) (t : Tree) (node : node_ref)
    (variables : list string) (inputs : Schema) : M Schema :=
  match variables with
  | [] => ret inputs
  | var :: rest =>
      let inputs := dict_set inputs var ("", 0%Z) in
      match socket_named t (n_inputs (node_at t node)) var with
      | Raise _ => inline_inputs fuel t node rest inputs
      | Ok input =>
          linked <- lift_fuel (get_linked fuel t input) ;;
          let own :=
            (s_data_type (socket_at t input),
             s_array_size (socket_at t input)) in
          let entry :=
            match linked with
            | Some linked =>
                if negb (s_data_type (socket_at t linked) =? "")
                then (s_data_type (socket_at t linked),
                      s_array_size (socket_at t linked))
                else own
            | None => own
            end in
          inline_inputs fuel t node rest (dict_set inputs var entry)
      end
  end.

(** The two dicts that [MaltInlineNode.malt_update] hands to
    [setup_sockets]. *)
Definition inline_malt_update (fuel : nat) (t : Tree) (node : node_ref)
    : M (Schema * Schema) :=
  let n := node_at t node in
  last <- inline_last fuel t (n_inputs n) 0 0 ;;
  let variables := firstn (Nat.min (last + 1) 8) inline_alphabet in
  inputs <- inline_inputs fuel t node variables [] ;;
  let outputs : Schema := dict_set [] "result" ("", 0%Z) in
  match socket_named t (n_outputs n) "result" with
  | Raise _ => ret (inputs, outputs)
  | Ok result =>
      out <- lift_fuel (get_linked fuel t result) ;;
      match out with
      | Some out =>
          ret (inputs,
               dict_set outputs "result"
                 (s_data_type (socket_at t out), s_array_size (socket_at t out)))
      | None => ret (inputs, outputs)
      end
  end.

(* ================================================================== *)
(** * Words for the properties of the calls *)

Module CallErrors.

(** An out or inout parameter lies at or beyond position [n]. *)
Definition out_beyond (ps : list ParameterDesc) (n : nat) : Prop :=
  exists i p, nth_error ps i = Some p /\ io_is_out p = true /\ n <= i.

(** An argument is [None] although its position has no out or inout
    parameter that would replace it. *)
Definition none_passed (ps : list ParameterDesc) (arguments : list pystr)
    : Prop :=
  exists i,
    nth_error arguments i = Some None
    /\ match nth_error ps i with
       | Some p => io_is_out p = false
       | None => True
       end.

(** The argument list after the loop of the GLSL [call]: the local for
    every out or inout parameter that has an argument. *)
Fixpoint rewritten (name : string) (ps : list ParameterDesc)
    (arguments : list pystr) : list pystr :=
  match ps, arguments with
  | p :: ps', a :: arguments' =>
      (if io_is_out p
       then Some (GLSLTranspiler.parameter_reference name (p_name p))
       else a)
      :: rewritten name ps' arguments'
  | _, _ => arguments
  end.

End CallErrors.

(** A list of nodes in an order that respects the links: every node
    comes after the nodes that feed it. *)
Definition dependency_ordered (t : Tree) (l : list node_ref) : Prop :=
  forall before x after,
    l = (before ++ x :: after)%list ->
    forall y, feeds t y x -> In y before.
(* ================================================================== *)
(** * Properties of the strings *)

Lemma append_nil_r (s : string) : s ++ "" = s.
Proof. induction s as [|c s IH]; simpl; [reflexivity | now rewrite IH]. Qed.

Lemma append_assoc (a b c : string) : (a ++ b) ++ c = a ++ (b ++ c).
Proof. induction a as [|x a IH]; simpl; [reflexivity | now rewrite IH]. Qed.

Lemma append_length (a b : string) :
  String.length (a ++ b) = String.length a + String.length b.
Proof. induction a as [|x a IH]; simpl; [reflexivity | now rewrite IH]. Qed.

Lemma append_inv_head (a b c : string) : a ++ b = a ++ c -> b = c.
Proof.
  induction a as [|x a IH]; simpl; intros H; [exact H |].
  injection H as H. now apply IH.
Qed.

(** Two concatenations with left parts of the same length agree part by
    part. *)
Lemma append_inv_length (a b c d : string) :
  String.length a = String.length c -> a ++ b = c ++ d -> a = c /\ b = d.
Proof.
  revert c. induction a as [|x a IH]; intros [|y c] Hlen H; simpl in *;
    try discriminate.
  - now split.
  - injection H as Hxy H. injection Hlen as Hlen.
    destruct (IH c Hlen H) as [-> ->]. now subst.
Qed.

Lemma all_chars_append (p : ascii -> bool) (a b : string) :
  Str.all_chars p (a ++ b) = Str.all_chars p a && Str.all_chars p b.
Proof.
  induction a as [|x a IH]; simpl; [reflexivity |].
  now rewrite IH, andb_assoc.
Qed.

Lemma all_chars_filter (p : ascii -> bool) (s : string) :
  Str.all_chars p (Str.filter_chars p s) = true.
Proof.
  induction s as [|c s IH]; simpl; [reflexivity |].
  destruct (p c) eqn:E; simpl; [now rewrite E |]; exact IH.
Qed.

Lemma all_chars_replace_from (p : ascii -> bool) (old new : string) :
  Str.all_chars p new = true ->
  forall (s : string) (skip : nat),
    Str.all_chars p s = true ->
    Str.all_chars p (Str.replace_from old new skip s) = true.
Proof.
  intros Hnew s. induction s as [|c s IH]; intros skip Hs; [reflexivity |].
  simpl in Hs. apply andb_true_iff in Hs as [Hc Hs].
  cbn [Str.replace_from]. destruct skip as [|k].
  - destruct (prefix old (String c s)).
    + rewrite all_chars_append, Hnew. now apply IH.
    + cbn [Str.all_chars]. rewrite Hc. now apply IH.
  - now apply IH.
Qed.

Lemma replace_keeps_leading_underscore (s : string) :
  exists rest, Str.replace "__" "_" (String "_" s) = String "_" rest.
Proof.
  unfold Str.replace. cbn [Str.replace_from].
  destruct (prefix "__" (String "_" s)); eexists; reflexivity.
Qed.

Lemma all_chars_ext (p q : ascii -> bool) (s : string) :
  (forall c, p c = q c) -> Str.all_chars p s = Str.all_chars q s.
Proof.
  intros H. induction s as [|c s IH]; simpl; [reflexivity |].
  now rewrite H, IH.
Qed.

Lemma all_chars_filter_chars (p valid : ascii -> bool) (s : string) :
  Str.all_chars p (Str.filter_chars valid s)
  = Str.all_chars (fun c => negb (valid c) || p c) s.
Proof.
  induction s as [|c s IH]; simpl; [reflexivity |].
  destruct (valid c); simpl; now rewrite IH.
Qed.

(** Replacing one character by another that [p] accepts as well. *)
Lemma all_chars_replace_dot (p : ascii -> bool) (s : string) :
  p "."%char = true -> p "_"%char = true ->
  Str.all_chars p (Str.replace "." "_" s) = Str.all_chars p s.
Proof.
  intros Hdot Hunder. unfold Str.replace.
  induction s as [|c s IH]; [reflexivity |].
  cbn [Str.replace_from prefix String.length Nat.sub].
  destruct (ascii_dec "."%char c) as [<- | _].
  - replace (prefix "" s) with true by now destruct s.
    cbn [Str.all_chars append]. now rewrite Hunder, Hdot.
  - cbn [Str.all_chars]. now rewrite IH.
Qed.

Lemma prefix_underscores (c : ascii) (s : string) :
  prefix "__" (String c s) = true ->
  c = "_"%char /\ exists r, s = String "_" r.
Proof.
  intros H. cbn [prefix] in H.
  destruct (ascii_dec "_"%char c) as [<- |]; [| discriminate H].
  destruct s as [|c' r]; [discriminate H |]. cbn [prefix] in H.
  destruct (ascii_dec "_"%char c') as [<- |]; [| discriminate H].
  split; [reflexivity | now exists r].
Qed.

(** The runs of underscores that [replace] shortens hold underscores
    only: the other characters of the text all stay. *)
Lemma all_chars_replace_underscores (p : ascii -> bool) :
  p "_"%char = true ->
  forall (n : nat) (s : string),
    String.length s <= n ->
    Str.all_chars p (Str.replace "__" "_" s) = Str.all_chars p s.
Proof.
  intros Hunder. unfold Str.replace.
  induction n as [|n IH]; intros s Hlen.
  - destruct s; [reflexivity | simpl in Hlen; lia].
  - destruct s as [|c s]; [reflexivity |].
    simpl in Hlen. cbn [Str.replace_from].
    destruct (prefix "__" (String c s)) eqn:E.
    + apply prefix_underscores in E as [-> [r ->]].
      cbn [String.length Nat.sub append Str.replace_from Str.all_chars].
      rewrite !Hunder. cbn [andb]. apply IH. simpl in Hlen. lia.
    + cbn [Str.all_chars]. f_equal. apply IH. lia.
Qed.

Lemma identifier_char_ascii (c : ascii) :
  negb (Str.isalnum c || Ascii.eqb c "_") || identifier_char c
  = negb (Str.isalnum c) || is_ascii c.
Proof. destruct c as [[] [] [] [] [] [] [] []]; reflexivity. Qed.

(** C10, amended: whatever the display name of a node, [get_source_name]
    gives a name that starts with an underscore and consists of
    characters that Python takes for alphanumeric and of underscores; and
    this name is an identifier of GLSL exactly when every alphanumeric
    character of the display name is an ASCII character. *)
Theorem get_source_name_identifier_iff_ascii (name : string) :
  (exists rest, get_source_name name = String "_" rest)
  /\ Str.all_chars (fun c => Str.isalnum c || Ascii.eqb c "_")
       (get_source_name name) = true
  /\ (glsl_identifier (get_source_name name) = true
      <-> Str.all_chars (fun c => negb (Str.isalnum c) || is_ascii c) name
          = true).
Proof.
  unfold get_source_name.
  set (valid := fun c => Str.isalnum c || Ascii.eqb c "_").
  set (body := Str.filter_chars valid (Str.replace "." "_" name)).
  destruct (replace_keeps_leading_underscore body) as [rest Hrest].
  change ("_" ++ body) with (String "_" body).
  split; [now exists rest |]. split.
  - unfold Str.replace. apply all_chars_replace_from; [reflexivity |].
    cbn [Str.all_chars]. unfold body. now rewrite all_chars_filter.
  - assert (Hid : glsl_identifier (Str.replace "__" "_" (String "_" body))
                  = Str.all_chars identifier_char
                      (Str.replace "__" "_" (String "_" body))).
    { rewrite Hrest. reflexivity. }
    rewrite Hid.
    rewrite (all_chars_replace_underscores identifier_char eq_refl
               (String.length (String "_" body)) _ (le_n _)).
    cbn [Str.all_chars]. change (identifier_char "_"%char) with true.
    cbn [andb]. unfold body.
    rewrite all_chars_filter_chars.
    rewrite (all_chars_replace_dot _ name eq_refl eq_refl).
    rewrite (all_chars_ext _ (fun c => negb (Str.isalnum c) || is_ascii c));
      [reflexivity |].
    intros c. apply identifier_char_ascii.
Qed.

(** C10, as stated, fails: the display name that is the one letter e
    with an acute accent (code point 233) gives an underscore followed
    by that letter, which no GLSL compiler reads as an identifier. *)
Lemma accented_name_is_no_identifier : ~ always_identifier.
Proof. intros H. specialize (H (String "233" "")). discriminate H. Qed.

(** The text for the accented letter, and a run of underscores that
    the one pass of [replace] leaves double. *)
Example names_that_stay_outside_the_identifiers :
  get_source_name (String "233" "") = String "_" (String "233" "")
  /\ get_source_name "___" = "__".
Proof. split; reflexivity. Qed.

(* ================================================================== *)
(** * Name mangling *)

(** C4, as stated, fails: the node names [a.b] and [a_b] are different
    and get the same identifiers for a socket [x], since both have the
    sanitized name [_a_b]. *)
Lemma mangling_collision :
  ("a.b", "x") <> ("a_b", "x")
  /\ GLSLTranspiler.parameter_reference (get_source_name "a.b") "x"
     = GLSLTranspiler.parameter_reference (get_source_name "a_b") "x"
  /\ GLSLTranspiler.global_reference (get_source_name "a.b") "x"
     = GLSLTranspiler.global_reference (get_source_name "a_b") "x".
Proof. split; [discriminate | split; reflexivity]. Qed.

(** Without touching the node names: the separator may occur in the
    names themselves. *)
Lemma mangling_separator_collision :
  GLSLTranspiler.parameter_reference (get_source_name "a") "b_0_c"
  = GLSLTranspiler.parameter_reference (get_source_name "a_0_b") "c".
Proof. reflexivity. Qed.

(** Two ways to cut one text: one cut lies before the other, and the
    text between the two is what the parts differ by. *)
Lemma append_eq_split (a x b y : string) :
  a ++ x = b ++ y ->
  (exists d, b = a ++ d /\ x = d ++ y) \/ (exists d, a = b ++ d /\ y = d ++ x).
Proof.
  revert b. induction a as [|c a IH]; intros b H.
  - left. exists b. now split.
  - destruct b as [|c' b].
    + right. exists (String c a). split; [reflexivity | now symmetry].
    + simpl in H. injection H as Hc H. subst c'.
      destruct (IH b H) as [[d [-> ->]] | [d [-> ->]]].
      * left. now exists d.
      * right. now exists d.
Qed.

(** Where a second separator can begin when the text starts with one. *)
Lemma separator_overlap (d s1 s2 : string) :
  "_0_" ++ s1 = d ++ "_0_" ++ s2 ->
  (d = "" /\ s1 = s2)
  \/ (d = "_0" /\ s1 = "0_" ++ s2)
  \/ (exists d', d = "_0_" ++ d' /\ s1 = d' ++ "_0_" ++ s2).
Proof.
  intros H. destruct d as [|c1 [|c2 [|c3 d']]]; simpl in H.
  - left. injection H as H. now split.
  - discriminate H.
  - right. left. injection H as <- <- H. now split.
  - right. right. injection H as <- <- <- H. now exists d'.
Qed.

Lemma reference_eq_iff (m1 s1 m2 s2 : string) :
  m1 ++ "_0_" ++ s1 = m2 ++ "_0_" ++ s2 <-> same_reading m1 s1 m2 s2.
Proof.
  unfold same_reading, separator_ambiguous. split.
  - intros H. apply append_eq_split in H as [[d [-> H]] | [d [-> H]]];
      apply separator_overlap in H as [[-> ->] | [[-> ->] | [d' [-> ->]]]].
    + left. now rewrite append_nil_r.
    + right. left. right. now split.
    + right. left. left. now exists d'.
    + left. now rewrite append_nil_r.
    + right. right. right. now split.
    + right. right. left. now exists d'.
  - intros [[-> ->] | [[[d [-> ->]] | [-> ->]] | [[d [-> ->]] | [-> ->]]]];
      rewrite ?append_assoc; reflexivity.
Qed.

(** C4, amended: two references are the same text exactly when they
    stand for the same sanitized node name and the same socket name, or
    when the separator can be read at two places.  This holds for the
    locals of [parameter_reference] and for the uniforms of
    [global_reference]. *)
Theorem mangling_collides_only_at_separator (n1 s1 n2 s2 : string) :
  (GLSLTranspiler.parameter_reference (get_source_name n1) s1
   = GLSLTranspiler.parameter_reference (get_source_name n2) s2
   <-> same_reading (get_source_name n1) s1 (get_source_name n2) s2)
  /\ (GLSLTranspiler.global_reference (get_source_name n1) s1
      = GLSLTranspiler.global_reference (get_source_name n2) s2
      <-> same_reading (get_source_name n1) s1 (get_source_name n2) s2).
Proof.
  unfold GLSLTranspiler.parameter_reference, GLSLTranspiler.global_reference.
  split; [apply reference_eq_iff |].
  rewrite <- reference_eq_iff. split.
  - apply append_inv_head.
  - intros H. now rewrite H.
Qed.

Lemma contains_middle (sub a b : string) :
  Str.contains sub (a ++ sub ++ b) = true.
Proof.
  induction a as [|c a IH].
  - assert (H : prefix sub (sub ++ b) = true).
    { induction sub as [|c sub IHs]; simpl; [now destruct b |].
      destruct (ascii_dec c c); [exact IHs | contradiction]. }
    cbn [append]. destruct (sub ++ b); cbn [Str.contains]; now rewrite H.
  - cbn [append Str.contains]. rewrite IH. apply orb_true_r.
Qed.

Lemma plain_socket_name_unambiguous (m1 s1 m2 s2 : string) :
  plain_socket_name s1 = true -> ~ separator_ambiguous m1 s1 m2 s2.
Proof.
  unfold plain_socket_name. intros H [[d [_ ->]] | [_ ->]];
    apply andb_true_iff in H as [Hc Hs]; apply negb_true_iff in Hc, Hs.
  - now rewrite contains_middle in Hc.
  - unfold Str.startswith in Hs. destruct s2; discriminate Hs.
Qed.

(** The references of sockets with plain names are apart whenever the
    sanitized node names or the socket names are. *)
Corollary plain_socket_names_never_collide (n1 s1 n2 s2 : string) :
  plain_socket_name s1 = true -> plain_socket_name s2 = true ->
  (get_source_name n1, s1) <> (get_source_name n2, s2) ->
  GLSLTranspiler.parameter_reference (get_source_name n1) s1
    <> GLSLTranspiler.parameter_reference (get_source_name n2) s2
  /\ GLSLTranspiler.global_reference (get_source_name n1) s1
    <> GLSLTranspiler.global_reference (get_source_name n2) s2.
Proof.
  intros H1 H2 Hneq.
  assert (Hno : ~ same_reading (get_source_name n1) s1 (get_source_name n2) s2).
  { intros [[Hm Hs] | [H | H]].
    - apply Hneq. now rewrite Hm, Hs.
    - now apply plain_socket_name_unambiguous in H.
    - now apply plain_socket_name_unambiguous in H. }
  unfold GLSLTranspiler.parameter_reference, GLSLTranspiler.global_reference.
  split; intros H; apply Hno, reference_eq_iff; [exact H |].
  now apply append_inv_head in H.
Qed.

Example mix_and_blend_apart :
  GLSLTranspiler.parameter_reference (get_source_name "Mix") "color"
    <> GLSLTranspiler.parameter_reference (get_source_name "Blend") "uv"
  /\ GLSLTranspiler.global_reference (get_source_name "Mix") "color"
    <> GLSLTranspiler.global_reference (get_source_name "Blend") "uv".
Proof.
  apply plain_socket_names_never_collide;
    [reflexivity | reflexivity | vm_compute; discriminate].
Qed.

(* ================================================================== *)
(** * The GLSL call *)

Lemma nth_error_middle {A} (done rest : list A) (a : A) :
  nth_error (done ++ a :: rest) (List.length done) = Some a.
Proof. induction done as [|x done IH]; simpl; [reflexivity | exact IH]. Qed.

Lemma list_set_middle {A} (done rest : list A) (a v : A) :
  list_set (done ++ a :: rest) (List.length done) v = (done ++ v :: rest)%list.
Proof.
  induction done as [|x done IH]; simpl; [reflexivity | now rewrite IH].
Qed.

(** The loop of [call], started after the arguments [done]. *)
Lemma call_loop_spec (name : string) (ps : list ParameterDesc) :
  forall (arguments done : list pystr) (src : string),
    List.length arguments = List.length ps ->
    GLSLTranspiler.call_loop name ps (List.length done) src
      (done ++ arguments)
    = Ok (src ++ CallRule.declarations name ps arguments,
          (done ++ map Some (CallRule.call_arguments name ps arguments))%list)
      \/ CallRule.well_formed ps arguments = false.
Proof.
  induction ps as [|p ps IH]; intros [|a arguments] done src Hlen;
    simpl in Hlen; try discriminate.
  - left. simpl. now rewrite append_nil_r.
  - injection Hlen as Hlen. cbn [GLSLTranspiler.call_loop].
    cbn [CallRule.well_formed CallRule.declarations CallRule.call_arguments].
    destruct (io_is_out p) eqn:Hio.
    + rewrite nth_error_middle, list_set_middle.
      specialize (IH arguments (done ++ [Some (CallRule.local_of name p)])%list
                    (src ++ GLSLTranspiler.declaration (p_type p) (p_size p)
                              (Some (CallRule.local_of name p)) a) Hlen).
      rewrite length_app, Nat.add_comm in IH. simpl in IH.
      rewrite <- !app_assoc in IH. simpl in IH.
      destruct IH as [IH | IH]; [left | right; exact IH].
      unfold CallRule.local_of in *. rewrite IH.
      now rewrite append_assoc.
    + destruct a as [e|]; [| right; reflexivity].
      specialize (IH arguments (done ++ [Some e])%list src Hlen).
      rewrite length_app, Nat.add_comm in IH. simpl in IH.
      rewrite <- !app_assoc in IH. simpl in IH.
      destruct IH as [IH | IH]; [left | right; exact IH].
      exact IH.
Qed.

Lemma join_items_some (l : list string) :
  Str.join_items (map Some l) = Ok l.
Proof.
  induction l as [|s l IH]; simpl; [reflexivity | now rewrite IH].
Qed.

Lemma well_formed_length (ps : list ParameterDesc) :
  forall arguments,
    CallRule.well_formed ps arguments = true ->
    List.length arguments = List.length ps.
Proof.
  induction ps as [|p ps IH]; intros [|a arguments] H; simpl in H;
    try discriminate; [reflexivity |].
  apply andb_true_iff in H as [_ H]. simpl. f_equal. now apply IH.
Qed.

(** C7: for a caller that passes one argument per parameter, the GLSL
    [call] emits the declarations of the out and inout parameters in
    order, each initialized from the expression of the caller, and then
    the call with these parameters replaced by their locals: captured in
    the local [parameter_reference(node, result)] when the return type is
    neither void nor opaque, a bare statement otherwise. *)
Theorem call_emits_declarations_then_call
    (function : FunctionDesc) (name : string) (arguments : list pystr) :
  CallRule.well_formed (f_parameters function) arguments = true ->
  GLSLTranspiler.call function name arguments
  = Ok (CallRule.emitted function name arguments).
Proof.
  intros Hwf. pose proof (well_formed_length _ _ Hwf) as Hlen.
  unfold GLSLTranspiler.call, CallRule.emitted, CallRule.captures.
  destruct (call_loop_spec name (f_parameters function) arguments [] "" Hlen)
    as [H | H]; [| congruence].
  simpl in H. rewrite H. cbn [rbind].
  unfold Str.join. rewrite join_items_some. cbn [rbind].
  destruct (negb (f_type function =? "void")
            && GLSLTranspiler.is_instantiable_type (f_type function));
    [reflexivity |].
  now rewrite !append_assoc.
Qed.

Lemma call_emits_declarations_then_call_witness :
  GLSLTranspiler.call
    (mkFunction "f" "vec3"
       [mkParameter "a" "float" 0 "in"; mkParameter "b" "vec2" 2 "inout";
        mkParameter "c" "int" 0 "out"])
    "_N" [Some "x"; Some "y"; None]
  = Ok ("vec2 _N_0_b[2] = y;" ++ String "010" ""
        ++ "int _N_0_c;" ++ String "010" ""
        ++ "vec3 _N_0_result = f(x,_N_0_b,_N_0_c);" ++ String "010" "").
Proof.
  exact (call_emits_declarations_then_call
           (mkFunction "f" "vec3"
              [mkParameter "a" "float" 0 "in"; mkParameter "b" "vec2" 2 "inout";
               mkParameter "c" "int" 0 "out"])
           "_N" [Some "x"; Some "y"; None] eq_refl).
Defined.

(* ================================================================== *)
(** * The monad of the emission *)

Lemma bind_ok_inv {A B} (m : M A) (k : A -> M B) (b : B) :
  bind m k = Some (Ok b) -> exists a, m = Some (Ok a) /\ k a = Some (Ok b).
Proof.
  destruct m as [[a | e] |]; simpl; intros H; try discriminate.
  now exists a.
Qed.

(* ================================================================== *)
(** * Socket resolution *)

Lemma get_linked_internal_more_fuel (t : Tree) (fuel : nat) :
  forall socket r,
    get_linked_internal fuel t socket = Some r ->
    forall fuel', fuel <= fuel' -> get_linked_internal fuel' t socket = Some r.
Proof.
  induction fuel as [|fuel IH]; intros socket r H fuel' Hle; [discriminate |].
  destruct fuel' as [|fuel']; [lia |].
  simpl in *. destruct (get_linked_hop t socket); try exact H.
  apply (IH _ _ H). lia.
Qed.

Lemma get_linked_internal_real (t : Tree) (fuel : nat) :
  forall socket r,
    get_linked_internal fuel t socket = Some r -> real_or_unlinked t r.
Proof.
  induction fuel as [|fuel IH]; intros socket r H; [discriminate |].
  simpl in H. unfold get_linked_hop in H.
  destruct (socket_links t socket) as [|link links].
  - injection H as <-. exact I.
  - set (linked := if s_is_output (socket_at t socket) then to_socket link
                   else from_socket link) in *.
    destruct (is_reroute (node_at t (s_node (socket_at t linked)))) eqn:Hr.
    + destruct (if s_is_output (socket_at t linked)
                then n_inputs (node_at t (s_node (socket_at t linked)))
                else n_outputs (node_at t (s_node (socket_at t linked))))
        as [|first rest].
      * injection H as <-. exact I.
      * exact (IH _ _ H).
    + injection H as <-. exact Hr.
Qed.




(** On the tree of the witness the answer is the output of the function
    node, reached through the reroute node. *)
Example get_linked_through_reroute :
  get_linked 2 Examples.reroute_tree 3 = Some (Some 0).
Proof. reflexivity. Qed.

(* ================================================================== *)
(** * Source references *)

(** The second half of C1 holds: a socket that is an output, or of an
    instantiable type, gets the reference that its node gives it. *)
Lemma get_source_reference_of_node (fuel : nat) (t : Tree) (socket : socket_ref) :
  socket_is_instantiable_type t socket = true
    \/ s_is_output (socket_at t socket) = true ->
  get_source_reference (S fuel) t socket
  = get_source_socket_reference fuel t (s_node (socket_at t socket)) socket.
Proof.
  intros H. cbn [get_source_reference].
  destruct H as [-> | ->]; [reflexivity |].
  now rewrite andb_false_r.
Qed.

(** An unlinked input gets the reference of its node as well. *)
Lemma get_source_reference_unlinked (fuel : nat) (t : Tree) (socket : socket_ref) :
  get_linked fuel t socket = Some None ->
  get_source_reference (S fuel) t socket
  = get_source_socket_reference fuel t (s_node (socket_at t socket)) socket.
Proof.
  intros H. cbn [get_source_reference]. rewrite H. cbn.
  now destruct (negb (socket_is_instantiable_type t socket)
                && negb (s_is_output (socket_at t socket))).
Qed.

(** The first half fails on every tree: when the socket is an input of an
    opaque type and linked, and the reference of the linked socket is
    [v], the method computes [v] and returns [None]. *)
Lemma get_source_reference_returns_none
    (fuel : nat) (t : Tree) (socket linked : socket_ref) (v : pystr) :
  socket_is_instantiable_type t socket = false ->
  s_is_output (socket_at t socket) = false ->
  get_linked fuel t socket = Some (Some linked) ->
  get_source_reference fuel t linked = Some (Ok v) ->
  get_source_reference (S fuel) t socket = Some (Ok None).
Proof.
  intros Hinst Hout Hlinked Hv. cbn [get_source_reference].
  rewrite Hinst, Hout, Hlinked. cbn. now rewrite Hv.
Qed.

(** C1 at a failing input: the sampler input [tex] of the exit node is
    linked to the output [tex] of the entry node, whose reference is the
    text [tex]; the reference of the input is [None], and the exit node
    writes an assignment to [None]. *)
Theorem get_source_reference_drops_linked_reference :
  socket_is_instantiable_type Examples.sampler_tree 1 = false
  /\ s_is_output (socket_at Examples.sampler_tree 1) = false
  /\ get_linked 3 Examples.sampler_tree 1 = Some (Some 0)
  /\ get_source_reference 3 Examples.sampler_tree 0 = Some (Ok (Some "tex"))
  /\ get_source_reference 4 Examples.sampler_tree 1 = Some (Ok None)
  /\ get_source_code 4 Examples.sampler_tree (Some GLSL) 1
     = Some (Ok ("None = tex;" ++ String "010" "")).
Proof. repeat (split; [reflexivity |]). reflexivity. Qed.

(* ================================================================== *)
(** * The exit node *)

(** C3 at a failing input: the exit node has the inputs [result] and
    [color], none of them linked.  The result statement returns the
    default of [color], the socket that the loop visited last, and not
    the default of [result]. *)
Theorem exit_node_returns_default_of_last_socket :
  get_source_global_reference Examples.exit_tree 0
    = Ok "U_0_MAINOutput_0_result"
  /\ get_source_code 3 Examples.exit_tree (Some GLSL) 0
     = Some (Ok ("color = U_0_MAINOutput_0_color;" ++ String "010" ""
                 ++ "return U_0_MAINOutput_0_color;" ++ String "010" "")).
Proof. split; reflexivity. Qed.

(** The first half of C3 holds: a linked [result] is returned through the
    reference of the linked socket. *)
Example exit_node_returns_linked_result :
  get_source_code 3 Examples.exit_linked_tree (Some GLSL) 0
  = Some (Ok ("color = U_0_MAINOutput_0_color;" ++ String "010" ""
              ++ "return _shade_0_result;" ++ String "010" "")).
Proof. reflexivity. Qed.

(* ================================================================== *)
(** * The array index node *)

(** When the input [array] is not linked, the emission raises: it asks
    [None] for a source reference. *)
Lemma array_index_unlinked_never_emits
    (fuel : nat) (t : Tree) (transpiler : option Transpiler)
    (node : node_ref) (array : socket_ref) (code : string) :
  n_kind (node_at t node) = MaltArrayIndexNode ->
  socket_named t (n_inputs (node_at t node)) "array" = Ok array ->
  get_linked fuel t array = Some None ->
  get_source_code fuel t transpiler node <> Some (Ok code).
Proof.
  intros Hkind Harray Hlinked H. unfold get_source_code in H.
  rewrite Hkind in H. unfold array_index_get_source_code in H.
  apply bind_ok_inv in H as [array' [Ha H]].
  apply bind_ok_inv in H as [index [_ H]].
  apply bind_ok_inv in H as [element [_ H]].
  apply bind_ok_inv in H as [element_reference [_ H]].
  apply bind_ok_inv in H as [array_linked [Hl H]].
  unfold lift in Ha. rewrite Harray in Ha. injection Ha as <-.
  rewrite Hlinked in Hl. injection Hl as <-. discriminate H.
Qed.

(** C8 at a failing input: an array index node with nothing linked.  The
    schema is the untyped placeholder, and [setup] gives the sockets the
    types of the placeholder, but [get_source_code] raises an
    [AttributeError] instead of returning a declaration. *)
Theorem array_index_unlinked_raises :
  array_index_malt_update 2 Examples.array_index_tree 0
    = Some (Ok ([("array", ("", 1%Z)); ("index", ("int", 0%Z))],
                [("element", ("", 0%Z))]))
  /\ setup [("array", ("float", 4%Z)); ("index", ("int", 0%Z))]
       (plain_schema [("array", ("", 1%Z)); ("index", ("int", 0%Z))])
     = (Ok tt, [("array", ("", 1%Z)); ("index", ("int", 0%Z))])
  /\ setup [("element", ("float", 0%Z))]
       (plain_schema [("element", ("", 0%Z))])
     = (Ok tt, [("element", ("", 0%Z))])
  /\ get_source_code 3 Examples.array_index_tree (Some GLSL) 0
     = Some (Raise AttributeError).
Proof. repeat (split; [reflexivity |]). reflexivity. Qed.

(* ================================================================== *)
(** * Link normalization *)

Lemma link_eqb_eq (a b : Link) : link_eqb a b = true -> a = b.
Proof.
  destruct a as [af at_], b as [bf bt]. unfold link_eqb. simpl.
  intros H. apply andb_true_iff in H as [Hf Ht].
  apply Nat.eqb_eq in Hf, Ht. now subst.
Qed.

Lemma link_eqb_refl (a : Link) : link_eqb a a = true.
Proof. unfold link_eqb. now rewrite !Nat.eqb_refl. Qed.

Lemma remove_link_middle (t : Tree) (link : Link) (rest : list Link) :
  mismatched t link = true ->
  forall kept,
    Forall (fun l => mismatched t l = false) kept ->
    remove_link link (kept ++ link :: rest) = (kept ++ rest)%list.
Proof.
  intros Hbad kept Hkept. induction Hkept as [|l kept Hl _ IH]; simpl.
  - now rewrite link_eqb_refl.
  - destruct (link_eqb link l) eqn:E.
    + apply link_eqb_eq in E. subst l. congruence.
    + now rewrite IH.
Qed.

Lemma normalize_loop_filter (t : Tree) (pending : list Link) :
  forall kept,
    Forall (fun l => mismatched t l = false) kept ->
    normalize_loop t pending (kept ++ pending)
    = (kept ++ filter (fun l => negb (mismatched t l)) pending)%list.
Proof.
  induction pending as [|link rest IH]; intros kept Hkept; [reflexivity |].
  cbn [normalize_loop filter].
  destruct (mismatched t link) eqn:Hbad; cbn [negb].
  - unfold mismatched in Hbad.
    destruct (link_mismatch t link) as [[|]|] eqn:E; try discriminate.
    rewrite (remove_link_middle t link rest); [| unfold mismatched; now rewrite E | exact Hkept].
    now apply IH.
  - assert (Hstep : normalize_loop t rest (kept ++ link :: rest)
                    = ((kept ++ [link]) ++ filter (fun l => negb (mismatched t l)) rest)%list).
    { replace (kept ++ link :: rest)%list with ((kept ++ [link]) ++ rest)%list
        by now rewrite <- app_assoc.
      apply IH. apply Forall_app. split; [exact Hkept | now constructor]. }
    rewrite <- app_assoc in Hstep. simpl in Hstep.
    unfold mismatched in Hbad.
    destruct (link_mismatch t link) as [[|]|]; try discriminate; exact Hstep.
Qed.

(** The loop removes the mismatched links, all of them, and nothing
    else. *)
Lemma normalize_links_filter (t : Tree) :
  normalize_links t = filter (fun l => negb (mismatched t l)) (t_links t).
Proof.
  unfold normalize_links.
  exact (normalize_loop_filter t (t_links t) [] (Forall_nil _)).
Qed.

Lemma filter_idempotent {A} (f : A -> bool) (l : list A) :
  filter f (filter f l) = filter f l.
Proof.
  induction l as [|x l IH]; simpl; [reflexivity |].
  destruct (f x) eqn:E; simpl; [rewrite E; now f_equal | exact IH].
Qed.

(** The condition of the loop holds for the links that join two Malt
    sockets of different data types or array sizes, and for no others. *)
Lemma mismatched_ends_differ (t : Tree) (link : Link) :
  mismatched t link = ends_differ t link.
Proof.
  unfold mismatched, ends_differ, malt_link, link_mismatch, data_type,
    array_size.
  destruct (is_reroute (node_at t (s_node (socket_at t (from_socket link)))));
    [reflexivity |].
  destruct (is_reroute (node_at t (s_node (socket_at t (to_socket link)))));
    [reflexivity |].
  cbn [rbind negb andb].
  destruct (s_data_type (socket_at t (from_socket link))
            =? s_data_type (socket_at t (to_socket link))); cbn [negb orb];
    [| reflexivity].
  now destruct (s_array_size (socket_at t (from_socket link))
                =? s_array_size (socket_at t (to_socket link)))%Z.
Qed.

Lemma filter_ext_eq {A} (f g : A -> bool) (l : list A) :
  (forall x, f x = g x) -> filter f l = filter g l.
Proof.
  intros H. induction l as [|x l IH]; simpl; [reflexivity |].
  now rewrite H, IH.
Qed.

Lemma normalize_links_ends_differ (t : Tree) :
  normalize_links t = filter (fun l => negb (ends_differ t l)) (t_links t).
Proof.
  rewrite normalize_links_filter. apply filter_ext_eq.
  intros l. now rewrite mismatched_ends_differ.
Qed.

(** C5, as stated, fails: the link from the float output to the input
    of the reroute node stays, and the reroute socket has neither data
    type nor array size: the comparison raises, and the loop passes.  The
    link from the reroute node to the int input stays as well, so that
    after the normalization the int input is still fed by the float
    output. *)
Lemma normalization_keeps_reroute_link :
  In (mkLink 0 4) (normalize_links Examples.mixed_tree)
  /\ link_mismatch (normalize Examples.mixed_tree) (mkLink 0 4)
     = Raise AttributeError
  /\ ~ link_well_typed (normalize Examples.mixed_tree) (mkLink 0 4)
  /\ get_linked 2 (normalize Examples.mixed_tree) 7 = Some (Some 0)
  /\ s_data_type (socket_at Examples.mixed_tree 7) = "int"
  /\ s_data_type (socket_at Examples.mixed_tree 0) = "float".
Proof.
  split; [right; left; reflexivity |].
  split; [reflexivity |].
  split; [intros [H _]; discriminate H |].
  split; [reflexivity |]. split; reflexivity.
Qed.

(** C5, amended: the normalization removes exactly the links that join
    two Malt sockets of different data types or of different array
    sizes, all of them in the one pass; every link that stays and joins
    two Malt sockets joins equal data types and equal array sizes; every
    link with an end on a reroute node stays, whatever it joins; and a
    second normalization changes nothing. *)
Theorem normalization_removes_mismatched_links (t : Tree) :
  normalize_links t = filter (fun l => negb (ends_differ t l)) (t_links t)
  /\ (forall link,
        In link (normalize_links t) -> malt_link t link = true ->
        link_well_typed (normalize t) link)
  /\ (forall link,
        In link (t_links t) -> malt_link t link = false ->
        In link (normalize_links t))
  /\ normalize_links (normalize t) = normalize_links t.
Proof.
  split; [apply normalize_links_ends_differ |]. split; [| split].
  - intros link Hin Hmalt. rewrite normalize_links_ends_differ in Hin.
    apply filter_In in Hin as [_ Hkeep]. apply negb_true_iff in Hkeep.
    unfold ends_differ in Hkeep. rewrite Hmalt in Hkeep. cbn [andb] in Hkeep.
    apply orb_false_iff in Hkeep as [Htype Hsize].
    apply negb_false_iff in Htype, Hsize.
    apply String.eqb_eq in Htype. apply Z.eqb_eq in Hsize.
    split; [exact Hmalt |]. split; [exact Htype | exact Hsize].
  - intros link Hin Hmalt. rewrite normalize_links_ends_differ.
    apply filter_In. split; [exact Hin |].
    unfold ends_differ. now rewrite Hmalt.
  - rewrite (normalize_links_ends_differ (normalize t)).
    change (t_links (normalize t)) with (normalize_links t).
    change (ends_differ (normalize t)) with (ends_differ t).
    rewrite normalize_links_ends_differ. apply filter_idempotent.
Qed.

(** Scenario C: the link between a float output and an int input goes,
    and so does the link between an int and an int array. *)
Example normalization_of_mixed_tree :
  normalize_links Examples.mixed_tree = [mkLink 0 2; mkLink 0 4; mkLink 5 7].
Proof. reflexivity. Qed.

(* ================================================================== *)
(** * The updates-disabled flag *)

Section Release.

Variable Env : Type.
Variable malt_init malt_setup malt_update : node_ref -> Updates.Eff Env unit.
Variable nodes : list node_ref.
Variable is_malt : node_ref -> bool.
Variable has_pipeline_graph : Updates.World Env -> bool.
Variable recompile : Updates.Eff Env unit.

(** The bare [except] lets no exception out. *)
Lemma try_except_returns (body : Updates.Eff Env unit) (w : Updates.World Env) :
  fst (Updates.try_except Env body (Updates.print_exc Env) w) = Ok tt.
Proof.
  unfold Updates.try_except. now destruct (body w) as [[[] | e] w'].
Qed.

(** The wrapper ends normally with both flags cleared, whatever the
    wrapped function does, and also when it raises. *)
Lemma wrapper_releases (node : node_ref) (function : Updates.Eff Env unit)
    (w : Updates.World Env) :
  let r := Updates._disable_updates_wrapper Env node function w in
  fst r = Ok tt
  /\ Updates.tree_disable_updates (snd r) = false
  /\ Updates.node_disable_updates (snd r) node = false.
Proof.
  unfold Updates._disable_updates_wrapper, Updates.seq, Updates.try_except.
  cbn [Updates.set_tree_flag Updates.set_node_flag].
  match goal with |- context [function ?x] => destruct (function x) as [[[] | e] w'] end;
    cbn; now rewrite Nat.eqb_refl.
Qed.

Lemma reload_nodes_releases (w : Updates.World Env) :
  let r := Updates.reload_nodes Env malt_setup malt_update nodes is_malt w in
  fst r = Ok tt /\ Updates.tree_disable_updates (snd r) = false.
Proof.
  unfold Updates.reload_nodes, Updates.seq.
  cbn [Updates.set_tree_flag].
  match goal with
  | |- context [Updates.try_except Env ?b ?h ?x] =>
      pose proof (try_except_returns b x) as Hok;
      destruct (Updates.try_except Env b h x) as [r w']
  end.
  simpl in Hok. subst r. now cbn.
Qed.

Lemma tree_update_releases (w : Updates.World Env) :
  Updates.tree_disable_updates w = false ->
  let r := Updates.tree_update Env has_pipeline_graph recompile w in
  fst r = Ok tt /\ Updates.tree_disable_updates (snd r) = false.
Proof.
  intros Hflag. unfold Updates.tree_update. rewrite Hflag.
  destruct (has_pipeline_graph w); cbn [negb]; [| now split].
  unfold Updates.seq. cbn [Updates.set_tree_flag].
  match goal with
  | |- context [Updates.try_except Env ?b ?h ?x] =>
      pose proof (try_except_returns b x) as Hok;
      destruct (Updates.try_except Env b h x) as [r w']
  end.
  simpl in Hok. subst r. now cbn.
Qed.

(** C9, amended: the tree flag is [False] after [reload_nodes], after the
    [init] and [setup] of a node, after the [update] of a node whose own
    flag was clear, and after [MaltTree.update] entered with the flag
    clear, on every path and also when an inner operation raises; an
    [update] that finds its flag set returns at once and changes
    nothing, so the tree flag stays as it was. *)
Theorem flag_released_unless_guarded (node : node_ref) (w : Updates.World Env) :
  Updates.tree_disable_updates
    (snd (Updates.reload_nodes Env malt_setup malt_update nodes is_malt w))
    = false
  /\ Updates.tree_disable_updates (snd (Updates.node_init Env malt_init node w))
     = false
  /\ Updates.tree_disable_updates (snd (Updates.node_setup Env malt_setup node w))
     = false
  /\ (if Updates.node_disable_updates w node
      then Updates.node_update Env malt_update node w = (Ok tt, w)
      else Updates.tree_disable_updates
             (snd (Updates.node_update Env malt_update node w)) = false)
  /\ (if Updates.tree_disable_updates w
      then Updates.tree_update Env has_pipeline_graph recompile w = (Ok tt, w)
      else Updates.tree_disable_updates
             (snd (Updates.tree_update Env has_pipeline_graph recompile w))
           = false).
Proof.
  split; [apply reload_nodes_releases |].
  split; [apply (wrapper_releases node (malt_init node) w) |].
  split; [apply (wrapper_releases node (malt_setup node) w) |].
  split.
  - unfold Updates.node_update.
    destruct (Updates.node_disable_updates w node); [reflexivity |].
    apply (wrapper_releases node (malt_update node) w).
  - destruct (Updates.tree_disable_updates w) eqn:Hflag.
    + unfold Updates.tree_update. now rewrite Hflag.
    + now apply tree_update_releases.
Qed.

End Release.

(** C9, as stated, fails: [MaltTree.update] called while the flag is set
    returns at its guard, and the flag is still set. *)
Lemma update_under_guard_keeps_flag : ~ Updates.flag_always_released.
Proof.
  intros H.
  specialize (H unit (fun _ => Updates.pure unit tt)
                (fun _ => Updates.pure unit tt) (fun _ => Updates.pure unit tt)
                [] (fun _ => true) (fun _ => true) (Updates.pure unit tt) 0
                (Updates.mkWorld unit true (fun _ => false) tt)).
  destruct H as [H _]. discriminate H.
Qed.

(* ================================================================== *)
(** * The graph compiler *)

Lemma mem_true_iff (x : node_ref) (l : list node_ref) : mem x l = true <-> In x l.
Proof.
  unfold mem. rewrite existsb_exists. split.
  - intros [y [Hy E]]. apply Nat.eqb_eq in E. now subst.
  - intros H. exists x. split; [exact H | apply Nat.eqb_refl].
Qed.

Lemma mem_false_iff (x : node_ref) (l : list node_ref) : mem x l = false <-> ~ In x l.
Proof.
  rewrite <- mem_true_iff. destruct (mem x l); split; congruence.
Qed.

Lemma NoDup_snoc {A} (l : list A) (x : A) : NoDup l -> ~ In x l -> NoDup (l ++ [x]).
Proof.
  intros Hl Hx. induction Hl as [|y l Hy Hl IH]; simpl.
  - constructor; [intros [] | constructor].
  - constructor.
    + rewrite in_app_iff. intros [H | [H | []]]; [now apply Hy |].
      subst. apply Hx. now left.
    + apply IH. intros H. apply Hx. now right.
Qed.

Lemma for_code_app {A} (f : A -> M string) (l1 l2 : list A) (a b : string) :
  for_code f l1 = Some (Ok a) -> for_code f l2 = Some (Ok b) ->
  for_code f (l1 ++ l2) = Some (Ok (a ++ b)).
Proof.
  revert a. induction l1 as [|x l1 IH]; intros a H1 H2; simpl in *.
  - injection H1 as <-. exact H2.
  - apply bind_ok_inv in H1 as [c [Hc H1]].
    apply bind_ok_inv in H1 as [cs [Hcs H1]]. injection H1 as <-.
    rewrite Hc. cbn. rewrite (IH cs Hcs H2). cbn.
    now rewrite append_assoc.
Qed.

Lemma for_code_total {A} (f : A -> M string) (l : list A) :
  (forall x, In x l -> exists c, f x = Some (Ok c)) ->
  exists s, for_code f l = Some (Ok s).
Proof.
  induction l as [|x l IH]; intros H; simpl.
  - now exists "".
  - destruct (H x (or_introl eq_refl)) as [c Hc].
    destruct IH as [s Hs]; [intros y Hy; apply H; now right |].
    exists (c ++ s). rewrite Hc. cbn. rewrite Hs. reflexivity.
Qed.

(** The text of a loop over a list consists of one part for every
    place of the list. *)
Lemma for_code_made_of (f : node_ref -> M string)
    (part : node_ref -> string -> Prop) (l : list node_ref) (text : string) :
  (forall x c, In x l -> f x = Some (Ok c) -> part x c) ->
  for_code f l = Some (Ok text) ->
  made_of part l text.
Proof.
  revert text. induction l as [|x l IH]; intros text Hf H; simpl in H.
  - injection H as <-. exists []. split; [constructor | reflexivity].
  - apply bind_ok_inv in H as [c [Hc H]].
    apply bind_ok_inv in H as [cs [Hcs H]]. injection H as <-.
    destruct (IH cs) as [parts [Hparts ->]];
      [intros y d Hy; apply Hf; now right | exact Hcs |].
    exists (c :: parts). split; [| reflexivity].
    constructor; [| exact Hparts]. apply Hf; [now left | exact Hc].
Qed.

Lemma dict_get_set {V} (d : list (string * V)) (k k' : string) (v : V) :
  dict_get (dict_set d k v) k' = if k =? k' then Some v else dict_get d k'.
Proof.
  induction d as [|[k0 v0] d IH]; simpl.
  - rewrite (String.eqb_sym k k'). reflexivity.
  - destruct (k0 =? k) eqn:E0; simpl.
    + apply String.eqb_eq in E0. subst k0.
      destruct (k =? k') eqn:E; [reflexivity | reflexivity].
    + destruct (k0 =? k') eqn:E1.
      * apply String.eqb_eq in E1. subst k0.
        rewrite String.eqb_sym in E0. now rewrite E0.
      * exact IH.
Qed.

Section Traversal.

Variable t : Tree.
Variable rank : node_ref -> nat.

(** The links stay inside the tree and run from a lower to a higher rank:
    the graph has no cycle. *)
Hypothesis feeds_ranked :
  forall m node, feeds t m node -> In m (t_nodes t) /\ rank m < rank node.

Lemma upstream_ranked (n node : node_ref) :
  upstream t n node -> In n (t_nodes t) /\ rank n < rank node.
Proof.
  induction 1 as [n node H | n m node _ [IHin IHr] H].
  - now apply feeds_ranked.
  - destruct (feeds_ranked _ _ H) as [_ Hr]. split; [exact IHin | lia].
Qed.

(** A closed list that holds the feeders of [node] holds everything
    upstream of [node]. *)
Lemma closed_holds_upstream (l : list node_ref) :
  (forall x y, In x l -> feeds t y x -> In y l) ->
  forall n node,
    upstream t n node ->
    (forall y, feeds t y node -> In y l) -> In n l.
Proof.
  intros Hclosed n node Hup.
  induction Hup as [n node H | n m node Hup IH H]; intros Hfeed.
  - now apply Hfeed.
  - apply IH. intros y Hy. apply (Hclosed m y); [now apply Hfeed | exact Hy].
Qed.

Lemma grows_refl (node : node_ref) (l : list node_ref) :
  grows_upstream t node l l.
Proof. split; [intros x Hx; exact Hx | intros x Hx; now left]. Qed.

Lemma grows_trans (node : node_ref) (l l1 l2 : list node_ref) :
  grows_upstream t node l l1 -> grows_upstream t node l1 l2 ->
  grows_upstream t node l l2.
Proof.
  intros [H1 H1'] [H2 H2']. split.
  - intros x Hx. apply H2. now apply H1.
  - intros x Hx. destruct (H2' _ Hx) as [H | H]; [now apply H1' | now right].
Qed.

Lemma grows_lift (m node : node_ref) (l l' : list node_ref) :
  feeds t m node -> grows_upstream t m l l' -> grows_upstream t node l l'.
Proof.
  intros Hm [H H']. split; [exact H |].
  intros x Hx. destruct (H' _ Hx) as [Hl | Hu]; [now left |].
  right. eapply upstream_step; eassumption.
Qed.

Lemma grows_snoc (m node : node_ref) (l : list node_ref) :
  feeds t m node -> grows_upstream t node l (l ++ [m]).
Proof.
  intros Hm. split.
  - intros x Hx. apply in_app_iff. now left.
  - intros x Hx. apply in_app_iff in Hx as [Hx | [<- | []]]; [now left |].
    right. now apply upstream_feeds.
Qed.

(** The first [if] of the loop body: the nested call and the append to
    [list], unless the node is in [list] already. *)
Lemma visit_new_node
    (nested : node_ref -> list node_ref -> list node_ref
              -> option (list node_ref * list node_ref))
    (node new_node : node_ref) (list_ linked_nodes : list node_ref) :
  feeds t new_node node ->
  traversal_invariant t list_ linked_nodes ->
  visit_ok t new_node list_ linked_nodes (nested new_node list_ linked_nodes) ->
  exists l1 k1,
    (if mem new_node list_ then Some (list_, linked_nodes)
     else match nested new_node list_ linked_nodes with
          | Some (l, k) => Some ((l ++ [new_node])%list, k)
          | None => None
          end) = Some (l1, k1)
    /\ NoDup l1 /\ NoDup k1 /\ incl l1 (new_node :: k1)
    /\ (forall x y, In x l1 -> feeds t y x -> In y l1)
    /\ grows_upstream t node list_ l1
    /\ grows_upstream t node linked_nodes k1
    /\ In new_node l1.
Proof.
  intros Hfeeds [Hnd [Hndk [Hsub Hclosed]]] Hvisit.
  destruct (mem new_node list_) eqn:Hmem.
  - apply mem_true_iff in Hmem. exists list_, linked_nodes.
    split; [reflexivity |]. split; [exact Hnd |]. split; [exact Hndk |].
    split; [intros x Hx; right; now apply Hsub |].
    split; [exact Hclosed |].
    split; [apply grows_refl |]. split; [apply grows_refl | exact Hmem].
  - apply mem_false_iff in Hmem.
    destruct Hvisit as [l1 [k1 [Hrun [[Hnd1 [Hndk1 [Hsub1 Hclosed1]]]
                                      [Hl1 [Hk1 Hfed1]]]]]].
    rewrite Hrun.
    assert (Hnew : ~ In new_node l1).
    { intros Hin. destruct Hl1 as [_ Hl1'].
      destruct (Hl1' _ Hin) as [H | H]; [now apply Hmem |].
      apply upstream_ranked in H. lia. }
    exists (l1 ++ [new_node])%list, k1.
    split; [reflexivity |]. split; [now apply NoDup_snoc |].
    split; [exact Hndk1 |].
    split.
    { intros x Hx. apply in_app_iff in Hx as [Hx | [<- | []]].
      - right. now apply Hsub1.
      - now left. }
    split.
    { intros x y Hx Hy. apply in_app_iff. left.
      apply in_app_iff in Hx as [Hx | [<- | []]].
      - eapply Hclosed1; eassumption.
      - now apply Hfed1. }
    split.
    { eapply grows_trans; [eapply grows_lift; eassumption |].
      now apply grows_snoc. }
    split; [eapply grows_lift; eassumption |].
    apply in_app_iff. right. now left.
Qed.

(** The second [if] of the loop body: the node joins [linked_nodes]
    unless it is there. *)
Lemma link_new_node (node new_node : node_ref) (l1 k1 : list node_ref) :
  feeds t new_node node ->
  NoDup l1 -> NoDup k1 -> incl l1 (new_node :: k1) ->
  (forall x y, In x l1 -> feeds t y x -> In y l1) ->
  let k2 := if mem new_node k1 then k1 else (k1 ++ [new_node])%list in
  traversal_invariant t l1 k2 /\ grows_upstream t node k1 k2.
Proof.
  intros Hfeeds Hnd1 Hndk1 Hsub1 Hclosed1. cbv zeta.
  destruct (mem new_node k1) eqn:Hmem.
  - apply mem_true_iff in Hmem. split; [| apply grows_refl].
    split; [exact Hnd1 |]. split; [exact Hndk1 |]. split; [| exact Hclosed1].
    intros x Hx. destruct (Hsub1 _ Hx) as [<- | H]; assumption.
  - apply mem_false_iff in Hmem. split; [| now apply grows_snoc].
    split; [exact Hnd1 |]. split; [now apply NoDup_snoc |].
    split; [| exact Hclosed1].
    intros x Hx. apply in_app_iff.
    destruct (Hsub1 _ Hx) as [<- | H]; [right; now left | now left].
Qed.

Lemma inputs_loop_ok
    (nested : node_ref -> list node_ref -> list node_ref
              -> option (list node_ref * list node_ref))
    (node : node_ref) :
  (forall m l k,
      feeds t m node -> traversal_invariant t l k ->
      visit_ok t m l k (nested m l k)) ->
  forall inputs list_ linked_nodes,
    incl inputs (n_inputs (node_at t node)) ->
    traversal_invariant t list_ linked_nodes ->
    exists list' linked',
      inputs_loop nested t inputs list_ linked_nodes = Some (list', linked')
      /\ traversal_invariant t list' linked'
      /\ grows_upstream t node list_ list'
      /\ grows_upstream t node linked_nodes linked'
      /\ (forall input link rest,
             In input inputs -> socket_links t input = link :: rest ->
             In (s_node (socket_at t (from_socket link))) list').
Proof.
  intros Hnested inputs.
  induction inputs as [|input inputs IH]; intros list_ linked_nodes Hincl Hinv.
  - exists list_, linked_nodes.
    split; [reflexivity |]. split; [exact Hinv |].
    split; [apply grows_refl |]. split; [apply grows_refl |].
    intros input link rest [].
  - assert (Hincl' : incl inputs (n_inputs (node_at t node))).
    { intros x Hx. apply Hincl. now right. }
    cbn [inputs_loop].
    destruct (socket_links t input) as [|link links] eqn:Hlinks.
    + destruct (IH list_ linked_nodes Hincl' Hinv)
        as [l' [k' [Hrun [Hinv' [Hl [Hk Hfed]]]]]].
      exists l', k'.
      split; [exact Hrun |]. split; [exact Hinv' |].
      split; [exact Hl |]. split; [exact Hk |].
      intros input' link' rest' [<- | Hin] Hlinks'; [congruence |].
      eapply Hfed; eassumption.
    + set (new_node := s_node (socket_at t (from_socket link))).
      assert (Hfeeds : feeds t new_node node).
      { exists input, link, links.
        split; [apply Hincl; now left |]. split; [exact Hlinks | reflexivity]. }
      destruct (visit_new_node nested node new_node list_ linked_nodes
                  Hfeeds Hinv (Hnested _ _ _ Hfeeds Hinv))
        as [l1 [k1 [Hrun1 [Hnd1 [Hndk1 [Hsub1 [Hclosed1 [Hl1 [Hk1 Hin1]]]]]]]]].
      rewrite Hrun1.
      destruct (link_new_node node new_node l1 k1 Hfeeds Hnd1 Hndk1 Hsub1
                  Hclosed1) as [Hinv2 Hk2].
      destruct (IH l1 _ Hincl' Hinv2)
        as [l' [k' [Hrun [Hinv' [Hl [Hk Hfed]]]]]].
      exists l', k'.
      split; [exact Hrun |]. split; [exact Hinv' |].
      split; [eapply grows_trans; eassumption |].
      split; [eapply grows_trans; [eassumption |];
              eapply grows_trans; eassumption |].
      intros input' link' rest' [<- | Hin] Hlinks'.
      * rewrite Hlinks in Hlinks'. injection Hlinks' as <- _.
        destruct Hl as [Hl _]. now apply Hl.
      * eapply Hfed; eassumption.
Qed.

(** With more fuel than the rank of the node, [add_node_inputs] returns;
    it keeps the invariant and leaves everything upstream of the node in
    [list]. *)
Lemma add_node_inputs_ok (fuel : nat) :
  forall node list_ linked_nodes,
    rank node < fuel ->
    traversal_invariant t list_ linked_nodes ->
    visit_ok t node list_ linked_nodes
      (add_node_inputs fuel t node list_ linked_nodes).
Proof.
  induction fuel as [|fuel IH]; intros node list_ linked_nodes Hrank Hinv;
    [lia |].
  cbn [add_node_inputs].
  destruct (inputs_loop_ok (add_node_inputs fuel t) node) with
    (inputs := n_inputs (node_at t node)) (list_ := list_)
    (linked_nodes := linked_nodes)
    as [l' [k' [Hrun [Hinv' [Hl [Hk Hfed]]]]]].
  - intros m l k Hm Hlk. apply IH; [| exact Hlk].
    apply feeds_ranked in Hm. lia.
  - intros x Hx. exact Hx.
  - exact Hinv.
  - exists l', k'.
    split; [exact Hrun |]. split; [exact Hinv' |].
    split; [exact Hl |]. split; [exact Hk |].
    intros y [input [link [rest [Hin [Hlinks ->]]]]].
    eapply Hfed; eassumption.
Qed.

Variable fuel : nat.

Hypothesis nodes_distinct : NoDup (t_nodes t).
Hypothesis fuel_enough : forall o, In o (output_nodes_of t) -> rank o < fuel.

(** The nodes that the compiler looks at all emit. *)
Hypothesis nodes_emit :
  forall node,
    In node (t_nodes t) -> compiled t node ->
    is_malt_node (node_at t node) = true ->
    emits fuel t node.

Lemma output_node_is_malt (o : node_ref) :
  is_output_node (node_at t o) = true -> is_malt_node (node_at t o) = true.
Proof.
  unfold is_output_node, is_malt_node, is_reroute.
  now destruct (n_kind (node_at t o)).
Qed.

Lemma output_nodes_in_tree (o : node_ref) :
  In o (output_nodes_of t) ->
  In o (t_nodes t) /\ is_output_node (node_at t o) = true.
Proof. intros H. unfold output_nodes_of in H. now apply filter_In in H. Qed.

Lemma compiled_in_tree (x : node_ref) : compiled t x -> In x (t_nodes t).
Proof.
  intros [H | [o [_ H]]].
  - now apply output_nodes_in_tree in H.
  - now apply upstream_ranked in H.
Qed.

Lemma nodes_code_total (l : list node_ref) :
  (forall x, In x l -> compiled t x) ->
  forall x, In x l ->
    exists c,
      (if is_malt_node (node_at t x) then
         code <- get_source_code fuel t (get_transpiler t) x ;;
         ret (code ++ String "010" "")
       else ret "") = Some (Ok c).
Proof.
  intros Hl x Hx. destruct (is_malt_node (node_at t x)) eqn:Hm.
  - destruct (nodes_emit x (compiled_in_tree x (Hl x Hx)) (Hl x Hx) Hm)
      as [code [_ [Hcode _]]].
    rewrite Hcode. cbn. eexists. reflexivity.
  - eexists. reflexivity.
Qed.

Lemma globals_code_total (l : list node_ref) :
  (forall x, In x l -> compiled t x) ->
  forall x, In x l ->
    exists c,
      (if is_malt_node (node_at t x) then
         get_source_global_parameters fuel t (get_transpiler t) x
       else ret "") = Some (Ok c).
Proof.
  intros Hl x Hx. destruct (is_malt_node (node_at t x)) eqn:Hm.
  - destruct (nodes_emit x (compiled_in_tree x (Hl x Hx)) (Hl x Hx) Hm)
      as [_ [globals [_ Hglobals]]].
    now exists globals.
  - eexists. reflexivity.
Qed.

(** The steps of the two loops over a list of nodes give the parts of
    the nodes. *)
Lemma nodes_code_parts (nodes : list node_ref) (code : string) :
  nodes_code fuel t (get_transpiler t) nodes = Some (Ok code) ->
  made_of (local_part fuel t) nodes code.
Proof.
  unfold nodes_code. apply for_code_made_of.
  intros x c _ H. unfold local_part.
  destruct (is_malt_node (node_at t x)).
  - apply bind_ok_inv in H as [code' [Hcode H]]. injection H as <-.
    now exists code'.
  - now injection H as <-.
Qed.

Lemma globals_code_parts (nodes : list node_ref) (globals : string) :
  globals_code fuel t (get_transpiler t) nodes = Some (Ok globals) ->
  made_of (global_part fuel t) nodes globals.
Proof.
  unfold globals_code. apply for_code_made_of.
  intros x c _ H. unfold global_part.
  destruct (is_malt_node (node_at t x)); [exact H | now injection H as <-].
Qed.

(** What [get_source] gives for one exit node. *)
Lemma get_source_ok (o : node_ref) (linked_nodes : list node_ref) :
  In o (output_nodes_of t) ->
  NoDup linked_nodes ->
  exists nodes code out linked',
    get_source fuel t (get_transpiler t) o linked_nodes
      = Some (Ok (code ++ out, linked'))
    /\ NoDup nodes
    /\ (forall x, In x nodes <-> upstream t x o)
    /\ made_of (local_part fuel t) nodes code
    /\ get_source_code fuel t (get_transpiler t) o = Some (Ok out)
    /\ NoDup linked' /\ grows_upstream t o linked_nodes linked'
    /\ (forall x, upstream t x o -> In x linked').
Proof.
  intros Hout Hnd.
  destruct (output_nodes_in_tree o Hout) as [Hin Hkind].
  assert (Hinv : traversal_invariant t [] linked_nodes).
  { split; [constructor |]. split; [exact Hnd |].
    split; [intros x [] | intros x y []]. }
  destruct (add_node_inputs_ok fuel o [] linked_nodes (fuel_enough o Hout) Hinv)
    as [nodes [linked' [Hrun [[Hnd1 [Hndk [Hsub Hclosed]]] [[_ Hl] [Hk Hfed]]]]]].
  assert (Hdown : forall x, In x nodes -> upstream t x o).
  { intros x Hx. now destruct (Hl x Hx) as [[] | H]. }
  assert (Hup : forall x, upstream t x o -> In x nodes).
  { intros x Hx. eapply closed_holds_upstream; eassumption. }
  assert (Hcompiled : forall x, In x nodes -> compiled t x).
  { intros x Hx. right. exists o. split; [exact Hout | now apply Hdown]. }
  destruct (for_code_total _ nodes (nodes_code_total nodes Hcompiled))
    as [code Hcode].
  destruct (nodes_emit o Hin (or_introl Hout) (output_node_is_malt o Hkind))
    as [out [_ [Ho _]]].
  exists nodes, code, out, linked'.
  split.
  { unfold get_source. rewrite Hrun. cbn.
    unfold nodes_code. rewrite Hcode. cbn. rewrite Ho. reflexivity. }
  split; [exact Hnd1 |].
  split; [intros x; split; [apply Hdown | apply Hup] |].
  split; [now apply nodes_code_parts |]. split; [exact Ho |].
  split; [exact Hndk |]. split; [exact Hk |].
  intros x Hx. apply Hsub. now apply Hup.
Qed.

Lemma sources_loop_ok (outs : list node_ref) :
  forall shader linked_nodes,
    incl outs (output_nodes_of t) ->
    NoDup (map (fun o => io_type_of (node_at t o)) outs) ->
    NoDup linked_nodes ->
    exists shader' linked',
      sources_loop fuel t (get_transpiler t) outs shader linked_nodes
        = Some (Ok (shader', linked'))
      /\ NoDup linked'
      /\ (forall x, In x linked' ->
            In x linked_nodes \/ exists o, In o outs /\ upstream t x o)
      /\ (forall x, In x linked_nodes -> In x linked')
      /\ (forall o x, In o outs -> upstream t x o -> In x linked')
      /\ (forall key,
            ~ In key (map (fun o => io_type_of (node_at t o)) outs) ->
            dict_get shader' key = dict_get shader key)
      /\ (forall o, In o outs -> source_entry fuel t shader' o).
Proof.
  induction outs as [|o outs IH]; intros shader linked_nodes Hout Hio Hnd.
  - exists shader, linked_nodes.
    split; [reflexivity |]. split; [exact Hnd |].
    split; [intros x Hx; now left |]. split; [intros x Hx; exact Hx |].
    split; [intros o x [] |]. split; [reflexivity | intros o []].
  - destruct (get_source_ok o linked_nodes (Hout o (or_introl eq_refl)) Hnd)
      as [nodes [code [out [k1 [Hrun [Hnd1 [Hnodes [Hcode [Ho
                                [Hndk [[Hk Hk'] Hupk]]]]]]]]]]].
    inversion Hio as [|io ios Hnotin Hio']. subst.
    destruct (IH (dict_set shader (io_type_of (node_at t o)) (code ++ out)) k1)
      as [shader' [k' [Hrun' [Hndk' [Hk1' [Hk1 [Hupk' [Hkeys Hentries]]]]]]]].
    { intros x Hx. apply Hout. now right. }
    { exact Hio'. }
    { exact Hndk. }
    exists shader', k'.
    split.
    { cbn [sources_loop]. rewrite Hrun. cbn. exact Hrun'. }
    split; [exact Hndk' |].
    split.
    { intros x Hx. destruct (Hk1' x Hx) as [H | [o' [Ho' H]]].
      - destruct (Hk' x H) as [H' | H']; [now left |].
        right. exists o. split; [now left | exact H'].
      - right. exists o'. split; [now right | exact H]. }
    split; [intros x Hx; apply Hk1; now apply Hk |].
    split.
    { intros o' x [<- | Ho'] Hx; [apply Hk1; now apply Hupk |].
      eapply Hupk'; eassumption. }
    split.
    { intros key Hkey. rewrite Hkeys.
      - rewrite dict_get_set.
        destruct (io_type_of (node_at t o) =? key) eqn:E; [| reflexivity].
        apply String.eqb_eq in E. exfalso. apply Hkey. now left.
      - intros H. apply Hkey. now right. }
    intros o' [<- | Ho'].
    + exists nodes, code, out.
      split; [exact Hnd1 |]. split; [exact Hnodes |].
      split; [exact Hcode |]. split; [exact Ho |].
      rewrite (Hkeys _ Hnotin), dict_get_set, String.eqb_refl. reflexivity.
    + now apply Hentries.
Qed.

Hypothesis boundaries_distinct :
  NoDup (map (fun o => io_type_of (node_at t o)) (output_nodes_of t)).
Hypothesis boundaries_not_global :
  ~ In "GLOBAL" (map (fun o => io_type_of (node_at t o)) (output_nodes_of t)).


End Traversal.


(** Scenario E on the tree of the witness: the uniform of the function
    node is declared once, and its call is in the text of both exits. *)
Example shared_tree_source :
  get_generated_source 4 Examples.shared_tree
  = Some (Ok [("A", "float _f_0_result = f(U_0_f_0_a);" ++ String "010" ""
                    ++ String "010" "" ++ "x = _f_0_result;" ++ String "010" "");
              ("B", "float _f_0_result = f(U_0_f_0_a);" ++ String "010" ""
                    ++ String "010" "" ++ "y = _f_0_result;" ++ String "010" "");
              ("GLOBAL", "uniform float U_0_f_0_a;" ++ String "010" "")]).
Proof. reflexivity. Qed.

(* ================================================================== *)
(** * Further properties: source names and mangling *)

Lemma all_chars_impl (p q : ascii -> bool) (s : string) :
  (forall c, p c = true -> q c = true) ->
  Str.all_chars p s = true -> Str.all_chars q s = true.
Proof.
  intros Hpq. induction s as [|c s IH]; simpl; [reflexivity |].
  intros H. apply andb_true_iff in H as [Hc Hs].
  now rewrite (Hpq c Hc), IH.
Qed.

Lemma filter_chars_all (p : ascii -> bool) (s : string) :
  Str.all_chars p s = true -> Str.filter_chars p s = s.
Proof.
  induction s as [|c s IH]; simpl; [reflexivity |].
  intros H. apply andb_true_iff in H as [Hc Hs]. now rewrite Hc, IH.
Qed.

(** Nothing is replaced in a string that lacks the first character of
    the pattern. *)
Lemma replace_from_absent (x : ascii) (old new s : string) :
  Str.all_chars (fun c => negb (Ascii.eqb c x)) s = true ->
  Str.replace_from (String x old) new 0 s = s.
Proof.
  induction s as [|c s IH]; [reflexivity |].
  simpl Str.all_chars. intros H. apply andb_true_iff in H as [Hc Hs].
  cbn [Str.replace_from prefix].
  destruct (ascii_dec x c) as [-> | Hne].
  - now rewrite Ascii.eqb_refl in Hc.
  - now rewrite IH.
Qed.

Lemma isalnum_not_dot_underscore (c : ascii) :
  Str.isalnum c = true ->
  negb (Ascii.eqb c ".") = true /\ negb (Ascii.eqb c "_") = true.
Proof.
  intros H. split; apply negb_true_iff, Ascii.eqb_neq; intros ->;
    discriminate H.
Qed.

(** X1: a name made of alphanumeric characters only is kept as it is,
    behind one underscore. *)
Theorem get_source_name_alphanumeric (name : string) :
  Str.all_chars Str.isalnum name = true ->
  get_source_name name = String "_" name.
Proof.
  intros H. unfold get_source_name, Str.replace.
  rewrite (replace_from_absent "." "" "_" name);
    [| apply (all_chars_impl Str.isalnum); [| exact H];
       intros c Hc; now apply isalnum_not_dot_underscore].
  rewrite filter_chars_all;
    [| apply (all_chars_impl Str.isalnum); [| exact H];
       intros c Hc; now rewrite Hc].
  change ("_" ++ name) with (String "_" name).
  assert (Hno : Str.all_chars (fun c => negb (Ascii.eqb c "_")) name = true).
  { apply (all_chars_impl Str.isalnum); [| exact H].
    intros c Hc. now apply isalnum_not_dot_underscore. }
  cbn [Str.replace_from].
  assert (Hp : prefix "__" (String "_" name) = false).
  { destruct name as [|c name]; [reflexivity |].
    simpl in Hno. apply andb_true_iff in Hno as [Hc _].
    cbn [prefix]. destruct (ascii_dec "_" "_") as [_ | Hne]; [| congruence].
    destruct (ascii_dec "_" c) as [<- | Hne]; [discriminate Hc | reflexivity]. }
  rewrite Hp. f_equal. now apply replace_from_absent.
Qed.

Lemma get_source_name_alphanumeric_witness :
  get_source_name "Mix2" = String "_" "Mix2".
Proof. exact (get_source_name_alphanumeric "Mix2" eq_refl). Defined.

(** The characters of a source name, and its first character. *)
Lemma source_name_chars (name : string) :
  Str.all_chars (fun c => Str.isalnum c || Ascii.eqb c "_")
    (get_source_name name) = true.
Proof.
  unfold get_source_name, Str.replace.
  apply all_chars_replace_from; [reflexivity |].
  change ("_" ++ ?s) with (String "_" s). cbn [Str.all_chars].
  now rewrite all_chars_filter.
Qed.

Lemma source_name_leading (name : string) :
  exists rest, get_source_name name = String "_" rest.
Proof.
  unfold get_source_name.
  change ("_" ++ ?s) with (String "_" s).
  apply replace_keeps_leading_underscore.
Qed.

(** X2: in the GLSL text the identifier of a uniform is never the
    identifier of the local of a node, whatever the names of the nodes
    and of the sockets. *)
Theorem uniform_never_clashes_with_local (n1 s1 n2 s2 : string) :
  GLSLTranspiler.global_reference (get_source_name n1) s1
  <> GLSLTranspiler.parameter_reference (get_source_name n2) s2.
Proof.
  unfold GLSLTranspiler.global_reference, GLSLTranspiler.parameter_reference.
  destruct (source_name_leading n2) as [rest ->]. simpl. discriminate.
Qed.

Lemma append_inv_tail (a b c : string) : a ++ c = b ++ c -> a = b.
Proof.
  intros H.
  assert (Hlen : String.length a = String.length b).
  { apply (f_equal String.length) in H. rewrite !append_length in H. lia. }
  now destruct (append_inv_length _ _ _ _ Hlen H).
Qed.

(** Two texts cut at the first occurrence of a character agree part by
    part. *)
Lemma split_at_first (c : ascii) (a a' b b' : string) :
  Str.all_chars (fun x => negb (Ascii.eqb x c)) a = true ->
  Str.all_chars (fun x => negb (Ascii.eqb x c)) a' = true ->
  a ++ String c b = a' ++ String c b' -> a = a' /\ b = b'.
Proof.
  revert a'. induction a as [|x a IH]; intros [|y a'] Ha Ha' H; simpl in *.
  - injection H as <-. now split.
  - injection H as <- _. apply andb_true_iff in Ha' as [Hy _].
    now rewrite Ascii.eqb_refl in Hy.
  - injection H as -> _. apply andb_true_iff in Ha as [Hx _].
    now rewrite Ascii.eqb_refl in Hx.
  - injection H as <- H.
    apply andb_true_iff in Ha as [_ Ha]. apply andb_true_iff in Ha' as [_ Ha'].
    destruct (IH a' Ha Ha' H) as [-> ->]. now split.
Qed.

Lemma source_name_lacks (c : ascii) (name : string) :
  Str.isalnum c || Ascii.eqb c "_" = false ->
  Str.all_chars (fun x => negb (Ascii.eqb x c)) (get_source_name name) = true.
Proof.
  intros Hc.
  apply (all_chars_impl (fun c => Str.isalnum c || Ascii.eqb c "_"));
    [| apply source_name_chars].
  intros x Hx. apply negb_true_iff, Ascii.eqb_neq. intros ->. congruence.
Qed.

(** X3: the Python backend keeps apart what the GLSL backend confuses:
    two references are the same text only for the same sanitized node
    name and the same socket name. *)
Theorem python_mangling_injective (n1 s1 n2 s2 : string) :
  (PythonTranspiler.parameter_reference (get_source_name n1) s1
   = PythonTranspiler.parameter_reference (get_source_name n2) s2 ->
   get_source_name n1 = get_source_name n2 /\ s1 = s2)
  /\ (PythonTranspiler.global_reference (get_source_name n1) s1
      = PythonTranspiler.global_reference (get_source_name n2) s2 ->
      get_source_name n1 = get_source_name n2 /\ s1 = s2).
Proof.
  split; intros H.
  - unfold PythonTranspiler.parameter_reference, dq in H.
    change ("_parameters[" ++ ?x) with ("_parameters" ++ String "[" x) in H.
    rewrite <- !append_assoc in H.
    apply (split_at_first "[") in H as [Hn Hs].
    + apply append_inv_tail in Hn. split; [exact Hn |].
      simpl in Hs. injection Hs as Hs.
      apply append_inv_tail in Hs. now apply append_inv_tail in Hs.
    + rewrite all_chars_append, (source_name_lacks "[" n1); reflexivity.
    + rewrite all_chars_append, (source_name_lacks "[" n2); reflexivity.
  - unfold PythonTranspiler.global_reference, dq in H.
    apply append_inv_head in H. simpl in H. injection H as H.
    apply (split_at_first "034") in H as [Hn Hs];
      [| now apply source_name_lacks | now apply source_name_lacks].
    split; [exact Hn |].
    simpl in Hs. injection Hs as Hs. now apply append_inv_tail in Hs.
Qed.

(* ================================================================== *)
(** * Further properties: the calls of the two backends *)

Lemma out_beyond_iff (ps : list ParameterDesc) (n : nat) :
  CallErrors.out_beyond ps n <-> existsb io_is_out (skipn n ps) = true.
Proof.
  unfold CallErrors.out_beyond. rewrite existsb_exists. split.
  - intros [i [p [Hi [Hp Hle]]]]. exists p. split; [| exact Hp].
    apply (nth_error_In _ (i - n)). rewrite nth_error_skipn.
    now replace (n + (i - n)) with i by lia.
  - intros [p [Hin Hp]]. apply In_nth_error in Hin as [j Hj].
    rewrite nth_error_skipn in Hj. exists (n + j), p.
    split; [exact Hj |]. split; [exact Hp | lia].
Qed.

Lemma nth_error_beyond {A} (l : list A) (i : nat) :
  List.length l <= i -> nth_error l i = None.
Proof. intros H. now apply nth_error_None. Qed.

(** The loop of the GLSL [call] once the arguments are used up. *)
Lemma call_loop_exhausted (name : string) (ps : list ParameterDesc) :
  forall i src parameters,
    List.length parameters <= i ->
    match GLSLTranspiler.call_loop name ps i src parameters with
    | Raise e => e = IndexError /\ existsb io_is_out ps = true
    | Ok (_, l) => existsb io_is_out ps = false /\ l = parameters
    end.
Proof.
  induction ps as [|p ps IH]; intros i src parameters Hlen; simpl.
  - now split.
  - destruct (io_is_out p) eqn:Hp; simpl.
    + rewrite (nth_error_beyond parameters i Hlen). now split.
    + apply IH. lia.
Qed.

Lemma call_loop_outcome (name : string) (ps : list ParameterDesc) :
  forall arguments done src,
    match GLSLTranspiler.call_loop name ps (List.length done) src
            (done ++ arguments) with
    | Raise e =>
        e = IndexError
        /\ existsb io_is_out (skipn (List.length arguments) ps) = true
    | Ok (_, l) =>
        existsb io_is_out (skipn (List.length arguments) ps) = false
        /\ l = (done ++ CallErrors.rewritten name ps arguments)%list
    end.
Proof.
  induction ps as [|p ps IH]; intros arguments done src.
  - simpl. rewrite skipn_nil. split; [reflexivity |].
    now destruct arguments.
  - destruct arguments as [|a arguments].
    + pose proof (call_loop_exhausted name (p :: ps) (List.length done) src
                    (done ++ [])%list) as H.
      destruct (GLSLTranspiler.call_loop name (p :: ps) (List.length done) src
                  (done ++ [])%list) as [[s l] | e].
      * apply H. rewrite app_nil_r. lia.
      * apply H. rewrite app_nil_r. lia.
    + cbn [GLSLTranspiler.call_loop CallErrors.rewritten List.length skipn].
      destruct (io_is_out p) eqn:Hp.
      * rewrite nth_error_middle, list_set_middle.
        specialize (IH arguments
                      (done ++ [Some (GLSLTranspiler.parameter_reference name
                                        (p_name p))])%list
                      (src ++ GLSLTranspiler.declaration (p_type p) (p_size p)
                                (Some (GLSLTranspiler.parameter_reference name
                                         (p_name p))) a)).
        rewrite length_app, Nat.add_comm in IH. simpl in IH.
        rewrite <- !app_assoc in IH. exact IH.
      * specialize (IH arguments (done ++ [a])%list src).
        rewrite length_app, Nat.add_comm in IH. simpl in IH.
        rewrite <- !app_assoc in IH. exact IH.
Qed.

Lemma join_items_outcome (l : list pystr) :
  match Str.join_items l with
  | Ok _ => ~ In None l
  | Raise e => e = TypeError /\ In None l
  end.
Proof.
  induction l as [|[s|] l IH]; simpl.
  - intros [].
  - destruct (Str.join_items l) as [r | e]; simpl.
    + intros [H | H]; [discriminate | now apply IH].
    + destruct IH as [-> IH]. split; [reflexivity | now right].
  - split; [reflexivity | now left].
Qed.

Lemma rewritten_none (name : string) (ps : list ParameterDesc) :
  forall arguments,
    In None (CallErrors.rewritten name ps arguments)
    <-> CallErrors.none_passed ps arguments.
Proof.
  unfold CallErrors.none_passed.
  induction ps as [|p ps IH]; intros arguments.
  - replace (CallErrors.rewritten name [] arguments) with arguments
      by now destruct arguments.
    split.
    + intros H. apply In_nth_error in H as [i Hi]. exists i.
      split; [exact Hi |]. now destruct i.
    + intros [i [Hi _]]. eapply nth_error_In. exact Hi.
  - destruct arguments as [|a arguments]; simpl.
    + split; [intros [] | intros [[|i] [Hi _]]; discriminate Hi].
    + rewrite IH. split.
      * intros [H | [i [Hi Hp]]].
        -- exists 0. destruct (io_is_out p) eqn:Hp; [discriminate H |].
           subst a. simpl. now split.
        -- exists (S i). now split.
      * intros [[|i] [Hi Hp]]; simpl in *.
        -- left. injection Hi as ->. now rewrite Hp.
        -- right. exists i. now split.
Qed.

(** X4: the GLSL [call] raises an [IndexError] exactly when an out or
    inout parameter has no argument; failing that, a [TypeError] exactly
    when a [None] is passed where no out or inout parameter replaces it;
    and in every other case it returns its text. *)
Theorem glsl_call_outcome (function : FunctionDesc) (name : string)
    (arguments : list pystr) :
  let ps := f_parameters function in
  (GLSLTranspiler.call function name arguments = Raise IndexError
   <-> CallErrors.out_beyond ps (List.length arguments))
  /\ (GLSLTranspiler.call function name arguments = Raise TypeError
      <-> ~ CallErrors.out_beyond ps (List.length arguments)
          /\ CallErrors.none_passed ps arguments)
  /\ ((exists src, GLSLTranspiler.call function name arguments = Ok src)
      <-> ~ CallErrors.out_beyond ps (List.length arguments)
          /\ ~ CallErrors.none_passed ps arguments).
Proof.
  cbv zeta. rewrite out_beyond_iff.
  rewrite <- (rewritten_none name (f_parameters function) arguments).
  unfold GLSLTranspiler.call.
  pose proof (call_loop_outcome name (f_parameters function) arguments [] "")
    as Hloop.
  simpl in Hloop.
  destruct (GLSLTranspiler.call_loop name (f_parameters function) 0 ""
              arguments) as [[src l] | e]; cbn [rbind].
  - destruct Hloop as [Hout ->]. rewrite Hout.
    unfold Str.join.
    pose proof (join_items_outcome
                  (CallErrors.rewritten name (f_parameters function) arguments))
      as Hjoin.
    destruct (Str.join_items
                (CallErrors.rewritten name (f_parameters function) arguments))
      as [items | e]; cbn [rbind].
    + split; [| split].
      * split; [| discriminate].
        destruct (negb (f_type function =? "void")
                  && GLSLTranspiler.is_instantiable_type (f_type function));
          discriminate.
      * split; [| intros [_ H]; contradiction].
        destruct (negb (f_type function =? "void")
                  && GLSLTranspiler.is_instantiable_type (f_type function));
          discriminate.
      * split; [intros _; split; [discriminate | exact Hjoin] |].
        intros _.
        destruct (negb (f_type function =? "void")
                  && GLSLTranspiler.is_instantiable_type (f_type function));
          eexists; reflexivity.
    + destruct Hjoin as [-> Hnone]. split; [| split].
      * split; discriminate.
      * split; [intros _; split; [discriminate | exact Hnone] | reflexivity].
      * split; [intros [s Hs]; discriminate Hs | intros [_ H]; contradiction].
  - destruct Hloop as [-> Hout]. rewrite Hout. split; [| split].
    + split; reflexivity.
    + split; [discriminate | intros [H _]; now contradiction H].
    + split; [intros [s Hs]; discriminate Hs | intros [H _]; now contradiction H].
Qed.

Lemma python_call_loop_outcome (name : string) (ps : list ParameterDesc) :
  forall i src parameters,
    i <= List.length parameters ->
    (i + List.length ps <= List.length parameters ->
     exists s, PythonTranspiler.call_loop name ps i src parameters = Ok s)
    /\ (List.length parameters < i + List.length ps ->
        PythonTranspiler.call_loop name ps i src parameters = Raise IndexError).
Proof.
  induction ps as [|p ps IH]; intros i src parameters Hi; simpl.
  - split; [intros _; now eexists | lia].
  - destruct (nth_error parameters i) as [a|] eqn:Ha.
    + assert (Hlt : i < List.length parameters)
        by (apply nth_error_Some; congruence).
      destruct (IH (S i)
                  (src ++ PythonTranspiler.parameter_reference name (p_name p)
                       ++ " = " ++ match a with None => "None" | Some e => e end
                       ++ String "010" "") parameters Hlt) as [Hok Herr].
      split; intros H; [apply Hok | apply Herr]; lia.
    + apply nth_error_None in Ha. split; [lia | reflexivity].
Qed.

(** X5: the Python [call] returns its text whenever there is an
    argument for every parameter, [None] arguments included, and raises
    an [IndexError] when the arguments are fewer than the parameters. *)
Theorem python_call_outcome (function : FunctionDesc) (name : string)
    (arguments : list pystr) :
  (List.length (f_parameters function) <= List.length arguments ->
   exists src, PythonTranspiler.call function name arguments = Ok src)
  /\ (List.length arguments < List.length (f_parameters function) ->
      PythonTranspiler.call function name arguments = Raise IndexError).
Proof.
  unfold PythonTranspiler.call.
  destruct (python_call_loop_outcome name (f_parameters function) 0
              (name ++ "_parameters = {}" ++ String "010" "") arguments
              (Nat.le_0_l _)) as [Hok Herr].
  split; intros H.
  - destruct (Hok H) as [s ->]. cbn [rbind]. now eexists.
  - now rewrite (Herr H).
Qed.

(* ================================================================== *)
(** * Further properties: source references *)

(** The node classes never give [None] as a reference. *)
Lemma get_source_socket_reference_some (fuel : nat) (t : Tree)
    (node : node_ref) (socket : socket_ref) (v : pystr) :
  get_source_socket_reference fuel t node socket = Some (Ok v) ->
  exists text, v = Some text.
Proof.
  destruct fuel as [|fuel]; [discriminate |].
  cbn [get_source_socket_reference].
  destruct (n_kind (node_at t node)) as [struct_type | | | | |].
  - destruct (s_name (socket_at t socket) =? struct_type);
      intros H; injection H as <-; now eexists.
  - destruct (get_transpiler t) as [transpiler|]; [| discriminate].
    destruct (is_instantiable_type transpiler (s_data_type (socket_at t socket))).
    + intros H. injection H as <-. now eexists.
    + intros H.
      apply bind_ok_inv in H as [source [_ H]].
      apply bind_ok_inv in H as [line [_ H]].
      apply bind_ok_inv in H as [rhs [_ H]].
      apply bind_ok_inv in H as [expr [_ H]].
      injection H as <-. now eexists.
  - destruct (get_transpiler t); [| discriminate].
    intros H. injection H as <-. now eexists.
  - intros H. injection H as <-. now eexists.
  - intros H. injection H as <-. now eexists.
  - discriminate.
Qed.

(** X6: a source reference is [None] only for a linked input of an
    opaque type: every other socket that gets a reference gets a text. *)
Theorem get_source_reference_none_only_for_linked_opaque
    (fuel : nat) (t : Tree) (socket : socket_ref) :
  get_source_reference fuel t socket = Some (Ok None) ->
  socket_is_instantiable_type t socket = false
  /\ s_is_output (socket_at t socket) = false
  /\ exists linked, get_linked (Nat.pred fuel) t socket = Some (Some linked).
Proof.
  destruct fuel as [|fuel]; [discriminate |].
  cbn [get_source_reference Nat.pred].
  destruct (socket_is_instantiable_type t socket) eqn:Hinst; cbn [negb andb].
  - intros H. apply get_source_socket_reference_some in H as [text H].
    discriminate H.
  - destruct (s_is_output (socket_at t socket)) eqn:Hout; cbn [negb].
    + intros H. apply get_source_socket_reference_some in H as [text H].
      discriminate H.
    + intros H. apply bind_ok_inv in H as [linked [Hl H]].
      destruct linked as [linked|].
      * split; [reflexivity |]. split; [reflexivity |]. exists linked.
        unfold lift_fuel in Hl.
        destruct (get_linked fuel t socket) as [r|]; [| discriminate].
        simpl in Hl. now injection Hl as ->.
      * apply get_source_socket_reference_some in H as [text H].
        discriminate H.
Qed.

Lemma get_source_reference_none_only_for_linked_opaque_witness :
  socket_is_instantiable_type Examples.sampler_tree 1 = false
  /\ s_is_output (socket_at Examples.sampler_tree 1) = false
  /\ exists linked,
       get_linked (Nat.pred 4) Examples.sampler_tree 1 = Some (Some linked).
Proof.
  exact (get_source_reference_none_only_for_linked_opaque
           4 Examples.sampler_tree 1 eq_refl).
Defined.

(* ================================================================== *)
(** * Further properties: setup_sockets *)

Lemma dict_get_none_iff {V} (d : list (string * V)) (k : string) :
  dict_get d k = None <-> ~ In k (map fst d).
Proof.
  induction d as [|[k' v] d IH]; simpl; [tauto |].
  destruct (k' =? k) eqn:E.
  - apply String.eqb_eq in E. subst. split; [discriminate | tauto].
  - apply String.eqb_neq in E. rewrite IH. tauto.
Qed.

Lemma keys_dict_set {V} (d : list (string * V)) (k : string) (v : V) :
  map fst (dict_set d k v)
  = if existsb (String.eqb k) (map fst d) then map fst d
    else (map fst d ++ [k])%list.
Proof.
  induction d as [|[k' v'] d IH]; simpl; [reflexivity |].
  rewrite (String.eqb_sym k k').
  destruct (k' =? k) eqn:E; simpl.
  - apply String.eqb_eq in E. now subst.
  - rewrite IH. now destruct (existsb (String.eqb k) (map fst d)).
Qed.

Lemma dict_set_same {V} (d : list (string * V)) (k : string) (v : V) :
  dict_get d k = Some v -> dict_set d k v = d.
Proof.
  induction d as [|[k' v'] d IH]; simpl; [discriminate |].
  destruct (k' =? k) eqn:E.
  - apply String.eqb_eq in E. intros H. injection H as ->. now subst.
  - intros H. now rewrite IH.
Qed.

(** Lookup after the assignments of a schema with distinct names. *)
Lemma dict_get_fold_set (new : Schema) :
  NoDup (map fst new) ->
  forall (acc : Schema) (name : string),
    dict_get (fold_left (fun current e => dict_set current (fst e) (snd e))
                new acc) name
    = match dict_get new name with
      | Some v => Some v
      | None => dict_get acc name
      end.
Proof.
  induction new as [|[k v] new IH]; intros Hnd acc name; simpl in *;
    [reflexivity |].
  inversion Hnd as [|? ? Hk Hnd']. subst.
  rewrite (IH Hnd'), dict_get_set.
  destruct (k =? name) eqn:E.
  - apply String.eqb_eq in E. subst name.
    apply dict_get_none_iff in Hk. now rewrite Hk.
  - reflexivity.
Qed.

Lemma dict_get_filter_keys {V} (p : string -> bool) (d : list (string * V))
    (k : string) :
  dict_get (filter (fun e => p (fst e)) d) k
  = if p k then dict_get d k else None.
Proof.
  induction d as [|[k' v] d IH]; simpl; [now destruct (p k) |].
  destruct (p k') eqn:Hp; simpl.
  - destruct (k' =? k) eqn:E; [| exact IH].
    apply String.eqb_eq in E. subst. now rewrite Hp.
  - rewrite IH. destruct (k' =? k) eqn:E; [| reflexivity].
    apply String.eqb_eq in E. subst. now rewrite Hp.
Qed.

Lemma applied_lookup (current new : Schema) (name : string) :
  NoDup (map fst new) ->
  dict_get (schema_applied current new) name = dict_get new name.
Proof.
  intros Hnd. unfold schema_applied. rewrite (dict_get_fold_set new Hnd).
  destruct (dict_get new name) as [v|] eqn:E; [reflexivity |].
  rewrite (dict_get_filter_keys
             (fun k => match dict_get new k with Some _ => true | None => false end)).
  now rewrite E.
Qed.

Lemma existsb_eqb_In (k : string) (l : list string) :
  existsb (String.eqb k) l = true <-> In k l.
Proof.
  rewrite existsb_exists. split.
  - intros [x [Hx E]]. apply String.eqb_eq in E. now subst.
  - intros H. exists k. split; [exact H | apply String.eqb_refl].
Qed.

Lemma keys_fold_set (new : Schema) :
  NoDup (map fst new) ->
  forall acc : Schema,
    map fst (fold_left (fun current e => dict_set current (fst e) (snd e))
               new acc)
    = (map fst acc
       ++ filter (fun k => negb (existsb (String.eqb k) (map fst acc)))
            (map fst new))%list.
Proof.
  induction new as [|[k v] new IH]; intros Hnd acc; simpl in *.
  - now rewrite app_nil_r.
  - inversion Hnd as [|? ? Hk Hnd']. subst.
    rewrite (IH Hnd'), keys_dict_set.
    destruct (existsb (String.eqb k) (map fst acc)) eqn:E; simpl.
    + reflexivity.
    + rewrite <- app_assoc. simpl. do 2 f_equal.
      apply filter_ext_in. intros x Hx.
      rewrite existsb_app. simpl. rewrite orb_false_r.
      destruct (x =? k) eqn:Exk; [| now rewrite orb_false_r].
      apply String.eqb_eq in Exk. subst. contradiction.
Qed.

Lemma in_schema_get (new : Schema) (k : string) :
  In k (map fst new) <->
  match dict_get new k with Some _ => true | None => false end = true.
Proof.
  destruct (dict_get new k) as [v|] eqn:E.
  - split; [reflexivity |]. intros _.
    destruct (in_dec string_dec k (map fst new)) as [H | H]; [exact H |].
    apply dict_get_none_iff in H. congruence.
  - apply dict_get_none_iff in E. split; [contradiction | discriminate].
Qed.

Lemma applied_keys (current new : Schema) :
  NoDup (map fst new) ->
  map fst (schema_applied current new)
  = (filter (fun k => existsb (String.eqb k) (map fst new)) (map fst current)
     ++ filter (fun k => negb (existsb (String.eqb k) (map fst current)))
          (map fst new))%list.
Proof.
  intros Hnd. unfold schema_applied. rewrite (keys_fold_set new Hnd).
  set (keep := fun e : string * (string * Z) =>
                 match dict_get new (fst e) with
                 | Some _ => true
                 | None => false
                 end).
  assert (Hkept : map fst (filter keep current)
                  = filter (fun k => existsb (String.eqb k) (map fst new))
                      (map fst current)).
  { induction current as [|[k v] current IH]; simpl; [reflexivity |].
    unfold keep at 1. simpl.
    destruct (dict_get new k) as [w|] eqn:E.
    - assert (Hin : existsb (String.eqb k) (map fst new) = true).
      { apply existsb_eqb_In, in_schema_get. now rewrite E. }
      rewrite Hin. simpl. now rewrite IH.
    - assert (Hin : existsb (String.eqb k) (map fst new) = false).
      { apply not_true_is_false. intros H.
        apply existsb_eqb_In, in_schema_get in H. now rewrite E in H. }
      now rewrite Hin. }
  rewrite Hkept. f_equal. apply filter_ext_in. intros k Hk. f_equal.
  apply eq_true_iff_eq. rewrite !existsb_eqb_In, filter_In.
  rewrite existsb_eqb_In. tauto.
Qed.

Lemma filter_all {A} (f : A -> bool) (l : list A) :
  (forall x, In x l -> f x = true) -> filter f l = l.
Proof.
  induction l as [|x l IH]; intros H; simpl; [reflexivity |].
  rewrite (H x (or_introl eq_refl)), IH; [reflexivity |].
  intros y Hy. apply H. now right.
Qed.

Lemma dict_get_in (new : Schema) (e : string * (string * Z)) :
  NoDup (map fst new) -> In e new -> dict_get new (fst e) = Some (snd e).
Proof.
  induction new as [|[k v] new IH]; intros Hnd Hin; simpl in *;
    [contradiction |].
  destruct Hin as [<- | Hin]; simpl.
  - now rewrite String.eqb_refl.
  - inversion Hnd as [|? ? Hk Hnd']. subst.
    destruct (k =? fst e) eqn:E; [| now apply IH].
    apply String.eqb_eq in E. subst k. exfalso. apply Hk.
    now apply in_map.
Qed.

Lemma fold_set_fixed (new d : Schema) :
  (forall e, In e new -> dict_get d (fst e) = Some (snd e)) ->
  fold_left (fun current e => dict_set current (fst e) (snd e)) new d = d.
Proof.
  induction new as [|e new IH]; intros H; simpl; [reflexivity |].
  rewrite (dict_set_same d (fst e) (snd e)); [| apply H; now left].
  apply IH. intros x Hx. apply H. now right.
Qed.

Lemma applied_fixed (current new : Schema) :
  NoDup (map fst new) ->
  schema_applied (schema_applied current new) new = schema_applied current new.
Proof.
  intros Hnd. unfold schema_applied at 1.
  rewrite filter_all.
  - apply fold_set_fixed. intros e He.
    rewrite (applied_lookup current new (fst e) Hnd). now apply dict_get_in.
  - intros e He.
    assert (Hk : In (fst e) (map fst (schema_applied current new)))
      by now apply in_map.
    rewrite (applied_keys current new Hnd) in Hk.
    apply in_schema_get.
    apply in_app_iff in Hk as [Hk | Hk]; apply filter_In in Hk as [Hk1 Hk2].
    + now apply existsb_eqb_In.
    + exact Hk1.
Qed.

Lemma applied_keys_distinct (current new : Schema) :
  NoDup (map fst current) -> NoDup (map fst new) ->
  NoDup (map fst (schema_applied current new)).
Proof.
  intros Hc Hn. rewrite (applied_keys current new Hn).
  apply NoDup_app.
  - now apply NoDup_filter.
  - now apply NoDup_filter.
  - intros k Hk Hk'. apply filter_In in Hk as [Hk _].
    apply filter_In in Hk' as [_ Hk']. apply negb_true_iff in Hk'.
    apply existsb_eqb_In in Hk. congruence.
Qed.

(** ** The loops of [setup] on a collection of distinct names *)

Lemma has_key_In {V} (d : list (string * V)) (k : string) :
  has_key d k = true <-> In k (map fst d).
Proof.
  unfold has_key. rewrite existsb_exists. split.
  - intros [e [He E]]. apply String.eqb_eq in E. subst. now apply in_map.
  - intros H. apply in_map_iff in H as [e [<- He]].
    exists e. split; [exact He | apply String.eqb_refl].
Qed.

Lemma keys_filter_distinct {V} (f : string * V -> bool)
    (d : list (string * V)) :
  NoDup (map fst d) -> NoDup (map fst (filter f d)).
Proof.
  induction d as [|e d IH]; intros H; simpl; [constructor |].
  inversion H as [|? ? Hk Hd]. subst.
  destruct (f e); simpl; [| now apply IH].
  constructor; [| now apply IH].
  intros Hin. apply Hk. apply in_map_iff in Hin as [x [Hx Hin]].
  apply filter_In in Hin as [Hin _]. rewrite <- Hx. now apply in_map.
Qed.

Lemma remove_first_filter (name : string) (current : Sockets) :
  NoDup (map fst current) ->
  remove_first name current
  = filter (fun e => negb (fst e =? name)) current.
Proof.
  induction current as [|e current IH]; intros H; simpl; [reflexivity |].
  inversion H as [|? ? Hk Hd]. subst.
  destruct (fst e =? name) eqn:E; simpl.
  - apply String.eqb_eq in E. symmetry. apply filter_all.
    intros x Hx. apply negb_true_iff, String.eqb_neq. intros Hname.
    apply Hk. rewrite E, <- Hname. now apply in_map.
  - now rewrite IH.
Qed.

Lemma filter_filter {A} (f g : A -> bool) (l : list A) :
  filter f (filter g l) = filter (fun x => g x && f x) l.
Proof.
  induction l as [|x l IH]; simpl; [reflexivity |].
  destruct (g x); simpl; [destruct (f x) |]; now rewrite IH.
Qed.

Lemma remove_loop_filter (remove : list string) :
  forall (removed : list string) (current : Sockets),
    NoDup remove ->
    (forall e, In e remove -> ~ In e removed) ->
    NoDup (map fst current) ->
    remove_loop remove removed current
    = (Ok tt,
       filter (fun e => negb (existsb (String.eqb (fst e)) remove)) current).
Proof.
  induction remove as [|e remove IH]; intros removed current Hnd Hnew Hc.
  - simpl. now rewrite filter_all.
  - inversion Hnd as [|? ? He Hnd']. subst.
    cbn [remove_loop].
    assert (Hfresh : existsb (String.eqb e) removed = false).
    { apply not_true_is_false. intros H. apply existsb_eqb_In in H.
      apply (Hnew e); [now left | exact H]. }
    rewrite Hfresh, (remove_first_filter e current Hc).
    rewrite IH.
    + rewrite filter_filter. f_equal. apply filter_ext. intros x.
      cbn [existsb]. now rewrite negb_orb.
    + exact Hnd'.
    + intros x Hx [<- | Hin]; [now apply He |].
      apply (Hnew x); [now right | exact Hin].
    + now apply keys_filter_distinct.
Qed.

Lemma resolved_keys (new : SetupSchema) :
  map fst (resolved new) = map fst new.
Proof. unfold resolved. rewrite map_map. now apply map_ext. Qed.

Lemma update_first_twice (name : string) (f g : string * Z -> string * Z)
    (current : Sockets) :
  update_first name g (update_first name f current)
  = update_first name (fun s => g (f s)) current.
Proof.
  induction current as [|e current IH]; simpl; [reflexivity |].
  destruct (fst e =? name) eqn:E; simpl; rewrite E; [reflexivity |].
  now rewrite IH.
Qed.

(** Creating the socket when it is missing and writing its properties
    is the assignment [d[k] = v] of a dict. *)
Lemma update_first_dict_set (name : string) (f : string * Z -> string * Z)
    (v d0 : string * Z) (current : Sockets) :
  (forall s, f s = v) ->
  let current' :=
    if has_key current name then current
    else (current ++ [(name, d0)])%list in
  has_key current' name = true
  /\ update_first name f current' = dict_set current name v.
Proof.
  intros Hf. cbv zeta. induction current as [|[k w] current IH].
  - simpl. rewrite String.eqb_refl, Hf. now split.
  - unfold has_key in *. cbn [existsb fst].
    destruct (k =? name) eqn:E.
    + cbn [orb existsb fst update_first dict_set]. rewrite E.
      apply String.eqb_eq in E. subst k. cbn [orb snd]. now rewrite Hf.
    + cbn [orb]. destruct IH as [Hhas Hset].
      destruct (existsb (fun e => fst e =? name) current) eqn:Hin.
      * cbn [existsb fst update_first dict_set]. rewrite E. cbn [orb].
        split; [exact Hin |]. now rewrite <- Hset.
      * cbn [app existsb fst update_first dict_set]. rewrite E. cbn [orb].
        split; [exact Hhas |]. now rewrite <- Hset.
Qed.

Lemma setup_loop_fold (new : SetupSchema) :
  setup_accepts new = true ->
  forall current : Sockets,
    setup_loop new current
    = (Ok tt,
       fold_left (fun current e => dict_set current (fst e) (snd e))
         (resolved new) current).
Proof.
  induction new as [|[name [type size]] new IH]; intros Hok current;
    [reflexivity |].
  cbn [setup_accepts forallb fst snd] in Hok.
  apply andb_true_iff in Hok as [Hentry Hok].
  apply andb_true_iff in Hentry as [Hname Hsize].
  apply String.eqb_eq in Hname.
  cbn [setup_loop resolved map fold_left fst snd]. rewrite Hname.
  destruct type as [type | type_string].
  - destruct (update_first_dict_set name (fun s => (type, size))
                (type, size) ("", 0%Z) current (fun _ => eq_refl))
      as [Hhas Hset].
    rewrite Hhas, Hsize, update_first_twice. cbn [fst snd].
    rewrite Hset. now apply IH.
  - destruct (update_first_dict_set name (fun _ => (type_string, 0%Z))
                (type_string, 0%Z) ("", 0%Z) current (fun _ => eq_refl))
      as [Hhas Hset].
    rewrite Hhas, Hset. now apply IH.
Qed.

(** On a collection of distinct names and for a schema that it accepts,
    [setup] ends normally and leaves the collection that the schema
    describes. *)
Lemma setup_applies_schema (current : Sockets) (new : SetupSchema) :
  NoDup (map fst current) ->
  setup_accepts new = true ->
  setup current new = (Ok tt, schema_applied current (resolved new)).
Proof.
  intros Hc Hok. unfold setup.
  rewrite remove_loop_filter;
    [| now apply NoDup_filter | intros e _ [] | exact Hc].
  rewrite (setup_loop_fold new Hok). unfold schema_applied.
  apply (f_equal (fun kept =>
                    (Ok tt,
                     fold_left
                       (fun current e => dict_set current (fst e) (snd e))
                       (resolved new) kept))).
  apply filter_ext_in. intros e He.
  assert (Hkey : In (fst e) (map fst current)) by now apply in_map.
  destruct (dict_get (resolved new) (fst e)) as [v|] eqn:E.
  - apply negb_true_iff, not_true_is_false. intros H.
    apply existsb_eqb_In, filter_In in H as [_ H].
    apply negb_true_iff in H.
    assert (Hin : has_key new (fst e) = true).
    { apply has_key_In. rewrite <- resolved_keys.
      apply in_schema_get. now rewrite E. }
    congruence.
  - apply negb_false_iff, existsb_eqb_In, filter_In.
    split; [exact Hkey |]. apply negb_true_iff, not_true_is_false.
    intros H. apply has_key_In in H. rewrite <- resolved_keys in H.
    apply in_schema_get in H. now rewrite E in H.
Qed.

(** X7: on a collection of distinct names, for a schema of distinct
    names that fit into a socket name and of sizes that are 32-bit
    integers, [setup] ends normally, and after it the collection answers
    to the names of the schema and to no other name, once to each, with
    the type and the size that the schema gives it. *)
Theorem setup_gives_schema (current : Sockets) (new : SetupSchema) :
  NoDup (map fst current) -> NoDup (map fst new) ->
  setup_accepts new = true ->
  exists sockets,
    setup current new = (Ok tt, sockets)
    /\ NoDup (map fst sockets)
    /\ forall name, dict_get sockets name = dict_get (resolved new) name.
Proof.
  intros Hc Hn Hok. rewrite <- resolved_keys in Hn.
  exists (schema_applied current (resolved new)).
  split; [now apply setup_applies_schema |].
  split; [now apply applied_keys_distinct |].
  intros name. now apply applied_lookup.
Qed.

Lemma setup_gives_schema_witness :
  exists sockets,
    setup [("x", ("float", 0%Z)); ("array", ("vec3", 4%Z))]
      [("array", (TypeName "", 1%Z)); ("index", (TypeParameter "int", 7%Z))]
    = (Ok tt, sockets)
    /\ NoDup (map fst sockets)
    /\ forall name,
         dict_get sockets name
         = dict_get [("array", ("", 1%Z)); ("index", ("int", 0%Z))] name.
Proof.
  apply (setup_gives_schema
           [("x", ("float", 0%Z)); ("array", ("vec3", 4%Z))]
           [("array", (TypeName "", 1%Z));
            ("index", (TypeParameter "int", 7%Z))]).
  - repeat constructor; simpl; intuition discriminate.
  - repeat constructor; simpl; intuition discriminate.
  - reflexivity.
Defined.

(** X8: under the same conditions, the sockets that the schema still
    names keep their place and their order, and the sockets that are new
    come after them, in the order of the schema. *)
Theorem setup_keeps_order (current : Sockets) (new : SetupSchema) :
  NoDup (map fst current) -> NoDup (map fst new) ->
  setup_accepts new = true ->
  exists sockets,
    setup current new = (Ok tt, sockets)
    /\ map fst sockets
       = (filter (fun k => existsb (String.eqb k) (map fst new))
            (map fst current)
          ++ filter (fun k => negb (existsb (String.eqb k) (map fst current)))
               (map fst new))%list.
Proof.
  intros Hc Hn Hok.
  exists (schema_applied current (resolved new)).
  split; [now apply setup_applies_schema |].
  rewrite <- (resolved_keys new) in *. now apply applied_keys.
Qed.

Lemma setup_keeps_order_witness :
  exists sockets,
    setup [("x", ("float", 0%Z)); ("array", ("vec3", 4%Z));
           ("index", ("int", 0%Z))]
      (plain_schema [("uv", ("vec2", 0%Z)); ("index", ("int", 0%Z));
                     ("array", ("", 1%Z))])
    = (Ok tt, sockets)
    /\ map fst sockets = ["array"; "index"; "uv"].
Proof.
  apply (setup_keeps_order
           [("x", ("float", 0%Z)); ("array", ("vec3", 4%Z));
            ("index", ("int", 0%Z))]
           (plain_schema [("uv", ("vec2", 0%Z)); ("index", ("int", 0%Z));
                          ("array", ("", 1%Z))])).
  - repeat constructor; simpl; intuition discriminate.
  - repeat constructor; simpl; intuition discriminate.
  - reflexivity.
Defined.

(** X9: under the same conditions, a second [setup] with the same schema
    ends normally and changes nothing. *)
Theorem setup_idempotent (current : Sockets) (new : SetupSchema) :
  NoDup (map fst current) -> NoDup (map fst new) ->
  setup_accepts new = true ->
  exists sockets,
    setup current new = (Ok tt, sockets)
    /\ setup sockets new = (Ok tt, sockets).
Proof.
  intros Hc Hn Hok. rewrite <- resolved_keys in Hn.
  exists (schema_applied current (resolved new)).
  split; [now apply setup_applies_schema |].
  rewrite setup_applies_schema;
    [| now apply applied_keys_distinct | exact Hok].
  now rewrite applied_fixed.
Qed.

Lemma setup_idempotent_witness :
  exists sockets,
    setup [("x", ("float", 0%Z)); ("array", ("vec3", 4%Z))]
      (plain_schema [("index", ("int", 0%Z)); ("array", ("", 1%Z))])
    = (Ok tt, sockets)
    /\ setup sockets
         (plain_schema [("index", ("int", 0%Z)); ("array", ("", 1%Z))])
       = (Ok tt, sockets).
Proof.
  apply (setup_idempotent [("x", ("float", 0%Z)); ("array", ("vec3", 4%Z))]
           (plain_schema [("index", ("int", 0%Z)); ("array", ("", 1%Z))])).
  - repeat constructor; simpl; intuition discriminate.
  - repeat constructor; simpl; intuition discriminate.
  - reflexivity.
Defined.

(** Where [setup] does not end normally: a size that is no 32-bit
    integer is refused after the data type is written, and the array
    size of the new socket stays 0; a name of 64 bytes gives a socket of
    63 bytes, which the lookup by the full name does not find; and two
    sockets of one name that the schema lacks are one socket twice in
    [remove]. *)
Example setup_refuses_a_large_size :
  setup [] (plain_schema [("a", ("int", 2147483648%Z)); ("b", ("int", 0%Z))])
  = (Raise ValueError, [("a", ("int", 0%Z))]).
Proof. reflexivity. Qed.

Example setup_loses_a_long_name :
  let name :=
    "a123456789b123456789c123456789d123456789e123456789f123456789g123" in
  setup [] (plain_schema [(name, ("int", 0%Z))])
  = (Raise KeyError,
     [("a123456789b123456789c123456789d123456789e123456789f123456789g12",
       ("", 0%Z))]).
Proof. reflexivity. Qed.

Example setup_removes_a_socket_once :
  setup [("x", ("float", 0%Z)); ("x", ("int", 0%Z))] []
  = (Raise RuntimeError, [("x", ("int", 0%Z))]).
Proof. reflexivity. Qed.

Example setup_reads_a_parameter :
  setup [("a", ("float", 3%Z))] [("a", (TypeParameter "vec3", 5%Z))]
  = (Ok tt, [("a", ("vec3", 0%Z))]).
Proof. reflexivity. Qed.

(* ================================================================== *)
(** * Further properties: the schemas of the node classes *)

Lemma in_keys_dict_set {V} (d : list (string * V)) (k name : string) (v : V) :
  In name (map fst (dict_set d k v)) <-> In name (map fst d) \/ name = k.
Proof.
  rewrite keys_dict_set.
  destruct (existsb (String.eqb k) (map fst d)) eqn:E.
  - apply existsb_eqb_In in E. split; [tauto |].
    intros [H | ->]; assumption.
  - rewrite in_app_iff. simpl. split; intros [H | H]; try tauto.
    + destruct H as [<- | []]. now right.
    + subst. right. now left.
Qed.

Lemma exists_param_nil (f : ParameterDesc -> bool) (name : string) :
  (exists q, In q [] /\ f q = true /\ p_name q = name) <-> False.
Proof. split; [intros [q [[] _]] | contradiction]. Qed.

Lemma exists_param_cons (f : ParameterDesc -> bool) (p : ParameterDesc)
    (ps : list ParameterDesc) (name : string) :
  (exists q, In q (p :: ps) /\ f q = true /\ p_name q = name)
  <-> (f p = true /\ p_name p = name)
      \/ exists q, In q ps /\ f q = true /\ p_name q = name.
Proof.
  split.
  - intros [q [[<- | Hq] H]]; [now left | right; now exists q].
  - intros [H | [q [Hq H]]]; [exists p | exists q]; split; auto;
      [now left | now right].
Qed.

Ltac keys_solver := intuition congruence.

Lemma function_setup_loop_keys (ps : list ParameterDesc) :
  forall (inputs outputs : Schema) (name : string),
    (In name (map fst (fst (function_setup_loop ps inputs outputs)))
     <-> In name (map fst inputs)
         \/ exists p, In p ps /\ io_is_in p = true /\ p_name p = name)
    /\ (In name (map fst (snd (function_setup_loop ps inputs outputs)))
        <-> In name (map fst outputs)
            \/ exists p, In p ps /\ io_is_out p = true /\ p_name p = name).
Proof.
  induction ps as [|p ps IH]; intros inputs outputs name;
    cbn [function_setup_loop].
  - rewrite (exists_param_nil io_is_in), (exists_param_nil io_is_out).
    keys_solver.
  - destruct (IH (if io_is_in p
                  then dict_set inputs (p_name p) (p_type p, p_size p)
                  else inputs)
                 (if io_is_out p
                  then dict_set outputs (p_name p) (p_type p, p_size p)
                  else outputs) name) as [Hin Hout].
    split.
    + rewrite Hin, (exists_param_cons io_is_in). destruct (io_is_in p) eqn:Hp;
        [rewrite in_keys_dict_set |]; keys_solver.
    + rewrite Hout, (exists_param_cons io_is_out).
      destruct (io_is_out p) eqn:Hp;
        [rewrite in_keys_dict_set |]; keys_solver.
Qed.

(** X10: the inputs that [MaltFunctionNode.malt_setup] asks for are the
    names of the parameters that [get_source_code] looks up among the
    inputs, and its outputs are the out and inout parameters and, for a
    function that is not void, [result]. *)
Theorem function_malt_setup_sockets (function : FunctionDesc) (name : string) :
  (In name (map fst (fst (function_malt_setup function)))
   <-> exists p, In p (f_parameters function)
                 /\ io_is_in p = true /\ p_name p = name)
  /\ (In name (map fst (snd (function_malt_setup function)))
      <-> (name = "result" /\ f_type function <> "void")
          \/ exists p, In p (f_parameters function)
                       /\ io_is_out p = true /\ p_name p = name).
Proof.
  unfold function_malt_setup.
  destruct (function_setup_loop_keys (f_parameters function) []
              (if negb (f_type function =? "void")
               then dict_set [] "result" (f_type function, 0%Z) else [])
              name) as [Hin Hout].
  split.
  - rewrite Hin. simpl. tauto.
  - rewrite Hout. destruct (f_type function =? "void") eqn:E; simpl.
    + apply String.eqb_eq in E. split; [tauto |].
      intros [[_ H] | H]; [contradiction | now right].
    + apply String.eqb_neq in E. split.
      * intros [[<- | []] | H]; [left; now split | now right].
      * intros [[-> _] | H]; [left; now left | now right].
Qed.

Lemma io_setup_loop_keys (is_output : bool) (ps : list ParameterDesc) :
  forall (inputs outputs : Schema) (name : string),
    (In name (map fst (fst (io_setup_loop is_output ps inputs outputs)))
     <-> In name (map fst inputs)
         \/ (is_output = true
             /\ exists p, In p ps /\ io_is_out p = true /\ p_name p = name))
    /\ (In name (map fst (snd (io_setup_loop is_output ps inputs outputs)))
        <-> In name (map fst outputs)
            \/ (is_output = false
                /\ exists p, In p ps /\ io_is_in p = true /\ p_name p = name)).
Proof.
  induction ps as [|p ps IH]; intros inputs outputs name;
    cbn [io_setup_loop].
  - rewrite (exists_param_nil io_is_in), (exists_param_nil io_is_out).
    keys_solver.
  - destruct (IH (if io_is_out p && is_output
                  then dict_set inputs (p_name p) (p_type p, p_size p)
                  else inputs)
                 (if io_is_in p && negb is_output
                  then dict_set outputs (p_name p) (p_type p, p_size p)
                  else outputs) name) as [Hin Hout].
    split.
    + rewrite Hin, (exists_param_cons io_is_out).
      destruct (io_is_out p) eqn:Hp, is_output; cbn [andb negb];
        try rewrite in_keys_dict_set; keys_solver.
    + rewrite Hout, (exists_param_cons io_is_in).
      destruct (io_is_in p) eqn:Hp, is_output; cbn [andb negb];
        try rewrite in_keys_dict_set; keys_solver.
Qed.

Lemma io_setup_loop_other_side (is_output : bool) (ps : list ParameterDesc) :
  forall inputs outputs : Schema,
    if is_output
    then snd (io_setup_loop is_output ps inputs outputs) = outputs
    else fst (io_setup_loop is_output ps inputs outputs) = inputs.
Proof.
  induction ps as [|p ps IH]; intros inputs outputs;
    cbn [io_setup_loop]; [now destruct is_output |].
  specialize (IH (if io_is_out p && is_output
                  then dict_set inputs (p_name p) (p_type p, p_size p)
                  else inputs)
                 (if io_is_in p && negb is_output
                  then dict_set outputs (p_name p) (p_type p, p_size p)
                  else outputs)).
  destruct is_output; cbn [negb] in *;
    rewrite ?andb_false_r in *; exact IH.
Qed.

(** X11: an entry node gets no inputs and an exit node no outputs.  The
    inputs of an exit node are the out and inout parameters of the
    boundary and, when the boundary is not void, [result], the socket
    that [get_source_code] looks up; the outputs of an entry node are the
    parameters that come in. *)
Theorem io_malt_setup_sockets (function : FunctionDesc) (is_output : bool)
    (name : string) :
  if is_output
  then snd (io_malt_setup function true) = []
       /\ (In name (map fst (fst (io_malt_setup function true)))
           <-> (name = "result" /\ f_type function <> "void")
               \/ exists p, In p (f_parameters function)
                            /\ io_is_out p = true /\ p_name p = name)
  else fst (io_malt_setup function false) = []
       /\ (In name (map fst (snd (io_malt_setup function false)))
           <-> exists p, In p (f_parameters function)
                         /\ io_is_in p = true /\ p_name p = name).
Proof.
  unfold io_malt_setup. destruct is_output.
  - split.
    + apply (io_setup_loop_other_side true).
    + destruct (io_setup_loop_keys true (f_parameters function)
                  (if negb (f_type function =? "void") && true
                   then dict_set [] "result" (f_type function, 0%Z) else [])
                  [] name) as [Hin _].
      rewrite Hin. rewrite andb_true_r.
      destruct (f_type function =? "void") eqn:E; simpl.
      * apply String.eqb_eq in E. keys_solver.
      * apply String.eqb_neq in E. keys_solver.
  - rewrite andb_false_r. split.
    + apply (io_setup_loop_other_side false).
    + destruct (io_setup_loop_keys false (f_parameters function) [] [] name)
        as [_ Hout].
      rewrite Hout. simpl. keys_solver.
Qed.

(** X12: the schema of the array index node follows the link of the
    input [array].  When the input is linked to a socket that is an
    array, [array] gets the data type and the array size of that socket
    and [element] is a scalar of that data type; when it is not linked,
    or linked to a socket that is no array, the schema is the untyped
    placeholder.  The input [index] is a scalar int in both cases. *)
Theorem array_index_schema_follows_link (fuel : nat) (t : Tree)
    (node : node_ref) (inputs outputs : Schema) :
  array_index_malt_update fuel t node = Some (Ok (inputs, outputs)) ->
  exists array,
    socket_named t (n_inputs (node_at t node)) "array" = Ok array
    /\ ((exists linked,
           get_linked fuel t array = Some (Some linked)
           /\ (0 < s_array_size (socket_at t linked))%Z
           /\ inputs = [("array", (s_data_type (socket_at t linked),
                                   s_array_size (socket_at t linked)));
                        ("index", ("int", 0%Z))]
           /\ outputs = [("element", (s_data_type (socket_at t linked), 0%Z))])
        \/ ((get_linked fuel t array = Some None
             \/ exists linked,
                  get_linked fuel t array = Some (Some linked)
                  /\ (s_array_size (socket_at t linked) <= 0)%Z)
            /\ inputs = [("array", ("", 1%Z)); ("index", ("int", 0%Z))]
            /\ outputs = [("element", ("", 0%Z))])).
Proof.
  unfold array_index_malt_update. intros H.
  apply bind_ok_inv in H as [array [Harray H]].
  apply bind_ok_inv in H as [linked [Hlinked H]].
  exists array. split; [now injection Harray |].
  unfold lift_fuel in Hlinked.
  destruct (get_linked fuel t array) as [r|]; [| discriminate Hlinked].
  injection Hlinked as ->.
  destruct linked as [linked|].
  - destruct (0 <? s_array_size (socket_at t linked))%Z eqn:E;
      injection H as <- <-.
    + apply Z.ltb_lt in E. left. exists linked.
      split; [reflexivity |]. split; [exact E |]. now split.
    + apply Z.ltb_ge in E. right.
      split; [right; exists linked; now split | now split].
  - injection H as <- <-. right. split; [now left | now split].
Qed.

Lemma array_index_schema_follows_link_witness :
  exists array,
    socket_named Examples.array_linked_tree
      (n_inputs (node_at Examples.array_linked_tree 0)) "array" = Ok array
    /\ ((exists linked,
           get_linked 2 Examples.array_linked_tree array = Some (Some linked)
           /\ (0 < s_array_size (socket_at Examples.array_linked_tree linked))%Z
           /\ [("array", ("vec3", 4%Z)); ("index", ("int", 0%Z))]
              = [("array",
                  (s_data_type (socket_at Examples.array_linked_tree linked),
                   s_array_size (socket_at Examples.array_linked_tree linked)));
                 ("index", ("int", 0%Z))]
           /\ [("element", ("vec3", 0%Z))]
              = [("element",
                  (s_data_type (socket_at Examples.array_linked_tree linked),
                   0%Z))])
        \/ ((get_linked 2 Examples.array_linked_tree array = Some None
             \/ exists linked,
                  get_linked 2 Examples.array_linked_tree array
                  = Some (Some linked)
                  /\ (s_array_size (socket_at Examples.array_linked_tree linked)
                      <= 0)%Z)
            /\ [("array", ("vec3", 4%Z)); ("index", ("int", 0%Z))]
               = [("array", ("", 1%Z)); ("index", ("int", 0%Z))]
            /\ [("element", ("vec3", 0%Z))] = [("element", ("", 0%Z))])).
Proof.
  exact (array_index_schema_follows_link 2 Examples.array_linked_tree 0
           [("array", ("vec3", 4%Z)); ("index", ("int", 0%Z))]
           [("element", ("vec3", 0%Z))] eq_refl).
Defined.

Lemma in_firstn {A} (x : A) (l : list A) :
  forall n, In x (firstn n l) -> In x l.
Proof.
  induction l as [|y l IH]; intros [|n] H; simpl in *; try contradiction.
  destruct H as [-> | H]; [now left | right; now apply (IH n)].
Qed.

Lemma NoDup_firstn {A} (l : list A) :
  NoDup l -> forall n, NoDup (firstn n l).
Proof.
  induction 1 as [|x l Hx Hl IH]; intros [|n]; simpl; try constructor.
  - intros H. apply Hx. now apply (in_firstn x l n).
  - apply IH.
Qed.

Lemma inline_alphabet_distinct : NoDup inline_alphabet.
Proof. repeat constructor; simpl; intuition discriminate. Qed.

(** The first loop of the inline node never counts beyond the inputs,
    and counts all of them when the last one has a type. *)
Lemma inline_last_bound (fuel : nat) (t : Tree) (inputs : list socket_ref) :
  forall i last r,
    inline_last fuel t inputs i last = Some (Ok r) ->
    last <= i -> r <= i + List.length inputs.
Proof.
  induction inputs as [|input inputs IH]; intros i last r H Hle;
    cbn [inline_last] in H.
  - injection H as <-. simpl. lia.
  - simpl. destruct (negb (s_data_type (socket_at t input) =? "")).
    + apply IH in H; lia.
    + apply bind_ok_inv in H as [linked [_ H]].
      destruct linked; apply IH in H; lia.
Qed.

Lemma inline_last_full (fuel : nat) (t : Tree) (front : list socket_ref)
    (x : socket_ref) :
  s_data_type (socket_at t x) <> "" ->
  forall i last r,
    inline_last fuel t (front ++ [x]) i last = Some (Ok r) ->
    r = i + List.length (front ++ [x]).
Proof.
  intros Hx. induction front as [|y front IH]; intros i last r H;
    cbn [inline_last app] in H.
  - apply String.eqb_neq in Hx. rewrite Hx in H. simpl in H.
    injection H as <-. simpl. lia.
  - cbn [List.length app].
    destruct (negb (s_data_type (socket_at t y) =? "")).
    + apply IH in H. lia.
    + apply bind_ok_inv in H as [linked [_ H]].
      destruct linked; apply IH in H; lia.
Qed.

(** The second loop gives every variable one entry, in order. *)
Lemma inline_inputs_keys (fuel : nat) (t : Tree) (node : node_ref)
    (variables : list string) :
  NoDup variables ->
  forall (acc r : Schema),
    (forall v, In v variables -> ~ In v (map fst acc)) ->
    inline_inputs fuel t node variables acc = Some (Ok r) ->
    map fst r = (map fst acc ++ variables)%list.
Proof.
  induction 1 as [|var variables Hvar Hnd IH]; intros acc r Hfresh H;
    cbn [inline_inputs] in H.
  - injection H as <-. now rewrite app_nil_r.
  - assert (Hkeys : map fst (dict_set acc var ("", 0%Z))
                    = (map fst acc ++ [var])%list).
    { rewrite keys_dict_set.
      destruct (existsb (String.eqb var) (map fst acc)) eqn:E; [| reflexivity].
      apply existsb_eqb_In in E. exfalso.
      apply (Hfresh var); [now left | exact E]. }
    assert (Hfresh' : forall d : Schema,
               map fst d = (map fst acc ++ [var])%list ->
               forall v, In v variables -> ~ In v (map fst d)).
    { intros d Hd v Hv Hin. rewrite Hd in Hin.
      apply in_app_iff in Hin as [Hin | [<- | []]].
      - apply (Hfresh v); [now right | exact Hin].
      - contradiction. }
    destruct (socket_named t (n_inputs (node_at t node)) var) as [input | e].
    + apply bind_ok_inv in H as [linked [_ H]].
      apply IH in H.
      * rewrite H, keys_dict_set.
        assert (E : existsb (String.eqb var)
                      (map fst (dict_set acc var ("", 0%Z))) = true).
        { apply existsb_eqb_In. rewrite Hkeys, in_app_iff. right. now left. }
        rewrite E, Hkeys, <- app_assoc. reflexivity.
      * apply Hfresh'. rewrite keys_dict_set.
        assert (E : existsb (String.eqb var)
                      (map fst (dict_set acc var ("", 0%Z))) = true).
        { apply existsb_eqb_In. rewrite Hkeys, in_app_iff. right. now left. }
        now rewrite E.
    + apply IH in H.
      * rewrite H, Hkeys, <- app_assoc. reflexivity.
      * now apply Hfresh'.
Qed.

(** X13: the schema of an inline node has between one and eight inputs,
    named by the first letters of the alphabet in order, at most one
    more than the node has, and exactly one more (up to eight) when the
    last input of the node has a type; its only output is [result]. *)
Theorem inline_malt_update_slots (fuel : nat) (t : Tree) (node : node_ref)
    (inputs outputs : Schema) :
  inline_malt_update fuel t node = Some (Ok (inputs, outputs)) ->
  exists k,
    1 <= k <= 8
    /\ k <= List.length (n_inputs (node_at t node)) + 1
    /\ map fst inputs = firstn k inline_alphabet
    /\ map fst outputs = ["result"]
    /\ (forall front x,
          n_inputs (node_at t node) = (front ++ [x])%list ->
          s_data_type (socket_at t x) <> "" ->
          k = Nat.min (List.length (n_inputs (node_at t node)) + 1) 8).
Proof.
  unfold inline_malt_update. intros H.
  apply bind_ok_inv in H as [last [Hlast H]].
  apply bind_ok_inv in H as [ins [Hins H]].
  exists (Nat.min (last + 1) 8).
  pose proof (inline_last_bound fuel t _ 0 0 last Hlast (Nat.le_refl 0)) as Hb.
  simpl in Hb.
  apply (inline_inputs_keys fuel t node _
           (NoDup_firstn _ inline_alphabet_distinct _) [] ins) in Hins;
    [| intros v _ []].
  simpl in Hins.
  assert (Hout : map fst outputs = ["result"] /\ inputs = ins).
  { destruct (socket_named t (n_outputs (node_at t node)) "result").
    - apply bind_ok_inv in H as [out [_ H]].
      destruct out; injection H as <- <-; now split.
    - injection H as <- <-. now split. }
  destruct Hout as [Hout ->].
  split; [lia |]. split; [lia |]. split; [exact Hins |].
  split; [exact Hout |].
  intros front x Hfront Hx. rewrite Hfront in Hlast.
  apply (inline_last_full fuel t front x Hx) in Hlast.
  rewrite Hfront. simpl in Hlast. now rewrite Hlast.
Qed.

Lemma inline_malt_update_slots_witness :
  exists k,
    1 <= k <= 8
    /\ k <= List.length (n_inputs (node_at Examples.inline_tree 0)) + 1
    /\ map fst [("a", ("float", 0%Z)); ("b", ("", 0%Z))]
       = firstn k inline_alphabet
    /\ map fst [("result", ("", 0%Z))] = ["result"]
    /\ (forall front x,
          n_inputs (node_at Examples.inline_tree 0) = (front ++ [x])%list ->
          s_data_type (socket_at Examples.inline_tree x) <> "" ->
          k = Nat.min (List.length (n_inputs (node_at Examples.inline_tree 0)) + 1) 8).
Proof.
  exact (inline_malt_update_slots 2 Examples.inline_tree 0
           [("a", ("float", 0%Z)); ("b", ("", 0%Z))]
           [("result", ("", 0%Z))] eq_refl).
Defined.

(* ================================================================== *)
(** * Further properties: the order of the emission *)

Lemma split_snoc {A} (before after l : list A) (z x : A) :
  (before ++ z :: after)%list = (l ++ [x])%list ->
  (after = [] /\ before = l /\ z = x)
  \/ exists after', l = (before ++ z :: after')%list.
Proof.
  induction after as [|w after' _] using rev_ind; intros H.
  - left. apply app_inj_tail in H as [-> ->]. now split.
  - right. exists after'.
    change (before ++ z :: after' ++ [w])%list
      with (before ++ (z :: after') ++ [w])%list in H.
    rewrite app_assoc in H. now apply app_inj_tail in H as [<- _].
Qed.

Section TraversalOrder.

Variable t : Tree.
Variable rank : node_ref -> nat.

Hypothesis feeds_ranked :
  forall m node, feeds t m node -> In m (t_nodes t) /\ rank m < rank node.

Lemma ordered_snoc (l : list node_ref) (x : node_ref) :
  dependency_ordered t l ->
  (forall y, feeds t y x -> In y l) ->
  dependency_ordered t (l ++ [x]).
Proof.
  intros Hord Hfed before z after Hsplit y Hy.
  symmetry in Hsplit.
  apply split_snoc in Hsplit as [[_ [-> ->]] | [after' ->]].
  - now apply Hfed.
  - eapply Hord; [reflexivity | exact Hy].
Qed.

Lemma inputs_loop_ordered
    (nested : node_ref -> list node_ref -> list node_ref
              -> option (list node_ref * list node_ref))
    (node : node_ref) :
  (forall m l k,
      feeds t m node -> traversal_invariant t l k ->
      visit_ok t m l k (nested m l k)) ->
  (forall m l k l' k',
      feeds t m node -> traversal_invariant t l k ->
      dependency_ordered t l ->
      nested m l k = Some (l', k') -> dependency_ordered t l') ->
  forall inputs list_ linked_nodes list' linked',
    incl inputs (n_inputs (node_at t node)) ->
    traversal_invariant t list_ linked_nodes ->
    dependency_ordered t list_ ->
    inputs_loop nested t inputs list_ linked_nodes = Some (list', linked') ->
    dependency_ordered t list'.
Proof.
  intros Hvisit Hnested inputs.
  induction inputs as [|input inputs IH];
    intros list_ linked_nodes list' linked' Hincl Hinv Hord H;
    cbn [inputs_loop] in H.
  - injection H as <- _. exact Hord.
  - assert (Hincl' : incl inputs (n_inputs (node_at t node))).
    { intros x Hx. apply Hincl. now right. }
    destruct (socket_links t input) as [|link links] eqn:Hlinks.
    + eapply IH; eassumption.
    + set (new_node := s_node (socket_at t (from_socket link))) in *.
      assert (Hfeeds : feeds t new_node node).
      { exists input, link, links.
        split; [apply Hincl; now left |]. split; [exact Hlinks | reflexivity]. }
      destruct (visit_new_node t rank feeds_ranked nested node new_node list_
                  linked_nodes Hfeeds Hinv (Hvisit _ _ _ Hfeeds Hinv))
        as [l1 [k1 [Hrun1 [Hnd1 [Hndk1 [Hsub1 [Hclosed1 [Hl1 [Hk1 Hin1]]]]]]]]].
      assert (Hord1 : dependency_ordered t l1).
      { destruct (mem new_node list_) eqn:Hmem.
        - injection Hrun1 as <- _. exact Hord.
        - destruct (Hvisit _ _ _ Hfeeds Hinv)
            as [l [k [Hrun [_ [_ [_ Hfed]]]]]].
          rewrite Hrun in Hrun1. injection Hrun1 as <- _.
          apply ordered_snoc; [| exact Hfed].
          eapply Hnested; eassumption. }
      rewrite Hrun1 in H.
      destruct (link_new_node t node new_node l1 k1 Hfeeds Hnd1 Hndk1 Hsub1
                  Hclosed1) as [Hinv2 _].
      eapply IH; eassumption.
Qed.

Lemma add_node_inputs_ordered (fuel : nat) :
  forall node list_ linked_nodes list' linked',
    rank node < fuel ->
    traversal_invariant t list_ linked_nodes ->
    dependency_ordered t list_ ->
    add_node_inputs fuel t node list_ linked_nodes = Some (list', linked') ->
    dependency_ordered t list'.
Proof.
  induction fuel as [|fuel IH];
    intros node list_ linked_nodes list' linked' Hrank Hinv Hord H; [lia |].
  cbn [add_node_inputs] in H.
  eapply (inputs_loop_ordered (add_node_inputs fuel t) node);
    try eassumption.
  - intros m l k Hm Hlk.
    apply (add_node_inputs_ok t rank feeds_ranked); [| exact Hlk].
    apply feeds_ranked in Hm. lia.
  - intros m l k l' k' Hm Hlk Hl Hrun.
    eapply IH; try eassumption. apply feeds_ranked in Hm. lia.
  - intros x Hx. exact Hx.
Qed.

(** X14: in a graph without cycle, [add_node_inputs] started with an
    empty list returns the nodes upstream of the node, all of them and
    no others, each once, and every one after the nodes that feed it. *)
Theorem add_node_inputs_topological
    (fuel : nat) (node : node_ref) (linked_nodes : list node_ref) :
  rank node < fuel ->
  NoDup linked_nodes ->
  exists nodes linked',
    add_node_inputs fuel t node [] linked_nodes = Some (nodes, linked')
    /\ NoDup nodes
    /\ (forall x, In x nodes <-> upstream t x node)
    /\ dependency_ordered t nodes.
Proof.
  intros Hrank Hnd.
  assert (Hinv : traversal_invariant t [] linked_nodes).
  { split; [constructor |]. split; [exact Hnd |].
    split; [intros x [] | intros x y []]. }
  destruct (add_node_inputs_ok t rank feeds_ranked fuel node [] linked_nodes
              Hrank Hinv)
    as [nodes [linked' [Hrun [[Hnd1 [_ [_ Hclosed]]] [[_ Hl] [_ Hfed]]]]]].
  exists nodes, linked'.
  split; [exact Hrun |]. split; [exact Hnd1 |]. split.
  - intros x. split.
    + intros Hx. destruct (Hl x Hx) as [[] | H]. exact H.
    + intros Hx. eapply closed_holds_upstream; eassumption.
  - eapply add_node_inputs_ordered; try eassumption.
    intros before x after Hsplit. now destruct before.
Qed.

End TraversalOrder.

Lemma add_node_inputs_topological_witness :
  exists nodes linked',
    add_node_inputs 4 Examples.shared_tree 0 [] [0; 1] = Some (nodes, linked')
    /\ NoDup nodes
    /\ (forall x, In x nodes <-> upstream Examples.shared_tree x 0)
    /\ dependency_ordered Examples.shared_tree nodes.
Proof.
  apply (add_node_inputs_topological Examples.shared_tree Examples.shared_rank).
  - intros m node [input [link [rest [Hin [Hlinks ->]]]]].
    destruct node as [|[|[|node]]]; simpl in Hin.
    + destruct Hin as [<- | []]. vm_compute in Hlinks.
      injection Hlinks as <- _. simpl. split; [tauto | lia].
    + destruct Hin as [<- | []]. vm_compute in Hlinks.
      injection Hlinks as <- _. simpl. split; [tauto | lia].
    + destruct Hin as [<- | []]. vm_compute in Hlinks. discriminate Hlinks.
    + destruct Hin.
  - simpl. lia.
  - repeat constructor; simpl; intuition discriminate.
Defined.

(* ================================================================== *)
(** * Further properties: global parameters *)

Lemma for_code_all_empty {A} (f : A -> M string) (l : list A) (s : string) :
  (forall x c, In x l -> f x = Some (Ok c) -> c = "") ->
  for_code f l = Some (Ok s) -> s = "".
Proof.
  revert s. induction l as [|x l IH]; intros s Hf H; simpl in H.
  - now injection H as <-.
  - apply bind_ok_inv in H as [c [Hc H]].
    apply bind_ok_inv in H as [cs [Hcs H]]. injection H as <-.
    rewrite (Hf x c (or_introl eq_refl) Hc). simpl.
    apply IH; [| exact Hcs]. intros y d Hy. apply Hf. now right.
Qed.

Lemma python_sockets_declare_nothing (fuel : nat) (t : Tree)
    (sockets : list socket_ref) (s : string) :
  sockets_to_global_parameters fuel t sockets (Some Python) = Some (Ok s) ->
  s = "".
Proof.
  unfold sockets_to_global_parameters. apply for_code_all_empty.
  intros socket c _ H.
  destruct (negb (s_data_type (socket_at t socket) =? ""));
    [| now injection H as <-].
  apply bind_ok_inv in H as [linked [_ H]].
  destruct linked; [now injection H as <- |].
  apply bind_ok_inv in H as [tr [Htr H]]. injection Htr as <-.
  apply bind_ok_inv in H as [reference [_ H]]. now injection H as <-.
Qed.

Lemma python_node_declares_nothing (fuel : nat) (t : Tree) (node : node_ref)
    (s : string) :
  get_source_global_parameters fuel t (Some Python) node = Some (Ok s) ->
  s = "".
Proof.
  unfold get_source_global_parameters.
  destruct (n_kind (node_at t node)); intros H;
    try (now apply python_sockets_declare_nothing in H);
    try discriminate H.
  apply bind_ok_inv in H as [struct_linked [_ H]].
  destruct struct_linked; [now injection H as <- |].
  now apply python_sockets_declare_nothing in H.
Qed.

(** X15: for a tree of the Python language the global block of the
    generated source is the include line and nothing else: no node
    declares a global parameter. *)
Theorem python_global_block_is_include (fuel : nat) (t : Tree)
    (shader : list (string * string)) :
  t_language t = "Python" ->
  get_generated_source fuel t = Some (Ok shader) ->
  dict_get shader "GLOBAL" = Some (include_line t).
Proof.
  intros Hlang H. unfold get_generated_source in H.
  assert (Htr : get_transpiler t = Some Python).
  { unfold get_transpiler. now rewrite Hlang. }
  rewrite Htr in H.
  apply bind_ok_inv in H as [[shader0 linked] [_ H]].
  apply bind_ok_inv in H as [globals [Hglobals H]].
  injection H as <-. rewrite dict_get_set, String.eqb_refl.
  assert (Hempty : globals = "").
  { unfold globals_code in Hglobals.
    revert Hglobals. apply for_code_all_empty.
    intros node c _ Hc. cbv beta in Hc.
    destruct (is_malt_node (node_at t node)); [| now injection Hc as <-].
    now apply python_node_declares_nothing in Hc. }
  now rewrite Hempty, append_nil_r.
Qed.

Lemma python_global_block_is_include_witness :
  exists shader,
    get_generated_source 3 Examples.python_tree = Some (Ok shader)
    /\ dict_get shader "GLOBAL" = Some (include_line Examples.python_tree).
Proof.
  eexists. split; [vm_compute; reflexivity |].
  apply (python_global_block_is_include 3 Examples.python_tree);
    reflexivity.
Defined.

(* ================================================================== *)
(** * Further properties: exceptions and the update wrappers *)

(** X17: no exception of the operations run inside the [try] blocks
    leaves a wrapped [init], [setup] or [update] of a node,
    [reload_nodes] or [MaltTree.update]: whatever [malt_init],
    [malt_setup], [malt_update] and the recompilation raise is caught,
    and the call ends normally.  (The lookup of the pipeline graph and
    [update_tag], which run outside the [try], are operations that do
    not raise in [Updates].) *)
Theorem updates_contain_exceptions
    (Env : Type)
    (malt_init malt_setup malt_update : node_ref -> Updates.Eff Env unit)
    (nodes : list node_ref) (is_malt : node_ref -> bool)
    (has_pipeline_graph : Updates.World Env -> bool)
    (recompile : Updates.Eff Env unit)
    (node : node_ref) (w : Updates.World Env) :
  fst (Updates.node_init Env malt_init node w) = Ok tt
  /\ fst (Updates.node_setup Env malt_setup node w) = Ok tt
  /\ fst (Updates.node_update Env malt_update node w) = Ok tt
  /\ fst (Updates.reload_nodes Env malt_setup malt_update nodes is_malt w)
     = Ok tt
  /\ fst (Updates.tree_update Env has_pipeline_graph recompile w) = Ok tt.
Proof.
  split; [apply (wrapper_releases Env node (malt_init node) w) |].
  split; [apply (wrapper_releases Env node (malt_setup node) w) |].
  split.
  { unfold Updates.node_update.
    destruct (Updates.node_disable_updates w node); [reflexivity |].
    apply (wrapper_releases Env node (malt_update node) w). }
  split; [apply reload_nodes_releases |].
  destruct (Updates.tree_disable_updates w) eqn:Hflag.
  - unfold Updates.tree_update. now rewrite Hflag.
  - now apply tree_update_releases.
Qed.
